(** * shoushi: the particle simulation engine of [src/index.tsx]

    A shallow embedding of the simulation core (shape switch, audio
    modulator, pinch latch, spatial hash grid, integrator, collision
    resolver, shape generators) and the properties the specification
    states about it.

    Numbers.  JavaScript numbers are IEEE doubles.  Where a property is
    about the algebra of the update rules, finite numbers are modelled as
    exact rationals ([Q], compared with [==]); where a property is about
    the special values (NaN, infinities) or about the rounding of the
    stored single-precision values (the collision guard, the drag on
    small velocities) the code is embedded over [spec_float], the
    bit-exact IEEE model of the standard library. *)

From Stdlib Require Import ZArith QArith Qround Qabs Qpower Qminmax Lia Lqa Bool.
From Stdlib Require Import Floats.SpecFloat.
From Equations Require Import Equations.
From stdpp Require Import base option list gmap strings.

Local Open Scope Q_scope.

(** ** Configuration (index.tsx, lines 17-25) *)

Module Config.

Definition PARTICLE_COUNT : nat := Z.to_nat 25000.
Definition COLLISION_RADIUS : Q := 15 # 100.
Definition GRID_DIM : Z := 60.
Definition GRID_OFFSET : Q := 30.
Definition CELL_SIZE : Q := 1.

End Config.

(** ** Comparisons and library functions of the host language *)

(** [a < b] on numbers, as a boolean. *)
Definition Qltb (a b : Q) : bool := negb (Qle_bool b a).

(** [THREE.MathUtils.lerp(x, y, t)] is [(1 - t) * x + t * y]. *)
Definition lerp (x y t : Q) : Q := (1 - t) * x + t * y.

(** A property read on a plain object [{}]: an own property, a property
    inherited from [Object.prototype] (a function or accessor, never a
    shape field), or [undefined]. *)
Inductive JsProp (V : Type) : Type :=
  | Own (v : V)
  | Inherited
  | Undefined.
Arguments Own {V} v.
Arguments Inherited {V}.
Arguments Undefined {V}.

Definition objectPrototypeKeys : list string :=
  [ "constructor"; "hasOwnProperty"; "isPrototypeOf"; "propertyIsEnumerable";
    "toLocaleString"; "toString"; "valueOf"; "__proto__";
    "__defineGetter__"; "__defineSetter__"; "__lookupGetter__";
    "__lookupSetter__" ]%string.

Definition jsGet {V : Type} (o : gmap string V) (k : string) : JsProp V :=
  match o !! k with
  | Some v => Own v
  | None => if bool_decide (k ∈ objectPrototypeKeys) then Inherited else Undefined
  end.

(** [a || b] on property reads: [undefined] is the only falsy case. *)
Definition jsOr {V : Type} (a b : JsProp V) : JsProp V :=
  match a with
  | Undefined => b
  | _ => a
  end.

(** ** The host's [Math] object

    [Math.sqrt], [Math.sin], [Math.cos], [Math.atan2] and the stream of
    values [Math.random()] returns (in call order) are supplied by the
    host.  [Math.acos] yields NaN outside [[-1, 1]]: [None]. *)
Class MathLib : Type := {
  Math_PI : Q;
  Math_sqrt : Q -> Q;
  Math_sin : Q -> Q;
  Math_cos : Q -> Q;
  Math_atan2 : Q -> Q -> Q;
  Math_acos : Q -> option Q;
  Math_random : nat -> Q
}.

(** ** Simulation state (module-level [let] bindings, lines 27-60) *)

Module Sim.

Record State : Type := mkState {
  targetScale : Q;
  currentScale : Q;
  targetRotation : Q * Q;
  isHandDetected : bool;
  currentShape : string;
  baseColor : string;
  time : Q;
  isPinching : bool;
  pinchTriggered : bool;
  bassFactor : Q;
  shockwave : Q;
  mouse : Q * Q
}.

(** The values the module starts with. *)
Definition initialState : State :=
  {| targetScale := 1; currentScale := 1; targetRotation := (0, 0);
     isHandDetected := false; currentShape := "earth";
     baseColor := "#00f3ff"; time := 0; isPinching := false;
     pinchTriggered := false; bassFactor := 0; shockwave := 0;
     mouse := (-9999, -9999) |}.

Definition set_shockwave (v : Q) (s : State) : State :=
  {| targetScale := targetScale s; currentScale := currentScale s;
     targetRotation := targetRotation s; isHandDetected := isHandDetected s;
     currentShape := currentShape s; baseColor := baseColor s;
     time := time s; isPinching := isPinching s;
     pinchTriggered := pinchTriggered s; bassFactor := bassFactor s;
     shockwave := v; mouse := mouse s |}.

Definition set_bassFactor (v : Q) (s : State) : State :=
  {| targetScale := targetScale s; currentScale := currentScale s;
     targetRotation := targetRotation s; isHandDetected := isHandDetected s;
     currentShape := currentShape s; baseColor := baseColor s;
     time := time s; isPinching := isPinching s;
     pinchTriggered := pinchTriggered s; bassFactor := v;
     shockwave := shockwave s; mouse := mouse s |}.

Definition set_pinchTriggered (v : bool) (s : State) : State :=
  {| targetScale := targetScale s; currentScale := currentScale s;
     targetRotation := targetRotation s; isHandDetected := isHandDetected s;
     currentShape := currentShape s; baseColor := baseColor s;
     time := time s; isPinching := isPinching s;
     pinchTriggered := v; bassFactor := bassFactor s;
     shockwave := shockwave s; mouse := mouse s |}.

Definition set_time (v : Q) (s : State) : State :=
  {| targetScale := targetScale s; currentScale := currentScale s;
     targetRotation := targetRotation s; isHandDetected := isHandDetected s;
     currentShape := currentShape s; baseColor := baseColor s;
     time := v; isPinching := isPinching s;
     pinchTriggered := pinchTriggered s; bassFactor := bassFactor s;
     shockwave := shockwave s; mouse := mouse s |}.

Definition set_currentScale (v : Q) (s : State) : State :=
  {| targetScale := targetScale s; currentScale := v;
     targetRotation := targetRotation s; isHandDetected := isHandDetected s;
     currentShape := currentShape s; baseColor := baseColor s;
     time := time s; isPinching := isPinching s;
     pinchTriggered := pinchTriggered s; bassFactor := bassFactor s;
     shockwave := shockwave s; mouse := mouse s |}.

(** *** Shape selector ([setupUI], lines 550-564)

    The [change] listener of the shape selector.  It has no result and no
    failure path: it stores the requested name, resets the target rotation
    and recolours for the earth. *)
Definition onShapeChange (value : string) (s : State) : State :=
  {| targetScale := targetScale s; currentScale := currentScale s;
     targetRotation := (0, 0); isHandDetected := isHandDetected s;
     currentShape := value;
     baseColor := if String.eqb value "earth" then "#00aaff"%string
                  else baseColor s;
     time := time s; isPinching := isPinching s;
     pinchTriggered := pinchTriggered s; bassFactor := bassFactor s;
     shockwave := shockwave s; mouse := mouse s |}.

(** [targets[currentShape] || targets.heart] (line 792). *)
Definition targetPositions {V : Type} (targets : gmap string V) (s : State)
  : JsProp V :=
  jsOr (jsGet targets (currentShape s)) (jsGet targets "heart").

(** *** Audio modulator ([updateAudioAnalysis], lines 270-308)

    [audio] is [None] when [!isAudioActive || !analyser || !dataArray];
    otherwise it holds the byte frequency data the analyser returned.
    The mid and high sums only drive the visualiser bars. *)
Definition sumFirst (n : nat) (data : list Z) : Z :=
  foldr Z.add 0%Z (take n data).

Definition updateAudioAnalysis (audio : option (list Z)) (s : State) : State :=
  match audio with
  | None => set_bassFactor (bassFactor s * (95 # 100)) s
  | Some dataArray =>
      let bufferLength := Z.of_nat (length dataArray) in
      let lowCount := Qfloor (inject_Z bufferLength * (1 # 10)) in
      let lowSum := sumFirst (Z.to_nat lowCount) dataArray in
      let lowAvg := if (0 <? lowCount)%Z
                    then inject_Z lowSum / inject_Z lowCount else 0 in
      let targetBass := lowAvg / 255 in
      let s1 := set_bassFactor (lerp (bassFactor s) targetBass (3 # 10)) s in
      if Qltb (8 # 10) (bassFactor s1)
      then set_shockwave (Qmin (shockwave s1 + (1 # 10)) 2) s1
      else s1
  end.

(** *** Click / pinch detection (lines 817-847) *)

(** The discrete event [showHackerData(mouse.x, mouse.y)]. *)
Inductive Event : Type :=
  | TargetAcquired (x y : Q).

(** The body of [if (currentShape === 'earth' && isHandDetected)], with
    [hit] the outcome of the test [delta > 0]. *)
Definition pinchBlock (hit : bool) (s : State) : State * list Event :=
  if hit then
    if isPinching s then
      if negb (pinchTriggered s)
      then (set_shockwave (5 # 10) (set_pinchTriggered true s),
            [TargetAcquired (fst (mouse s)) (snd (mouse s))])
      else (s, [])
    else (set_pinchTriggered false s, [])
  else (set_pinchTriggered false s, []).

Definition hittable (s : State) : bool :=
  String.eqb (currentShape s) "earth" && isHandDetected s.

Definition pinchDetection (hit : bool) (s : State) : State * list Event :=
  if hittable s then pinchBlock hit s else (s, []).

(** The hand-tracking callback writes [isPinching] between frames. *)
Definition set_isPinching (v : bool) (s : State) : State :=
  {| targetScale := targetScale s; currentScale := currentScale s;
     targetRotation := targetRotation s; isHandDetected := isHandDetected s;
     currentShape := currentShape s; baseColor := baseColor s;
     time := time s; isPinching := v;
     pinchTriggered := pinchTriggered s; bassFactor := bassFactor s;
     shockwave := shockwave s; mouse := mouse s |}.

(** What a frame reads from outside the core: the audio data, and the
    outcome of the ray work (the interaction point in the plane z = 0 and
    the sphere test), which is embedded over doubles in [IEEE] below. *)
Record FrameInput : Type := mkFrameInput {
  in_audio : option (list Z);
  in_hit : bool;
  in_interact : Q * Q
}.

(** One frame of the scalar state, lines 751-753, 756-763 and 817-847:
    time advance, shockwave decay, audio update, scale blend, and the
    pinch detection.  The result carries the [effectiveScale] the
    particle loop uses: the scale before the blend plus the audio
    terms. *)

Definition effectiveScaleOf (scale0 : Q) (s : State) : Q :=
  scale0 + (bassFactor s * (5 # 10) + shockwave s * (5 # 10)).

Definition animateScalars {M : MathLib} (i : FrameInput) (s : State)
  : State * Q * list Event :=
  let s1 := set_time (time s + (1 # 100)) s in
  let s2 := set_shockwave (shockwave s1 * (95 # 100)) s1 in
  let s3 := updateAudioAnalysis (in_audio i) s2 in
  let scale0 := currentScale s3 in
  let s4 :=
    if negb (isHandDetected s3) then
      let breathe := 1 + Math_sin (time s3 * (8 # 10)) * (1 # 10) in
      set_currentScale (lerp (currentScale s3) breathe (5 # 100)) s3
    else set_currentScale (lerp (currentScale s3) (targetScale s3) (1 # 10)) s3 in
  let effectiveScale := effectiveScaleOf scale0 s4 in
  let '(s5, evs) := pinchDetection (in_hit i) s4 in
  (s5, effectiveScale, evs).


End Sim.

(** ** Typed arrays *)

(** Three consecutive slots of a typed array; [None] when one of the
    reads is out of range ([undefined], which turns every later
    comparison false). *)
Definition get3 {A : Type} (a : list A) (k : nat) : option (A * A * A) :=
  match a !! k, a !! (k + 1)%nat, a !! (k + 2)%nat with
  | Some x, Some y, Some z => Some (x, y, z)
  | _, _, _ => None
  end.

(** A read of a slot the allocation guarantees to exist. *)
Definition rd (a : list Q) (k : nat) : Q := default 0 (a !! k).

(** An [Int32Array] read at a script value: [undefined] at a negative or
    too large index, and at [undefined]. *)
Definition readInt32 (a : list Z) (k : option Z) : option Z :=
  match k with
  | Some z => if (0 <=? z)%Z then a !! Z.to_nat z else None
  | None => None
  end.

(** ** Spatial hash grid (lines 78-79, 787, 917-930) *)

Module Grid.
Import Config.

Record Arrays : Type := mkArrays {
  gridHead : list Z;
  gridNext : list Z
}.

Definition cellCoord (p : Q) : Z := Qfloor ((p + GRID_OFFSET) / CELL_SIZE).

Definition inRange (g : Z) : bool := (0 <=? g)%Z && (g <? GRID_DIM)%Z.

Definition cellIndex (gx gy gz : Z) : Z :=
  (gx + gy * GRID_DIM + gz * GRID_DIM * GRID_DIM)%Z.

(** The cell of a position, [None] when a coordinate is out of range. *)
Definition cellOf (x y z : Q) : option Z :=
  let gx := cellCoord x in
  let gy := cellCoord y in
  let gz := cellCoord z in
  if inRange gx && inRange gy && inRange gz
  then Some (cellIndex gx gy gz) else None.

(** The cell of particle [i] in a position buffer. *)
Definition particleCell (pos : list Q) (i : nat) : option Z :=
  cellOf (rd pos (i * 3)) (rd pos (i * 3 + 1)) (rd pos (i * 3 + 2)).

(** [gridHead.fill(-1)] *)
Definition clear (g : Arrays) : Arrays :=
  {| gridHead := replicate (length (gridHead g)) (-1)%Z;
     gridNext := gridNext g |}.

(** The insert of lines 919-929 for particle [i] at position [(x, y, z)].
    A store of [undefined] into an [Int32Array] stores 0. *)
Definition insert (i : nat) (x y z : Q) (g : Arrays) : Arrays :=
  match cellOf x y z with
  | Some cell =>
      {| gridHead := <[ Z.to_nat cell := Z.of_nat i ]> (gridHead g);
         gridNext := <[ i := default 0%Z (gridHead g !! Z.to_nat cell) ]>
                       (gridNext g) |}
  | None =>
      {| gridHead := gridHead g;
         gridNext := <[ i := (-1)%Z ]> (gridNext g) |}
  end.

(** The linked list that starts at entry [p]: follow [gridNext] up to the
    sentinel [-1].  [None] when the chain leaves the array or does not
    end within [fuel] entries. *)
Fixpoint chain (next : list Z) (fuel : nat) (p : Z) : option (list nat) :=
  if (p =? -1)%Z then Some []
  else match fuel with
       | O => None
       | S fuel' =>
           if (0 <=? p)%Z then
             match next !! Z.to_nat p with
             | Some q => cons (Z.to_nat p) <$> chain next fuel' q
             | None => None
             end
           else None
       end.

(** The list of cell [c]. *)
Definition cellList (g : Arrays) (c : Z) : option (list nat) :=
  match gridHead g !! Z.to_nat c with
  | Some p => chain (gridNext g) (length (gridNext g)) p
  | None => None
  end.

End Grid.

(** ** Physics integrator and collision resolver ([animate]) *)

Module Physics.
Import Config.

(** What the particle loop reads from the frame. *)
Record Env : Type := mkEnv {
  e_shape : string;
  e_effectiveScale : Q;
  e_time : Q;
  e_shockwave : Q;
  e_mouse_x : Q;
  e_interact : Q * Q;
  e_targets : list Q
}.

(** The state the particle loop writes: position and velocity buffers,
    the grid, and the number of [Math.random()] calls made so far. *)
Record Loop : Type := mkLoop {
  pos : list Q;
  vel : list Q;
  grid : Grid.Arrays;
  calls : nat
}.

(** Lines 905-911: accumulate the three contributions, then drag. *)
Definition dampedVelocity (v f r a : Q) : Q := (v + (f + r + a)) * (92 # 100).

Definition dampedVelocity3 (v f r a : Q * Q * Q) : Q * Q * Q :=
  let '(vx, vy, vz) := v in
  let '(fx, fy, fz) := f in
  let '(rx, ry, rz) := r in
  let '(ax, ay, az) := a in
  (dampedVelocity vx fx rx ax, dampedVelocity vy fy ry ay,
   dampedVelocity vz fz rz az).

Definition normSq (v : Q * Q * Q) : Q :=
  let '(x, y, z) := v in x * x + y * y + z * z.

Section WithMath.
Context {M : MathLib}.

(** Lines 879-895: the pointer force on a particle at [(px, py)]. *)
Definition mouseRepulsion (shape : string) (mouse_x : Q) (interact : Q * Q)
    (px py : Q) : Q * Q * Q :=
  let dx := px - fst interact in
  let dy := py - snd interact in
  let distSq := dx * dx + dy * dy in
  if negb (String.eqb shape "earth") && Qltb distSq 150
     && Qltb (-100) mouse_x
  then
    let dist := Math_sqrt distSq in
    let force := (12 - dist) / 12 in
    if Qltb 0 force then
      let angle := Math_atan2 dy dx in
      let strength := (12 # 10) * force in
      (Math_cos angle * strength, Math_sin angle * strength, 0)
    else (0, 0, 0)
  else (0, 0, 0).

(** Lines 857-877: the spring force on a particle at [p] toward its
    scaled target, with the scan-line jitter of the earth; [c0] random
    numbers have been drawn before, the second component is the number
    drawn afterwards. *)
Definition springForce (e : Env) (i : nat) (p : Q * Q * Q) (c0 : nat)
  : Q * Q * Q * nat :=
  let '(px, py, pz) := p in
  let i3 := (i * 3)%nat in
  let tx0 := rd (e_targets e) i3 * e_effectiveScale e in
  let ty := rd (e_targets e) (i3 + 1) * e_effectiveScale e in
  let tz0 := rd (e_targets e) (i3 + 2) * e_effectiveScale e in
  let scanH := Math_sin (e_time e * 2) * 15 * e_effectiveScale e in
  let scan := String.eqb (e_shape e) "earth" && Qltb (Qabs (py - scanH)) 1 in
  let tx := if scan then tx0 + (Math_random c0 - (1 # 2)) * (1 # 2) else tx0 in
  let tz := if scan then tz0 + (Math_random (S c0) - (1 # 2)) * (1 # 2)
            else tz0 in
  let k := 3 # 100 in
  ((tx - px) * k, (ty - py) * k, (tz - pz) * k,
   if scan then (c0 + 2)%nat else c0).

(** Lines 897-903: the audio jitter. *)
Definition audioJitter (e : Env) (c1 : nat) : Q * Q * Q * nat :=
  if Qltb (1 # 10) (e_shockwave e) then
    ((Math_random c1 - (1 # 2)) * e_shockwave e * 2,
     (Math_random (S c1) - (1 # 2)) * e_shockwave e * 2,
     (Math_random (S (S c1)) - (1 # 2)) * e_shockwave e * 2,
     (c1 + 3)%nat)
  else (0, 0, 0, c1).

(** Lines 851-930: the loop body for particle [i]. *)
Definition particleStep (e : Env) (i : nat) (st : Loop) : Loop :=
  let i3 := (i * 3)%nat in
  let px := rd (pos st) i3 in
  let py := rd (pos st) (i3 + 1) in
  let pz := rd (pos st) (i3 + 2) in
  let '(f, c1) := springForce e i (px, py, pz) (calls st) in
  let r := mouseRepulsion (e_shape e) (e_mouse_x e) (e_interact e) px py in
  let '(a, c2) := audioJitter e c1 in
  let v := (rd (vel st) i3, rd (vel st) (i3 + 1), rd (vel st) (i3 + 2)) in
  let '(vx, vy, vz) := dampedVelocity3 v f r a in
  let vel' := <[ (i3 + 2)%nat := vz ]> (<[ (i3 + 1)%nat := vy ]>
                (<[ i3 := vx ]> (vel st))) in
  let pos' :=
    <[ (i3 + 2)%nat := pz + rd vel' (i3 + 2) ]>
      (<[ (i3 + 1)%nat := py + rd vel' (i3 + 1) ]>
         (<[ i3 := px + rd vel' i3 ]> (pos st))) in
  (* physicsEnabled is never cleared: the insert always runs *)
  let grid' :=
    Grid.insert i (rd pos' i3) (rd pos' (i3 + 1)) (rd pos' (i3 + 2))
      (grid st) in
  {| pos := pos'; vel := vel'; grid := grid'; calls := c2 |}.

(** [for (let i = 0; i < n; i++)] *)
Definition forLoop {S : Type} (n : nat) (body : nat -> S -> S) (s : S) : S :=
  fold_left (fun acc i => body i acc) (seq 0 n) s.

(** Line 787 and lines 850-931, for [n] particles. *)
Definition physicsLoop (n : nat) (e : Env) (st : Loop) : Loop :=
  forLoop n (particleStep e)
    {| pos := pos st; vel := vel st; grid := Grid.clear (grid st);
       calls := calls st |}.

(** Lines 961-986: the correction of the pair (particle at slot [i3] read
    as [(px, py, pz)] when its turn began, neighbour at slot [n3]). *)
Definition minSq : Q := COLLISION_RADIUS * COLLISION_RADIUS.

Definition separate (i3 n3 : nat) (p : Q * Q * Q) (pos : list Q) : list Q :=
  let '(px, py, pz) := p in
  match get3 pos n3 with
  | Some (nx, ny, nz) =>
      let dx := px - nx in
      let dy := py - ny in
      let dz := pz - nz in
      let d2 := dx * dx + dy * dy + dz * dz in
      if Qltb 0 d2 && Qltb d2 minSq then
        let dist := Math_sqrt d2 in
        let penetration := COLLISION_RADIUS - dist in
        let nx_norm := dx / dist in
        let ny_norm := dy / dist in
        let nz_norm := dz / dist in
        let separateFactor := 5 # 10 in
        let sx := nx_norm * penetration * separateFactor in
        let sy := ny_norm * penetration * separateFactor in
        let sz := nz_norm * penetration * separateFactor in
        alter (fun v => v - sz) (n3 + 2)%nat
          (alter (fun v => v - sy) (n3 + 1)%nat
             (alter (fun v => v - sx) n3
                (alter (fun v => v + sz) (i3 + 2)%nat
                   (alter (fun v => v + sy) (i3 + 1)%nat
                      (alter (fun v => v + sx) i3 pos)))))
      else pos
  | None => pos
  end.

(** The body of [if (neighbor !== i)]. *)
Definition visit (i : nat) (p : Q * Q * Q) (neighbor : option Z)
    (pos : list Q) : list Q :=
  match neighbor with
  | Some z =>
      if (z =? Z.of_nat i)%Z then pos
      else if (0 <=? z)%Z then separate (i * 3) (Z.to_nat z * 3) p pos
      else pos
  | None => pos
  end.

(** [neighbor !== -1] *)
Definition notSentinel (neighbor : option Z) : bool :=
  match neighbor with
  | Some z => negb (z =? -1)%Z
  | None => true
  end.

(** Lines 954-990: [while (neighbor !== -1 && checks < 8)].  The result
    is the position buffer and the final value of [checks]. *)
Equations neighborWalk (i : nat) (p : Q * Q * Q) (next : list Z)
    (neighbor : option Z) (checks : nat) (pos : list Q)
    : list Q * nat by wf (8 - checks)%nat lt :=
  neighborWalk i p next neighbor checks pos
    with notSentinel neighbor, lt_dec checks 8 := {
    | true, left _ =>
        neighborWalk i p next (readInt32 next neighbor) (S checks)
          (visit i p neighbor pos);
    | _, _ => (pos, checks) }.
Next Obligation. lia. Qed.

(** Lines 938-992: the turn of particle [i]. *)
Definition resolveParticle (g : Grid.Arrays) (i : nat) (pos : list Q)
    : list Q * nat :=
  match get3 pos (i * 3) with
  | Some (px, py, pz) =>
      match Grid.cellOf px py pz with
      | Some cell =>
          neighborWalk i (px, py, pz) (Grid.gridNext g)
            (Grid.gridHead g !! Z.to_nat cell) 0 pos
      | None => (pos, O)
      end
  | None => (pos, O)
  end.

(** Lines 935-993: one collision pass over [n] particles. *)
Definition resolveCollisions (n : nat) (g : Grid.Arrays) (pos : list Q)
    : list Q :=
  forLoop n (fun i acc => fst (resolveParticle g i acc)) pos.

(** [animate], lines 748-993, for the simulation core: the scalar
    updates, then the particle loop over the active field, then the
    collision pass.  [overlay] tells whether the overlay element
    exists: [showHackerData] then draws five random numbers for each
    acquisition, before the particle loop draws its own.  [None] when
    the property read yields no field (an inherited property, or no
    heart field to fall back to): the exact model has no value for the
    reads of such a frame. *)
Definition animate (targets : gmap string (list Q)) (overlay : bool)
    (i : Sim.FrameInput) (s : Sim.State) (st : Loop)
    : option (Sim.State * Loop * list Sim.Event) :=
  let '(s', effectiveScale, events) := Sim.animateScalars i s in
  match Sim.targetPositions targets s' with
  | Own targetPositions =>
      let e := {| e_shape := Sim.currentShape s';
                  e_effectiveScale := effectiveScale;
                  e_time := Sim.time s';
                  e_shockwave := Sim.shockwave s';
                  e_mouse_x := fst (Sim.mouse s');
                  e_interact := Sim.in_interact i;
                  e_targets := targetPositions |} in
      let drawn := if overlay then (5 * length events)%nat else O in
      let st0 := {| pos := pos st; vel := vel st; grid := grid st;
                    calls := (calls st + drawn)%nat |} in
      let st1 := physicsLoop PARTICLE_COUNT e st0 in
      Some (s',
            {| pos := resolveCollisions PARTICLE_COUNT (grid st1) (pos st1);
               vel := vel st1; grid := grid st1; calls := calls st1 |},
            events)
  | _ => None
  end.

End WithMath.

End Physics.

(** ** Shape field library ([generateShapes] and its generators,
    lines 330-544)

    A generator fills a fresh [Float32Array] of [3 * n] slots, one point
    per particle index, drawing from [Math.random()].  A NaN coordinate
    (the only source is [Math.acos] outside its domain) makes the
    generator's result [None]. *)

Module Shapes.
Import Config.

Definition Qn (k : nat) : Q := inject_Z (Z.of_nat k).

(** [arr[i3] = x; arr[i3 + 1] = y; arr[i3 + 2] = z] *)
Definition put3 (i3 : nat) (p : Q * Q * Q) (arr : list Q) : list Q :=
  let '(x, y, z) := p in
  <[ (i3 + 2)%nat := z ]> (<[ (i3 + 1)%nat := y ]> (<[ i3 := x ]> arr)).

(** The point a loop body computes for index [i] when [c] random numbers
    have been drawn, with the number drawn afterwards. *)
Definition Sampler : Type := nat -> nat -> option (Q * Q * Q * nat).

(** [for (let i = lo; i < hi; i++) { ...; arr[i * 3 ...] = ... }] *)
Definition fillStep (sample : Sampler) (acc : option (list Q * nat)) (i : nat)
  : option (list Q * nat) :=
  match acc with
  | Some (arr, c) =>
      match sample i c with
      | Some (p, c') => Some (put3 (i * 3) p arr, c')
      | None => None
      end
  | None => None
  end.

Definition fillLoop (lo hi : nat) (sample : Sampler) (arr : list Q) (c : nat)
  : option (list Q * nat) :=
  fold_left (fillStep sample) (seq lo (hi - lo)) (Some (arr, c)).

(** [new Float32Array(n * 3)] *)
Definition freshArray (n : nat) : list Q := replicate (n * 3) 0.

Section WithMath.
Context {M : MathLib}.

Definition rnd (c : nat) : Q := Math_random c.

(** [generateEarth], lines 349-372.  The value [noise] is computed and
    never used. *)
Definition earthSample (n : nat) : Sampler := fun i c =>
  match Math_acos (-1 + (2 * Qn i) / Qn n) with
  | Some phi =>
      let radius := 14 in
      let theta := Math_sqrt (Qn n * Math_PI) * phi in
      let isGrid := (Z.rem (Qfloor (phi * 10)) 2 =? 0)%Z
                    || (Z.rem (Qfloor (theta * 10)) 2 =? 0)%Z in
      let r := if isGrid then radius + (2 # 10) else radius in
      Some (r * Math_cos theta * Math_sin phi,
            r * Math_sin theta * Math_sin phi,
            r * Math_cos phi, c)
  | None => None
  end.

Definition generateEarth (n : nat) (arr : list Q) (c : nat) :=
  fillLoop 0 n (earthSample n) arr c.

(** [generateHeart], lines 375-387 *)
Definition heartSample : Sampler := fun i c =>
  let t := rnd c * Math_PI * 2 in
  let s := Math_sin t in
  let x := 16 * (s * s * s) in
  let y := 13 * Math_cos t - 5 * Math_cos (2 * t) - 2 * Math_cos (3 * t)
           - Math_cos (4 * t) in
  let scale := 8 # 10 in
  let z := (rnd (S c) - (1 # 2)) * 10 * (1 - Qabs y / 25) in
  Some (x * scale, y * scale, z, (c + 2)%nat).

Definition generateHeart (n : nat) (arr : list Q) (c : nat) :=
  fillLoop 0 n heartSample arr c.

(** [generateFlower], lines 389-403 *)
Definition flowerSample : Sampler := fun i c =>
  let u := rnd c * Math_PI * 2 in
  let v := rnd (S c) * Math_PI in
  let k := 6 in
  let r := Math_cos (k * u) * 10 + 6 in
  let x := r * Math_sin v * Math_cos u in
  let y := r * Math_cos v * (8 # 10) + (rnd (S (S c)) - (1 # 2)) * 3 in
  let z := r * Math_sin v * Math_sin u in
  Some (x, y, z, (c + 3)%nat).

Definition generateFlower (n : nat) (arr : list Q) (c : nat) :=
  fillLoop 0 n flowerSample arr c.

(** [generateSaturn], lines 405-430 *)
Definition planetSample : Sampler := fun i c =>
  let r := 9 in
  let theta := rnd c * Math_PI * 2 in
  match Math_acos (2 * rnd (S c) - 1) with
  | Some phi =>
      Some (r * Math_sin phi * Math_cos theta,
            r * Math_sin phi * Math_sin theta,
            r * Math_cos phi, (c + 2)%nat)
  | None => None
  end.

Definition ringSample : Sampler := fun i c =>
  let angle := rnd c * Math_PI * 2 in
  let dist := 14 + rnd (S c) * 15 in
  let rX := Math_cos angle * dist in
  let rZ := Math_sin angle * dist in
  let rY := (rnd (S (S c)) - (1 # 2)) * (5 # 10) in
  let tilt := 4 # 10 in
  Some (rX * Math_cos tilt - rY * Math_sin tilt,
        rX * Math_sin tilt + rY * Math_cos tilt,
        rZ, (c + 3)%nat).

Definition planetParticles (n : nat) : nat :=
  Z.to_nat (Qfloor (Qn n * (4 # 10))).

Definition generateSaturn (n : nat) (arr : list Q) (c : nat) :=
  match fillLoop 0 (planetParticles n) planetSample arr c with
  | Some (arr1, c1) => fillLoop (planetParticles n) n ringSample arr1 c1
  | None => None
  end.

(** [generateBuddha], lines 432-460.  The state of the closure: the
    array, the draw count and the write cursor [idx]. *)
Definition sphereSample (cx cy cz r : Q) : Sampler := fun i c =>
  let theta := rnd c * Math_PI * 2 in
  match Math_acos (2 * rnd (S c) - 1) with
  | Some phi =>
      Some (cx + r * Math_sin phi * Math_cos theta,
            cy + r * Math_sin phi * Math_sin theta,
            cz + r * Math_cos phi, (c + 2)%nat)
  | None => None
  end.

(** One iteration of the loop of [addSphere]; once [idx >= n] the
    function has returned and nothing more happens. *)
Definition addSphereStep (n : nat) (sample : Sampler)
    (acc : option (list Q * nat * nat)) (_ : nat)
  : option (list Q * nat * nat) :=
  match acc with
  | Some (arr, c, idx) =>
      if (n <=? idx)%nat then Some (arr, c, idx)
      else match sample idx c with
           | Some (p, c') => Some (put3 (idx * 3) p arr, c', S idx)
           | None => None
           end
  | None => None
  end.

(** [for (let i = 0; i < count; i++)] runs [ceil(count)] times. *)
Definition addSphere (n : nat) (cx cy cz r : Q) (count : Q)
    (acc : option (list Q * nat * nat)) : option (list Q * nat * nat) :=
  fold_left (addSphereStep n (sphereSample cx cy cz r))
    (seq 0 (Z.to_nat (Qceiling count))) acc.

Definition haloSample : Sampler := fun i c =>
  let t := rnd c * Math_PI * 2 in
  let r := 15 + rnd (S c) * 3 in
  Some (r * Math_cos t, (rnd (S (S c)) - (1 # 2)) * 28, r * Math_sin t,
        (c + 3)%nat).

(** [while (idx < n) { ...; idx++ }] fills the slots from [idx] on. *)
Definition generateBuddha (n : nat) (arr : list Q) (c : nat) :=
  let count (w : Q) := Qn n * w in
  let s0 := Some (arr, c, O) in
  let s1 := addSphere n 0 (-6) 0 7 (count (35 # 100)) s0 in
  let s2 := addSphere n 0 2 0 (45 # 10) (count (25 # 100)) s1 in
  let s3 := addSphere n 0 (75 # 10) 0 3 (count (15 # 100)) s2 in
  let s4 := addSphere n (-45 # 10) 1 0 2 (count (5 # 100)) s3 in
  let s5 := addSphere n (45 # 10) 1 0 2 (count (5 # 100)) s4 in
  match s5 with
  | Some (arr5, c5, idx) => fillLoop idx n haloSample arr5 c5
  | None => None
  end.

(** [generateGalaxy], lines 462-477 *)
Definition galaxySample : Sampler := fun i c =>
  let arms := 5%nat in
  let t := rnd c in
  let angle := t * Math_PI * 2 * 3
               + Qn (i mod arms) * (Math_PI * 2 / Qn arms) in
  let radius := t * 20 in
  let spread := (rnd (S c) - (1 # 2)) * (5 * t) in
  Some (Math_cos angle * radius + spread,
        (rnd (S (S c)) - (1 # 2)) * (3 * (1 - t) + (5 # 10)),
        Math_sin angle * radius + spread, (c + 3)%nat).

Definition generateGalaxy (n : nat) (arr : list Q) (c : nat) :=
  fillLoop 0 n galaxySample arr c.

(** [generateDNA], lines 479-505 *)
Definition dnaSample : Sampler := fun i c =>
  let type := rnd c in
  let h := (rnd (S c) - (1 # 2)) * 45 in
  let t := h * (6 # 10) in
  let radius := 6 in
  if Qltb type (4 # 10) then
    Some (Math_cos t * radius + (rnd (c + 2) - (1 # 2)), h,
          Math_sin t * radius + (rnd (c + 3) - (1 # 2)), (c + 4)%nat)
  else if Qltb type (8 # 10) then
    Some (Math_cos (t + Math_PI) * radius + (rnd (c + 2) - (1 # 2)), h,
          Math_sin (t + Math_PI) * radius + (rnd (c + 3) - (1 # 2)),
          (c + 4)%nat)
  else
    let percent := rnd (c + 2) in
    let x1 := Math_cos t * radius in
    let z1 := Math_sin t * radius in
    let x2 := Math_cos (t + Math_PI) * radius in
    let z2 := Math_sin (t + Math_PI) * radius in
    Some (x1 + (x2 - x1) * percent, h, z1 + (z2 - z1) * percent, (c + 3)%nat).

Definition generateDNA (n : nat) (arr : list Q) (c : nat) :=
  fillLoop 0 n dnaSample arr c.

(** [generateQuantumCube], lines 507-529 *)
Definition cubeSample : Sampler := fun i c =>
  let layer := rnd c in
  let size := if Qltb layer (2 # 10) then 3
              else if Qltb layer (5 # 10) then 7 else 12 in
  let axis := Qfloor (rnd (c + 1) * 3) in
  let dir := if Qltb (5 # 10) (rnd (c + 2)) then 1 else -1 in
  let x := (rnd (c + 3) - (1 # 2)) * 2 * size in
  let y := (rnd (c + 4) - (1 # 2)) * 2 * size in
  let z := (rnd (c + 5) - (1 # 2)) * 2 * size in
  let p := if (axis =? 0)%Z then (size * dir, y, z)
           else if (axis =? 1)%Z then (x, size * dir, z)
           else (x, y, size * dir) in
  Some (p, (c + 6)%nat).

Definition generateQuantumCube (n : nat) (arr : list Q) (c : nat) :=
  fillLoop 0 n cubeSample arr c.

(** [generateMobiusStrip], lines 531-544 *)
Definition mobiusSample : Sampler := fun i c =>
  let u := rnd c * Math_PI * 2 in
  let v := (rnd (S c) - (1 # 2)) * 6 in
  let radius := 10 in
  let x := (radius + v / 2 * Math_cos (u / 2)) * Math_cos u in
  let y := (radius + v / 2 * Math_cos (u / 2)) * Math_sin u in
  let z := v / 2 * Math_sin (u / 2) in
  Some (x, y, z, (c + 2)%nat).

Definition generateMobiusStrip (n : nat) (arr : list Q) (c : nat) :=
  fillLoop 0 n mobiusSample arr c.

(** The generators in the order [generateShapes] calls them, under the
    keys it stores their results at. *)
Definition Generator : Type := nat -> list Q -> nat -> option (list Q * nat).

Definition generators : list (string * Generator) :=
  [ ("earth", generateEarth); ("heart", generateHeart);
    ("flower", generateFlower); ("saturn", generateSaturn);
    ("buddha", generateBuddha); ("galaxy", generateGalaxy);
    ("dna", generateDNA); ("cube", generateQuantumCube);
    ("mobius", generateMobiusStrip) ]%string.

(** [targets.name = generateName()] for each generator in turn, each on
    a fresh array; the draws continue from one generator to the next.
    (The loop that then scatters the initial particle positions writes
    no field.) *)
Definition generateStep (n : nat) (acc : option (gmap string (list Q) * nat))
    (g : string * Generator) : option (gmap string (list Q) * nat) :=
  match acc with
  | Some (targets, c) =>
      match snd g n (freshArray n) c with
      | Some (arr, c') => Some (<[ fst g := arr ]> targets, c')
      | None => None
      end
  | None => None
  end.

Definition generateShapes (n : nat) (c : nat)
  : option (gmap string (list Q) * nat) :=
  fold_left (generateStep n) generators (Some (∅, c)).

End WithMath.

(** The names of the pre-generated set. *)
Definition shapeNames : list string :=
  [ "earth"; "heart"; "flower"; "saturn"; "buddha"; "galaxy"; "dna";
    "cube"; "mobius" ]%string.

End Shapes.

(** ** The degenerate-geometry paths over IEEE doubles

    The ray/plane intersection, the ray/sphere test, the pointer force,
    the integration step and the pair correction of [animate], embedded
    over [spec_float] at binary64: infinities, NaN and signed zeros
    behave as in the running program.  A store into a [Float32Array]
    rounds to binary32. *)

Module IEEE.

Definition prec : Z := 53.
Definition emax : Z := 1024.

Definition fadd : spec_float -> spec_float -> spec_float := SFadd prec emax.
Definition fsub : spec_float -> spec_float -> spec_float := SFsub prec emax.
Definition fmul : spec_float -> spec_float -> spec_float := SFmul prec emax.
Definition fdiv : spec_float -> spec_float -> spec_float := SFdiv prec emax.
Definition fsqrt : spec_float -> spec_float := SFsqrt prec emax.
Definition flt : spec_float -> spec_float -> bool := SFltb.

(** An integer literal. *)
Definition ofZ (z : Z) : spec_float := binary_normalize prec emax z 0 false.

(** The literal [0]. *)
Definition fzero : spec_float := S754_zero false.

(** [Math.fround]: the value a [Float32Array] slot holds after a store. *)
Definition fround (x : spec_float) : spec_float :=
  match x with
  | S754_finite s m e =>
      match binary_round 24 128 s m e with
      | S754_finite s' m' e' => binary_round prec emax s' m' e'
      | y => y
      end
  | _ => x
  end.

(** [THREE.Vector3] *)
Record vec3 : Type := mkVec3 { vx : spec_float; vy : spec_float; vz : spec_float }.

Definition multiplyScalar (v : vec3) (s : spec_float) : vec3 :=
  {| vx := fmul (vx v) s; vy := fmul (vy v) s; vz := fmul (vz v) s |}.

Definition addV (a b : vec3) : vec3 :=
  {| vx := fadd (vx a) (vx b); vy := fadd (vy a) (vy b);
     vz := fadd (vz a) (vz b) |}.

Definition lengthSq (v : vec3) : spec_float :=
  fadd (fadd (fmul (vx v) (vx v)) (fmul (vy v) (vy v))) (fmul (vz v) (vz v)).

(** Lines 813-814.  [multiplyScalar] scales the ray's direction in
    place: the result is the interaction point and the direction the ray
    holds afterwards. *)
Definition distanceToPlane (origin direction : vec3) : spec_float :=
  fdiv (fsub fzero (vz origin)) (vz direction).

Definition interaction (origin direction : vec3) : vec3 * vec3 :=
  let direction' := multiplyScalar direction (distanceToPlane origin direction) in
  (addV origin direction', direction').

(** Lines 821-830: the test [delta > 0]. *)
Definition sphereHit (effectiveScale : spec_float) (rayOrigin rayDir : vec3)
  : bool :=
  let sphereRadius := fmul (ofZ 14) effectiveScale in
  let b := fmul (ofZ 2)
             (fadd (fadd (fmul (vx rayDir) (vx rayOrigin))
                         (fmul (vy rayDir) (vy rayOrigin)))
                   (fmul (vz rayDir) (vz rayOrigin))) in
  let c := fsub (lengthSq rayOrigin) (fmul sphereRadius sphereRadius) in
  let delta := fsub (fmul b b) (fmul (ofZ 4) c) in
  flt fzero delta.

(** The frame's ray work for a ray set from the camera: the interaction
    point and, in the hittable mode, the outcome of the sphere test on
    the ray as the intersection left it. *)
Definition rayHit (effectiveScale : spec_float) (origin direction : vec3)
  : bool :=
  sphereHit effectiveScale origin (snd (interaction origin direction)).

(** The host's trigonometry on doubles. *)
Class FloatMath : Type := {
  F_atan2 : spec_float -> spec_float -> spec_float;
  F_cos : spec_float -> spec_float;
  F_sin : spec_float -> spec_float
}.

Section WithMath.
Context {FM : FloatMath}.

(** Lines 879-895 *)
Definition mouseRepulsion (shape : string) (mouse_x : spec_float)
    (interactPoint : vec3) (px py : spec_float)
  : spec_float * spec_float * spec_float :=
  let dx := fsub px (vx interactPoint) in
  let dy := fsub py (vy interactPoint) in
  let distSq := fadd (fmul dx dx) (fmul dy dy) in
  if negb (String.eqb shape "earth") && flt distSq (ofZ 150)
     && flt (ofZ (-100)) mouse_x
  then
    let dist := fsqrt distSq in
    let force := fdiv (fsub (ofZ 12) dist) (ofZ 12) in
    if flt fzero force then
      let angle := F_atan2 dy dx in
      let strength := fmul (fdiv (ofZ 12) (ofZ 10)) force in
      (fmul (F_cos angle) strength, fmul (F_sin angle) strength, fzero)
    else (fzero, fzero, fzero)
  else (fzero, fzero, fzero).

End WithMath.

(** Lines 905-915 for one axis: the new velocity and position slots. *)
Definition integrate (v p f r a : spec_float) : spec_float * spec_float :=
  let v1 := fround (fadd v (fadd (fadd f r) a)) in
  let v2 := fround (fmul v1 (fdiv (ofZ 92) (ofZ 100))) in
  (v2, fround (fadd p v2)).

(** Lines 961-986 *)
Definition COLLISION_RADIUS : spec_float := fdiv (ofZ 15) (ofZ 100).
Definition minSq : spec_float := fmul COLLISION_RADIUS COLLISION_RADIUS.

Definition separate (i3 n3 : nat) (p : spec_float * spec_float * spec_float)
    (pos : list spec_float) : list spec_float :=
  let '(px, py, pz) := p in
  match get3 pos n3 with
  | Some (nx, ny, nz) =>
      let dx := fsub px nx in
      let dy := fsub py ny in
      let dz := fsub pz nz in
      let d2 := fadd (fadd (fmul dx dx) (fmul dy dy)) (fmul dz dz) in
      if flt fzero d2 && flt d2 minSq then
        let dist := fsqrt d2 in
        let penetration := fsub COLLISION_RADIUS dist in
        let nx_norm := fdiv dx dist in
        let ny_norm := fdiv dy dist in
        let nz_norm := fdiv dz dist in
        let separateFactor := fdiv (ofZ 1) (ofZ 2) in
        let sx := fmul (fmul nx_norm penetration) separateFactor in
        let sy := fmul (fmul ny_norm penetration) separateFactor in
        let sz := fmul (fmul nz_norm penetration) separateFactor in
        alter (fun v => fround (fsub v sz)) (n3 + 2)%nat
          (alter (fun v => fround (fsub v sy)) (n3 + 1)%nat
             (alter (fun v => fround (fsub v sx)) n3
                (alter (fun v => fround (fadd v sz)) (i3 + 2)%nat
                   (alter (fun v => fround (fadd v sy)) (i3 + 1)%nat
                      (alter (fun v => fround (fadd v sx)) i3 pos)))))
      else pos
  | None => pos
  end.

(** *** The collision pass over the stored values (lines 935-993)

    The position buffer holds the doubles its [Float32Array] slots read
    as; every operation is the double operation of the code. *)

(** The double [m * 2^e]. *)
Definition dyadic (m e : Z) : spec_float := binary_normalize prec emax m e false.

(** The exact value of a finite double. *)
Definition value (x : spec_float) : Q :=
  match x with
  | S754_finite s m e => inject_Z (if s then Z.neg m else Z.pos m) * 2 ^ e
  | _ => 0
  end.

(** [Math.floor] as an integer; no integer for NaN and the infinities,
    which fail every range test. *)
Definition floorZ (x : spec_float) : option Z :=
  match x with
  | S754_zero _ => Some 0%Z
  | S754_finite s m e =>
      let z := if s then Z.neg m else Z.pos m in
      Some (if (0 <=? e)%Z then (z * 2 ^ e)%Z else (z / 2 ^ (- e))%Z)
  | _ => None
  end.

(** [Math.floor((p + GRID_OFFSET) / CELL_SIZE)] *)
Definition cellCoord (p : spec_float) : option Z :=
  floorZ (fdiv (fadd p (ofZ 30)) (ofZ 1)).

Definition cellOf (x y z : spec_float) : option Z :=
  match cellCoord x, cellCoord y, cellCoord z with
  | Some gx, Some gy, Some gz =>
      if Grid.inRange gx && Grid.inRange gy && Grid.inRange gz
      then Some (Grid.cellIndex gx gy gz) else None
  | _, _, _ => None
  end.

(** The squared distance of line 964 and the guard of line 966. *)
Definition d2 (p q : spec_float * spec_float * spec_float) : spec_float :=
  let '(px, py, pz) := p in
  let '(nx, ny, nz) := q in
  let dx := fsub px nx in
  let dy := fsub py ny in
  let dz := fsub pz nz in
  fadd (fadd (fmul dx dx) (fmul dy dy)) (fmul dz dz).

Definition overlapping (p q : spec_float * spec_float * spec_float) : bool :=
  flt fzero (d2 p q) && flt (d2 p q) minSq.

(** The body of [if (neighbor !== i)]. *)
Definition visit (i : nat) (p : spec_float * spec_float * spec_float)
    (neighbor : option Z) (pos : list spec_float) : list spec_float :=
  match neighbor with
  | Some z =>
      if (z =? Z.of_nat i)%Z then pos
      else if (0 <=? z)%Z then separate (i * 3) (Z.to_nat z * 3) p pos
      else pos
  | None => pos
  end.

(** Lines 954-990: [while (neighbor !== -1 && checks < 8)]. *)
Equations neighborWalk (i : nat) (p : spec_float * spec_float * spec_float)
    (next : list Z) (neighbor : option Z) (checks : nat)
    (pos : list spec_float) : list spec_float * nat by wf (8 - checks)%nat lt :=
  neighborWalk i p next neighbor checks pos
    with Physics.notSentinel neighbor, lt_dec checks 8 := {
    | true, left _ =>
        neighborWalk i p next (readInt32 next neighbor) (S checks)
          (visit i p neighbor pos);
    | _, _ => (pos, checks) }.
Next Obligation. lia. Qed.

(** Lines 938-992: the turn of particle [i]. *)
Definition resolveParticle (g : Grid.Arrays) (i : nat) (pos : list spec_float)
    : list spec_float * nat :=
  match get3 pos (i * 3) with
  | Some (px, py, pz) =>
      match cellOf px py pz with
      | Some cell =>
          neighborWalk i (px, py, pz) (Grid.gridNext g)
            (Grid.gridHead g !! Z.to_nat cell) 0 pos
      | None => (pos, O)
      end
  | None => (pos, O)
  end.

(** Lines 935-993: one collision pass over [n] particles. *)
Definition resolveCollisions (n : nat) (g : Grid.Arrays)
    (pos : list spec_float) : list spec_float :=
  Physics.forLoop n (fun i acc => fst (resolveParticle g i acc)) pos.

End IEEE.

(** ** Input handlers, overlay and render-side updates

    The remaining writers of the simulation state and its render-side
    readers: the mouse listener, the hand-tracking callback, the data
    card, the starfield and the camera shake. *)

Module Host.
Import Sim.

Definition STAR_COUNT : nat := 2500.

Definition set_mouse (v : Q * Q) (s : State) : State :=
  {| targetScale := targetScale s; currentScale := currentScale s;
     targetRotation := targetRotation s; isHandDetected := isHandDetected s;
     currentShape := currentShape s; baseColor := baseColor s;
     time := time s; isPinching := isPinching s;
     pinchTriggered := pinchTriggered s; bassFactor := bassFactor s;
     shockwave := shockwave s; mouse := v |}.

Definition set_targetRotation (v : Q * Q) (s : State) : State :=
  {| targetScale := targetScale s; currentScale := currentScale s;
     targetRotation := v; isHandDetected := isHandDetected s;
     currentShape := currentShape s; baseColor := baseColor s;
     time := time s; isPinching := isPinching s;
     pinchTriggered := pinchTriggered s; bassFactor := bassFactor s;
     shockwave := shockwave s; mouse := mouse s |}.

Definition set_targetScale (v : Q) (s : State) : State :=
  {| targetScale := v; currentScale := currentScale s;
     targetRotation := targetRotation s; isHandDetected := isHandDetected s;
     currentShape := currentShape s; baseColor := baseColor s;
     time := time s; isPinching := isPinching s;
     pinchTriggered := pinchTriggered s; bassFactor := bassFactor s;
     shockwave := shockwave s; mouse := mouse s |}.

Definition set_isHandDetected (v : bool) (s : State) : State :=
  {| targetScale := targetScale s; currentScale := currentScale s;
     targetRotation := targetRotation s; isHandDetected := v;
     currentShape := currentShape s; baseColor := baseColor s;
     time := time s; isPinching := isPinching s;
     pinchTriggered := pinchTriggered s; bassFactor := bassFactor s;
     shockwave := shockwave s; mouse := mouse s |}.

(** *** [initInputListeners], lines 598-606: the [mousemove] listener *)
Definition onMouseMove (clientX clientY innerWidth innerHeight : Q)
    (s : State) : State :=
  if negb (isHandDetected s) then
    set_mouse (clientX / innerWidth * 2 - 1,
               - (clientY / innerHeight) * 2 + 1) s
  else s.

(** [THREE.MathUtils.mapLinear(x, a1, a2, b1, b2)] *)
Definition mapLinear (x a1 a2 b1 b2 : Q) : Q :=
  b1 + (x - a1) * (b2 - b1) / (a2 - a1).

(** *** [hands.onResults], lines 631-688

    [multiHandLandmarks] is the list of tracked hands (empty when the
    result has none), each a list of landmarks [(x, y)].  A read of a
    landmark the hand does not have throws: [None]. *)
Section WithMath.
Context {M : MathLib}.

Definition earthMode (hand : list (Q * Q)) (s : State) : option State :=
  match hand !! 8%nat, hand !! 4%nat with
  | Some indexTip, Some thumb =>
      let cursorX := (1 - fst indexTip) * 2 - 1 in
      let cursorY := - snd indexTip * 2 + 1 in
      let dist :=
        Math_sqrt ((fst thumb - fst indexTip) * (fst thumb - fst indexTip)
                   + (snd thumb - snd indexTip) * (snd thumb - snd indexTip)) in
      Some (set_isPinching (Qltb dist (5 # 100))
              (set_mouse (cursorX, cursorY) s))
  | _, _ => None
  end.

Definition classicMode (hand : list (Q * Q)) (s : State) : option State :=
  match hand !! 9%nat with
  | Some palm =>
      let navX := (fst palm - (1 # 2)) * 2 in
      let navY := (snd palm - (1 # 2)) * 2 in
      Some (set_mouse (-999, -999)
              (set_targetRotation (navY * (15 # 10), navX * (15 # 10)) s))
  | None => None
  end.

Definition twoHandZoom (hands : list (list (Q * Q))) (s : State)
  : option State :=
  if (length hands =? 2)%nat then
    match hands !! 0%nat, hands !! 1%nat with
    | Some hand0, Some hand1 =>
        match hand0 !! 8%nat, hand1 !! 8%nat with
        | Some h1, Some h2 =>
            let dx := fst h1 - fst h2 in
            let dy := snd h1 - snd h2 in
            let distance := Math_sqrt (dx * dx + dy * dy) in
            Some (set_targetScale
                    (mapLinear distance (1 # 10) (8 # 10) (5 # 10) 4) s)
        | _, _ => None
        end
    | _, _ => None
    end
  else Some s.

Definition onResults (multiHandLandmarks : list (list (Q * Q))) (s : State)
  : option State :=
  match multiHandLandmarks with
  | hand :: _ =>
      let s1 := set_isHandDetected true s in
      match (if String.eqb (currentShape s1) "earth"
             then earthMode hand s1 else classicMode hand s1) with
      | Some s2 => twoHandZoom multiHandLandmarks s2
      | None => None
      end
  | [] =>
      Some (set_isPinching false
              (set_targetRotation (0, 0) (set_isHandDetected false s)))
  end.

(** *** [showHackerData], lines 706-743

    The card placed on the overlay for an acquisition at normalized
    coordinates [(x, y)]: its position in pixels and the numbers drawn
    for its lines (before they are formatted).  [None] when the overlay
    element is missing. *)
Record Card : Type := mkCard {
  card_left : Q;
  card_top : Q;
  card_lat : Q;
  card_lon : Q;
  card_ip3 : Z;
  card_ip4 : Z;
  card_pop : Z
}.

Definition showHackerData (overlay : bool) (x y innerWidth innerHeight : Q)
    (c : nat) : option Card :=
  if overlay then
    let screenX := (x * (5 # 10) + (5 # 10)) * innerWidth in
    let screenY := - (y * (5 # 10) - (5 # 10)) * innerHeight in
    Some {| card_left := screenX + 20;
            card_top := screenY - 20;
            card_lat := Math_random c * 180 - 90;
            card_lon := Math_random (c + 1) * 360 - 180;
            card_ip3 := Qfloor (Math_random (c + 2) * 255);
            card_ip4 := Qfloor (Math_random (c + 3) * 255);
            card_pop := Qfloor (Math_random (c + 4) * 10000000) |}
  else None.

(** *** Starfield, lines 998-1009 *)
Definition starSpeed (bassFactor shockwave : Q) : Q :=
  (8 # 10) + bassFactor * 5 + shockwave * 8.

Definition moveStar (speed z : Q) : Q :=
  let z1 := z + speed in
  if Qltb 50 z1 then -750 else z1.

Definition updateStarfield (n : nat) (bassFactor shockwave : Q)
    (starPos : list Q) : list Q :=
  Physics.forLoop n
    (fun i arr =>
       alter (moveStar (starSpeed bassFactor shockwave)) (i * 3 + 2)%nat arr)
    starPos.

(** *** Camera shake, lines 1012-1020: the camera's x and y offsets. *)
Definition cameraShake (shockwave : Q) (c : nat) : Q * Q :=
  if Qltb (5 # 10) shockwave then
    ((Math_random c - (1 # 2)) * shockwave,
     (Math_random (S c) - (1 # 2)) * shockwave)
  else (0, 0).

End WithMath.

End Host.

(** * Properties *)

(** ** Basic facts *)

Lemma Qltb_false_iff a b : Qltb a b = false <-> b <= a.
Proof.
  unfold Qltb. rewrite negb_false_iff. apply Qle_bool_iff.
Qed.

Lemma Qltb_true_iff a b : Qltb a b = true <-> a < b.
Proof.
  unfold Qltb. rewrite negb_true_iff. split.
  - intros H. apply Qnot_le_lt. intros Hle. apply Qle_bool_iff in Hle. congruence.
  - intros H. destruct (Qle_bool b a) eqn:E; [|reflexivity].
    apply Qle_bool_iff in E. exfalso. apply (Qlt_not_le _ _ H E).
Qed.

Lemma forLoop_S {S : Type} n (body : nat -> S -> S) s :
  Physics.forLoop (Datatypes.S n) body s = body n (Physics.forLoop n body s).
Proof.
  unfold Physics.forLoop. rewrite seq_S, fold_left_app. reflexivity.
Qed.

Lemma rd_insert_ne a k j v : k <> j -> rd (<[ k := v ]> a) j = rd a j.
Proof. intros H. unfold rd. rewrite list_lookup_insert_ne by exact H. reflexivity. Qed.

Lemma rd_insert_eq a k v : (k < length a)%nat -> rd (<[ k := v ]> a) k = v.
Proof.
  intros H. unfold rd. rewrite list_lookup_insert_eq by exact H. reflexivity.
Qed.

(** The three slots of particle [i] in a buffer. *)
Definition slot3 (a : list Q) (i : nat) : Q * Q * Q :=
  (rd a (i * 3), rd a (i * 3 + 1), rd a (i * 3 + 2)).

Lemma slot3_written a i x y z :
  (i * 3 + 2 < length a)%nat ->
  slot3 (<[ (i * 3 + 2)%nat := z ]> (<[ (i * 3 + 1)%nat := y ]>
           (<[ (i * 3)%nat := x ]> a))) i = (x, y, z).
Proof.
  intros H. unfold slot3, rd.
  rewrite list_lookup_insert_eq by (rewrite !length_insert; lia).
  rewrite (list_lookup_insert_ne _ (i * 3 + 2) (i * 3 + 1)) by lia.
  rewrite list_lookup_insert_eq by (rewrite !length_insert; lia).
  rewrite (list_lookup_insert_ne _ (i * 3 + 2) (i * 3)) by lia.
  rewrite (list_lookup_insert_ne _ (i * 3 + 1) (i * 3)) by lia.
  rewrite list_lookup_insert_eq by lia. reflexivity.
Qed.

(** Componentwise equality of vectors. *)
Definition Qeq3 (a b : Q * Q * Q) : Prop :=
  fst (fst a) == fst (fst b) /\ snd (fst a) == snd (fst b) /\ snd a == snd b.

Definition zero3 : Q * Q * Q := (0, 0, 0).

(** A host for the worked examples.  Its functions are constant: right
    at the points the examples evaluate them (a 3-4-5 triangle), and in
    the range of the functions they stand for. *)
Definition exampleMath : MathLib :=
  {| Math_PI := 355 # 113;
     Math_sqrt := fun _ => 5;
     Math_sin := fun _ => 4 # 5;
     Math_cos := fun _ => 3 # 5;
     Math_atan2 := fun _ _ => 1;
     Math_acos := fun x => if Qle_bool (-1) x && Qle_bool x 1 then Some 1
                           else None;
     Math_random := fun _ => 1 # 2 |}.

(** ** Pinch latch *)

Section PinchLatch.
Import Sim.














(** A tracked hand over the earth shape, latch clear. *)
Definition trackedEarth : State :=
  {| targetScale := 1; currentScale := 1; targetRotation := (0, 0);
     isHandDetected := true; currentShape := "earth";
     baseColor := "#00aaff"; time := 0; isPinching := false;
     pinchTriggered := false; bassFactor := 0; shockwave := 0;
     mouse := (0, 0) |}.


(** Outside the hittable mode the frame neither emits nor touches the
    latch: a latch set when the hand is lost stays set. *)
Lemma pinchDetection_not_hittable hit s :
  hittable s = false -> pinchDetection hit s = (s, []).
Proof. intros H. unfold pinchDetection. rewrite H. reflexivity. Qed.

End PinchLatch.

(** ** Shape switch *)

Section ShapeSwitch.
Import Sim.

(** The claim C1 as stated fails: a request for a name outside the
    pre-generated set is not rejected, it replaces the active shape. *)
Lemma shape_switch_unknown_not_rejected :
  ~ In "pyramid"%string Shapes.shapeNames
  /\ currentShape initialState = "earth"%string
  /\ currentShape (onShapeChange "pyramid" initialState) = "pyramid"%string
  /\ onShapeChange "pyramid" initialState <> initialState.
Proof.
  split; [|split; [|split]]; try reflexivity.
  - cbv. intuition discriminate.
  - intros H. apply (f_equal currentShape) in H. discriminate H.
Qed.

(** C1, amended.  A shape switch never fails and validates nothing: for
    every requested name it stores the name as the active shape and
    resets the target rotation; for "earth" it sets the base colour to
    #00aaff, for every other name it keeps the colour; every other field
    of the state is kept.  When the table of
    fields has no property under the name, the frame takes its targets
    from the heart field. *)
Theorem shape_switch_unchecked (name : string) (s : State)
    (targets : gmap string (list Q)) :
  let s' := onShapeChange name s in
  currentShape s' = name
  /\ targetRotation s' = (0, 0)
  /\ (name = "earth"%string -> baseColor s' = "#00aaff"%string)
  /\ (name <> "earth"%string -> baseColor s' = baseColor s)
  /\ targetScale s' = targetScale s /\ currentScale s' = currentScale s
  /\ isHandDetected s' = isHandDetected s /\ time s' = time s
  /\ isPinching s' = isPinching s /\ pinchTriggered s' = pinchTriggered s
  /\ bassFactor s' = bassFactor s /\ shockwave s' = shockwave s
  /\ mouse s' = mouse s
  /\ (jsGet targets name = Undefined ->
      targetPositions targets s' = jsGet targets "heart").
Proof.
  cbn. repeat split.
  - intros ->. reflexivity.
  - intros Hne. destruct (String.eqb_spec name "earth"); congruence.
  - intros Hu. unfold targetPositions. cbn. rewrite Hu. reflexivity.
Qed.

End ShapeSwitch.

(** ** Shockwave *)

Section Shockwave.
Import Sim.

Definition frameState (r : State * Q * list Event) : State := fst (fst r).
Definition frameEvents (r : State * Q * list Event) : list Event := snd r.

(** A frame over the earth with a tracked, pinching hand, silent audio
    and a ray that hits the sphere. *)
Definition pinchingEarth : State :=
  {| targetScale := 1; currentScale := 1; targetRotation := (0, 0);
     isHandDetected := true; currentShape := "earth";
     baseColor := "#00aaff"; time := 0; isPinching := true;
     pinchTriggered := false; bassFactor := 0; shockwave := 0;
     mouse := (0, 0) |}.

(** The claim C4 as stated fails: with no audio at all (the bass path is
    never taken) an acquisition raises the shockwave from 0 to 0.5. *)
Lemma shockwave_raised_by_acquisition :
  let r := animateScalars (M := exampleMath)
             {| in_audio := None; in_hit := true; in_interact := (0, 0) |}
             pinchingEarth in
  Qle_bool (bassFactor (frameState r)) (8 # 10) = true
  /\ shockwave pinchingEarth == 0
  /\ shockwave (frameState r) == 1 # 2.
Proof. cbv. repeat split; discriminate. Qed.

Lemma shockwave_updateAudio audio s :
  let s' := updateAudioAnalysis audio s in
  (audio = None -> shockwave s' = shockwave s)
  /\ (Qltb (8 # 10) (bassFactor s') = false -> shockwave s' = shockwave s)
  /\ (audio <> None -> Qltb (8 # 10) (bassFactor s') = true ->
      shockwave s' = Qmin (shockwave s + (1 # 10)) 2).
Proof.
  destruct audio as [data|]; cbn.
  - set (b := lerp _ _ _).
    destruct (Qltb (8 # 10) b) eqn:E; cbn; rewrite ?E; repeat split; try congruence.
  - repeat split; congruence.
Qed.

Lemma pinchDetection_fields hit s :
  let r := pinchDetection hit s in
  bassFactor (fst r) = bassFactor s
  /\ (snd r = [] -> shockwave (fst r) = shockwave s)
  /\ (snd r <> [] -> shockwave (fst r) = 5 # 10).
Proof.
  unfold pinchDetection, pinchBlock.
  destruct (hittable s), hit, (isPinching s), (pinchTriggered s); cbn;
    repeat split; congruence.
Qed.

(** C4, amended.  The shockwave has two sources.  In a frame that emits
    an acquisition event it is set to 0.5.  In a frame without one it is
    the decayed value 0.95 * shockwave, raised by 0.1 and capped at 2.0
    exactly when audio is active and the smoothed bass factor exceeds
    0.8; in every other frame it only decays. *)
Theorem shockwave_sources {M : MathLib} (i : FrameInput) (s : State) :
  let r := animateScalars i s in
  (frameEvents r <> [] -> shockwave (frameState r) == 5 # 10)
  /\ (frameEvents r = [] -> in_audio i <> None ->
      Qltb (8 # 10) (bassFactor (frameState r)) = true ->
      shockwave (frameState r)
      == Qmin (shockwave s * (95 # 100) + (1 # 10)) 2)
  /\ (frameEvents r = [] ->
      in_audio i = None \/ Qltb (8 # 10) (bassFactor (frameState r)) = false ->
      shockwave (frameState r) == shockwave s * (95 # 100)).
Proof.
  unfold animateScalars, frameState, frameEvents.
  set (s2 := set_shockwave _ (set_time _ s)).
  set (s3 := updateAudioAnalysis (in_audio i) s2).
  set (s4 := if negb (isHandDetected s3) then _ else _).
  assert (H4 : bassFactor s4 = bassFactor s3 /\ shockwave s4 = shockwave s3).
  { subst s4. destruct (negb (isHandDetected s3)); split; reflexivity. }
  destruct H4 as [H4b H4s].
  pose proof (pinchDetection_fields (in_hit i) s4) as (Hb & He & Hne).
  pose proof (shockwave_updateAudio (in_audio i) s2) as (Ha & Hlow & Hhigh).
  fold s3 in Ha, Hlow, Hhigh.
  assert (H2 : shockwave s2 = shockwave s * (95 # 100)) by reflexivity.
  clearbody s2 s3 s4.
  destruct (pinchDetection (in_hit i) s4) as [s5 evs].
  cbn [fst snd] in *.
  split; [|split].
  - intros Hev. rewrite (Hne Hev). reflexivity.
  - intros Hev Haud Hbass. rewrite (He Hev), H4s.
    rewrite Hb, H4b in Hbass. rewrite (Hhigh Haud Hbass), H2. reflexivity.
  - intros Hev Hcase. rewrite (He Hev), H4s. rewrite Hb, H4b in Hcase.
    destruct Hcase as [Hn|Hl].
    + rewrite (Ha Hn), H2. reflexivity.
    + rewrite (Hlow Hl), H2. reflexivity.
Qed.

End Shockwave.

(** ** Spatial hash grid *)

Section GridLists.
Import Grid.

(** The particles below [k] that [cf] sends to cell [c], latest first. *)
Fixpoint members (cf : nat -> option Z) (c : Z) (k : nat) : list nat :=
  match k with
  | O => []
  | S k' => if decide (cf k' = Some c) then k' :: members cf c k'
            else members cf c k'
  end.

Definition headVal (l : list nat) : Z :=
  match l with
  | [] => (-1)%Z
  | j :: _ => Z.of_nat j
  end.

Lemma elem_of_members cf c k j :
  j ∈ members cf c k <-> (j < k)%nat /\ cf j = Some c.
Proof.
  induction k as [|k IH]; cbn.
  - rewrite elem_of_nil. split; [tauto|lia].
  - destruct (decide (cf k = Some c)) as [E|E].
    + rewrite elem_of_cons, IH. split.
      * intros [->|[H1 H2]]; split; auto; lia.
      * intros [H1 H2]. destruct (decide (j = k)); [left; auto|right; split; auto; lia].
    + rewrite IH. split.
      * intros [H1 H2]; split; auto.
      * intros [H1 H2]. split; auto. destruct (decide (j = k)); [subst; congruence|lia].
Qed.

Lemma NoDup_members cf c k : NoDup (members cf c k).
Proof.
  induction k as [|k IH]; cbn; [constructor|].
  destruct (decide (cf k = Some c)); [|exact IH].
  constructor; [|exact IH]. rewrite elem_of_members. lia.
Qed.

Lemma length_members cf c k : (length (members cf c k) <= k)%nat.
Proof.
  induction k as [|k IH]; cbn; [lia|].
  destruct (decide (cf k = Some c)); cbn; lia.
Qed.

Lemma members_ext cf cf' c k :
  (forall j, (j < k)%nat -> cf j = cf' j) -> members cf c k = members cf' c k.
Proof.
  induction k as [|k IH]; intros H; cbn; [reflexivity|].
  rewrite (H k) by lia. rewrite IH by (intros; apply H; lia). reflexivity.
Qed.

(** The state of the arrays after the inserts of particles [0 .. k-1]. *)
Record built (cf : nat -> option Z) (k : nat) (g : Arrays) : Prop := {
  built_head : forall c, (0 <= c)%Z -> (Z.to_nat c < length (gridHead g))%nat ->
     gridHead g !! Z.to_nat c = Some (headVal (members cf c k));
  built_next : forall j c, (j < k)%nat -> cf j = Some c ->
     gridNext g !! j = Some (headVal (members cf c j))
}.

Lemma built_ext cf cf' k g :
  (forall j, (j < k)%nat -> cf j = cf' j) -> built cf k g -> built cf' k g.
Proof.
  intros H [Hh Hn]. split.
  - intros c Hc Hlt. rewrite <- (members_ext cf cf') by assumption. auto.
  - intros j c Hj Hc. rewrite <- (members_ext cf cf') by (intros; apply H; lia).
    apply Hn; auto. rewrite H; auto.
Qed.

Lemma built_clear cf g : built cf 0 (clear g).
Proof.
  split.
  - intros c Hc Hlt. cbn in *. rewrite length_replicate in Hlt.
    apply lookup_replicate_2. exact Hlt.
  - intros j c Hj. lia.
Qed.

Lemma built_insert cf k g x y z :
  cellOf x y z = cf k ->
  (forall c, cf k = Some c -> (0 <= c)%Z /\ (Z.to_nat c < length (gridHead g))%nat) ->
  (k < length (gridNext g))%nat ->
  built cf k g -> built cf (S k) (insert k x y z g).
Proof.
  intros Hcell Hrange Hk [Hh Hn]. unfold insert. rewrite Hcell.
  destruct (cf k) as [c0|] eqn:Ecf.
  - destruct (Hrange c0 eq_refl) as [Hc0 Hlt0]. split; cbn [gridHead gridNext].
    + intros c Hc Hlt. rewrite length_insert in Hlt. cbn [members]. rewrite Ecf.
      destruct (decide (Some c0 = Some c)) as [E|E].
      * injection E as ->. rewrite list_lookup_insert_eq by assumption. reflexivity.
      * rewrite list_lookup_insert_ne by (intros E'; apply E; f_equal; lia).
        apply Hh; assumption.
    + intros j c Hj Hc. destruct (decide (j = k)) as [->|Hne].
      * rewrite list_lookup_insert_eq by assumption.
        rewrite Ecf in Hc. injection Hc as ->.
        rewrite (Hh c Hc0 Hlt0). reflexivity.
      * rewrite list_lookup_insert_ne by auto. apply Hn; auto. lia.
  - split; cbn [gridHead gridNext].
    + intros c Hc Hlt. cbn [members]. rewrite Ecf.
      destruct (decide (None = Some c)); [discriminate|]. apply Hh; assumption.
    + intros j c Hj Hc. destruct (decide (j = k)) as [->|Hne]; [congruence|].
      rewrite list_lookup_insert_ne by auto. apply Hn; auto. lia.
Qed.

Lemma chain_members cf n g c :
  built cf n g ->
  forall k fuel, (k <= n)%nat -> (length (members cf c k) <= fuel)%nat ->
    chain (gridNext g) fuel (headVal (members cf c k)) = Some (members cf c k).
Proof.
  intros [Hh Hn]. induction k as [|k IH]; intros fuel Hk Hf.
  - destruct fuel; reflexivity.
  - cbn [members] in *. destruct (decide (cf k = Some c)) as [E|E].
    + cbn [length headVal] in *. destruct fuel as [|fuel]; [lia|].
      cbn [chain]. destruct (Z.eqb_spec (Z.of_nat k) (-1)); [lia|].
      destruct (Z.leb_spec 0 (Z.of_nat k)); [|lia].
      rewrite Nat2Z.id. rewrite (Hn k c) by (auto; lia).
      rewrite IH by lia. reflexivity.
    + apply IH; lia.
Qed.

Lemma cellList_built cf n g c :
  built cf n g -> (n <= length (gridNext g))%nat ->
  (0 <= c)%Z -> (Z.to_nat c < length (gridHead g))%nat ->
  cellList g c = Some (members cf c n).
Proof.
  intros Hb Hn Hc Hlt. unfold cellList. rewrite (built_head _ _ _ Hb c Hc Hlt).
  apply (chain_members cf n g c Hb); [lia|].
  pose proof (length_members cf c n). lia.
Qed.


Lemma cellOf_range x y z c :
  cellOf x y z = Some c ->
  (0 <= c < Config.GRID_DIM * Config.GRID_DIM * Config.GRID_DIM)%Z.
Proof.
  unfold cellOf, inRange, cellIndex, Config.GRID_DIM.
  destruct (_ && _) eqn:E; [|discriminate]. intros [= <-].
  repeat (apply andb_prop in E; destruct E as [E ?]).
  lia.
Qed.

Lemma length_insert_head i x y z g :
  length (gridHead (insert i x y z g)) = length (gridHead g).
Proof. unfold insert. destruct (cellOf x y z); cbn; rewrite ?length_insert; reflexivity. Qed.

Lemma length_insert_next i x y z g :
  length (gridNext (insert i x y z g)) = length (gridNext g).
Proof. unfold insert. destruct (cellOf x y z); cbn; rewrite ?length_insert; reflexivity. Qed.

End GridLists.

Section PhysicsGrid.
Context {M : MathLib}.
Import Physics.

Lemma particleStep_grid e i st :
  let st' := particleStep e i st in
  exists x y z,
    grid st' = Grid.insert i x y z (grid st)
    /\ Grid.cellOf x y z = Grid.particleCell (pos st') i.
Proof.
  unfold particleStep. cbv zeta.
  destruct (springForce _ _ _ _) as [f c1].
  destruct (audioJitter _ _) as [a c2].
  destruct (dampedVelocity3 _ _ _ _) as [[vx vy] vz].
  cbn [grid pos]. eexists _, _, _. split; reflexivity.
Qed.

Lemma particleStep_cell_ne e i st j :
  j <> i ->
  Grid.particleCell (pos (particleStep e i st)) j = Grid.particleCell (pos st) j.
Proof.
  intros Hne. unfold particleStep. cbv zeta.
  destruct (springForce _ _ _ _) as [f c1].
  destruct (audioJitter _ _) as [a c2].
  destruct (dampedVelocity3 _ _ _ _) as [[vx vy] vz].
  cbn [pos]. unfold Grid.particleCell.
  rewrite !rd_insert_ne by lia. reflexivity.
Qed.

Definition gridCells : Z := (Config.GRID_DIM * Config.GRID_DIM * Config.GRID_DIM)%Z.

Lemma physicsLoop_built e st k :
  length (Grid.gridHead (grid st)) = Z.to_nat gridCells ->
  (k <= length (Grid.gridNext (grid st)))%nat ->
  let st' := physicsLoop k e st in
  built (Grid.particleCell (pos st')) k (grid st')
  /\ length (Grid.gridHead (grid st')) = Z.to_nat gridCells
  /\ length (Grid.gridNext (grid st')) = length (Grid.gridNext (grid st)).
Proof.
  intros Hh. unfold physicsLoop. induction k as [|k IH]; intros Hk.
  - cbn. split; [apply built_clear|]. rewrite length_replicate. auto.
  - rewrite forLoop_S. specialize (IH ltac:(lia)). cbv zeta in IH.
    set (stk := forLoop k _ _) in *. cbv zeta.
    destruct IH as (Hb & Hlh & Hln).
    destruct (particleStep_grid e k stk) as (x & y & z & Hg & Hcell).
    rewrite Hg, length_insert_head, length_insert_next.
    split; [|split; assumption].
    apply built_insert.
    + exact Hcell.
    + intros c Hc. rewrite <- Hcell in Hc. apply cellOf_range in Hc.
      rewrite Hlh. unfold gridCells. lia.
    + lia.
    + eapply built_ext; [|exact Hb].
      intros j Hj. symmetry. apply particleStep_cell_ne. lia.
Qed.

(** The grid partitions the in-domain particles of a loop state: every
    cell has a well-formed list without repetition whose entries are
    exactly the particles below [n] whose computed cell it is; a computed
    cell is a cell of the grid; a particle with an out-of-range
    coordinate is on no list. *)
Definition partitioned (n : nat) (st : Loop) : Prop :=
  (forall c, (0 <= c < gridCells)%Z ->
     exists l, Grid.cellList (grid st) c = Some l /\ NoDup l
       /\ forall i, i ∈ l
            <-> (i < n)%nat /\ Grid.particleCell (pos st) i = Some c)
  /\ (forall i c, Grid.particleCell (pos st) i = Some c ->
        (0 <= c < gridCells)%Z)
  /\ (forall i, Grid.particleCell (pos st) i = None ->
        forall c l, (0 <= c < gridCells)%Z ->
          Grid.cellList (grid st) c = Some l -> i ∉ l).

(** C2.  After the frame's grid rebuild (heads reset to -1, then one
    insert per particle at the position the integrator just wrote), the
    cell lists partition the in-domain particles: each particle whose
    three cell coordinates floor((position + GRID_OFFSET) / CELL_SIZE)
    lie in [0, GRID_DIM) is once on the list of its computed cell and on
    no other list, the lists hold nothing else, and a particle with an
    out-of-range coordinate is on no list. *)
Theorem grid_rebuild_partition (e : Env) (n : nat) (st : Loop) :
  length (Grid.gridHead (grid st)) = Z.to_nat gridCells ->
  (n <= length (Grid.gridNext (grid st)))%nat ->
  partitioned n (physicsLoop n e st).
Proof.
  intros Hh Hn.
  destruct (physicsLoop_built e st n Hh Hn) as (Hb & Hlh & Hln).
  set (st' := physicsLoop n e st) in *.
  assert (Hlist : forall c, (0 <= c < gridCells)%Z ->
            Grid.cellList (grid st') c
            = Some (members (Grid.particleCell (pos st')) c n)).
  { intros c Hc. apply cellList_built; auto; lia. }
  split; [|split].
  - intros c Hc. eexists. split; [apply Hlist, Hc|].
    split; [apply NoDup_members|]. intros i. apply elem_of_members.
  - intros i c Hc. apply cellOf_range in Hc. exact Hc.
  - intros i Hnone c l Hc Hl. rewrite (Hlist c Hc) in Hl. injection Hl as <-.
    rewrite elem_of_members. intros [_ H]. congruence.
Qed.

End PhysicsGrid.

(** ** Neighbour walk and collision pass *)

Section Collision.
Context {M : MathLib}.
Import Physics.

Lemma neighborWalk_unfold i p next neighbor checks pos :
  neighborWalk i p next neighbor checks pos
  = if notSentinel neighbor && (checks <? 8)%nat
    then neighborWalk i p next (readInt32 next neighbor) (S checks)
           (visit i p neighbor pos)
    else (pos, checks).
Proof.
  funelim (neighborWalk i p next neighbor checks pos).
  - rewrite Heq0. destruct (Nat.ltb_spec checks 8); [reflexivity|lia].
  - rewrite Heq0. destruct (Nat.ltb_spec checks 8); [lia|reflexivity].
  - rewrite Heq. reflexivity.
Qed.

Lemma neighborWalk_checks i p next neighbor checks pos :
  (checks <= 8)%nat ->
  (checks <= snd (neighborWalk i p next neighbor checks pos) <= 8)%nat.
Proof.
  funelim (neighborWalk i p next neighbor checks pos); intros Hc;
    cbn [snd]; lia.
Qed.

(** Squared distance of two points, as the pair test computes it. *)
Definition distSq (p q : Q * Q * Q) : Q :=
  let '(px, py, pz) := p in
  let '(nx, ny, nz) := q in
  (px - nx) * (px - nx) + (py - ny) * (py - ny) + (pz - nz) * (pz - nz).

Lemma separate_far i3 n3 p pos :
  (forall q, get3 pos n3 = Some q -> minSq <= distSq p q) ->
  separate i3 n3 p pos = pos.
Proof.
  intros H. unfold separate. destruct p as [[px py] pz].
  destruct (get3 pos n3) as [[[nx ny] nz]|]; [|reflexivity].
  specialize (H _ eq_refl). cbn [distSq] in H.
  apply Qltb_false_iff in H. rewrite H, andb_false_r. reflexivity.
Qed.

Definition separated (pos : list Q) : Prop :=
  forall i j p q, i <> j -> get3 pos (i * 3) = Some p ->
    get3 pos (j * 3) = Some q -> minSq <= distSq p q.

Lemma visit_far i p neighbor pos :
  separated pos -> get3 pos (i * 3) = Some p ->
  visit i p neighbor pos = pos.
Proof.
  intros Hsep Hp. unfold visit. destruct neighbor as [z|]; [|reflexivity].
  destruct (Z.eqb_spec z (Z.of_nat i)); [reflexivity|].
  destruct (Z.leb_spec 0 z); [|reflexivity].
  apply separate_far. intros q Hq. apply (Hsep i (Z.to_nat z)); auto. lia.
Qed.

Lemma neighborWalk_far i p next neighbor checks pos :
  separated pos -> get3 pos (i * 3) = Some p ->
  fst (neighborWalk i p next neighbor checks pos) = pos.
Proof.
  intros Hsep Hp.
  funelim (neighborWalk i p next neighbor checks pos); cbn [fst]; auto.
  rewrite (visit_far _ _ _ _ Hsep Hp) in *. auto.
Qed.

Lemma resolveParticle_far g i pos :
  separated pos -> fst (resolveParticle g i pos) = pos.
Proof.
  intros Hsep. unfold resolveParticle.
  destruct (get3 pos (i * 3)) as [[[px py] pz]|] eqn:Hp; [|reflexivity].
  destruct (Grid.cellOf px py pz); [|reflexivity].
  apply neighborWalk_far; assumption.
Qed.

Lemma forLoop_fixed {S : Type} n (body : nat -> S -> S) s :
  (forall i, (i < n)%nat -> body i s = s) -> forLoop n body s = s.
Proof.
  unfold forLoop. intros H.
  assert (G : forall l, Forall (fun i => (i < n)%nat) l ->
              fold_left (fun acc i => body i acc) l s = s).
  { induction l as [|x l IH]; intros Hl; [reflexivity|].
    inversion Hl; subst. cbn. rewrite H by assumption. apply IH. assumption. }
  apply G. apply Forall_forall. intros x Hx. apply elem_of_seq in Hx. lia.
Qed.

(** In exact arithmetic: if every two distinct particles of the
    position buffer are at squared distance at least COLLISION_RADIUS^2,
    one collision pass over any grid returns the buffer as it was.  (On
    the stored values the guard is the computed squared distance, see
    the collision pass on the stored values below.) *)
Theorem no_overlap_pass_identity (n : nat) (g : Grid.Arrays) (pos : list Q) :
  separated pos -> resolveCollisions n g pos = pos.
Proof.
  intros Hsep. unfold resolveCollisions. apply forLoop_fixed.
  intros i _. apply resolveParticle_far, Hsep.
Qed.

(** C6.  For every grid state, every particle and every position buffer
    the neighbour walk of a turn ends with at most 8 entries visited
    (the walk is a total function: it ends on every chain, cyclic or
    overlong ones included). *)
Theorem neighbor_walk_bounded (g : Grid.Arrays) (i : nat) (pos : list Q) :
  (snd (resolveParticle g i pos) <= 8)%nat
  /\ (forall p next neighbor pos',
        (snd (neighborWalk i p next neighbor 0 pos') <= 8)%nat).
Proof.
  assert (H : forall p next neighbor pos',
            (snd (neighborWalk i p next neighbor 0 pos') <= 8)%nat).
  { intros. apply neighborWalk_checks. lia. }
  split; [|exact H].
  unfold resolveParticle.
  destruct (get3 pos (i * 3)) as [[[px py] pz]|]; cbn [snd]; [|lia].
  destruct (Grid.cellOf px py pz); cbn [snd]; [apply H|lia].
Qed.

(** A grid with [k] particles inserted at the corner (-30, -30, -30) of
    the domain: cell 0 holds them all. *)
Definition crowd (k : nat) : Grid.Arrays :=
  forLoop k (fun i g => Grid.insert i (-30) (-30) (-30) g)
    (Grid.clear {| Grid.gridHead := replicate (Z.to_nat gridCells) 0%Z;
                   Grid.gridNext := replicate k 0%Z |}).

(** With 1000 particles in one cell every turn visits exactly 8. *)
Example crowded_cell_visits :
  let g := crowd 1000 in
  let pos := replicate 3000 (-30) in
  Grid.cellList g 0 = Some (rev (seq 0 1000))
  /\ forallb (fun i => (snd (resolveParticle g i pos) =? 8)%nat) (seq 0 1000)
     = true.
Proof. vm_compute. split; reflexivity. Qed.

End Collision.

(** ** Pointer force and drag *)

Section PointerForce.
Context {M : MathLib}.
Import Physics.

Lemma mouseRepulsion_z shape mouse_x interact px py :
  snd (mouseRepulsion shape mouse_x interact px py) = 0.
Proof.
  unfold mouseRepulsion.
  destruct (_ && _); [|reflexivity]. destruct (Qltb 0 _); reflexivity.
Qed.

Lemma mouseRepulsion_gated shape mouse_x interact px py :
  shape = "earth"%string \/ mouse_x <= -100 ->
  mouseRepulsion shape mouse_x interact px py = (0, 0, 0).
Proof.
  intros H. unfold mouseRepulsion.
  destruct H as [->|H].
  - reflexivity.
  - apply Qltb_false_iff in H. rewrite H, andb_false_r. reflexivity.
Qed.

(** C5.  The pointer force on a particle has z-component exactly zero;
    it is zero for the earth shape and for an inactive pointer
    (mouse.x at or below -100, where both sentinels lie), so a force is
    applied only when the shape is not the earth, the pointer is active
    and the planar squared distance is below 150.  For every such
    particle, with [rt] the planar distance the square root returns and
    [angle] what [atan2] returns for the offset from the interaction
    point, the force is s0 = 1.2 * max(0, (12 - rt) / 12) times the
    vector (cos angle, sin angle): its squared magnitude is s0^2 times
    cos^2 + sin^2, and where that vector is a non-negative multiple of
    the offset the force is one too, so it points away from the
    interaction point.  Where the host's values are exact ([d] the
    distance, cos and sin the offset over [d]) the magnitude is
    1.2 * max(0, (12 - d) / 12) and the force is that times the offset
    over [d]. *)
Theorem pointer_force_planar (shape : string) (mouse_x : Q) (interact : Q * Q)
    (px py d : Q) :
  let r := mouseRepulsion shape mouse_x interact px py in
  let dx := px - fst interact in
  let dy := py - snd interact in
  let distSq := dx * dx + dy * dy in
  let angle := Math_atan2 dy dx in
  let s0 := (12 # 10) * Qmax 0 ((12 - Math_sqrt distSq) / 12) in
  let s := (12 # 10) * Qmax 0 ((12 - d) / 12) in
  snd r = 0
  /\ (shape = "earth"%string \/ mouse_x <= -100 -> r = (0, 0, 0))
  /\ (r <> (0, 0, 0) ->
      shape <> "earth"%string /\ -100 < mouse_x /\ distSq < 150)
  /\ (shape <> "earth"%string -> -100 < mouse_x -> distSq < 150 ->
      Qeq3 r (Math_cos angle * s0, Math_sin angle * s0, 0)
      /\ fst (fst r) * fst (fst r) + snd (fst r) * snd (fst r)
         == s0 * s0 * (Math_cos angle * Math_cos angle
                       + Math_sin angle * Math_sin angle)
      /\ (forall k, 0 <= k ->
            Math_cos angle == k * dx -> Math_sin angle == k * dy ->
            0 <= s0 * k
            /\ fst (fst r) == s0 * k * dx /\ snd (fst r) == s0 * k * dy))
  /\ (shape <> "earth"%string -> -100 < mouse_x -> distSq < 150 ->
      Math_sqrt distSq == d -> 0 <= d -> d * d == distSq ->
      Math_cos angle * d == dx -> Math_sin angle * d == dy ->
      Math_cos angle * Math_cos angle + Math_sin angle * Math_sin angle == 1 ->
      fst (fst r) * fst (fst r) + snd (fst r) * snd (fst r) == s * s
      /\ fst (fst r) * d == s * dx
      /\ snd (fst r) * d == s * dy).
Proof.
  cbv zeta. split; [apply mouseRepulsion_z|].
  split; [apply mouseRepulsion_gated|]. split; [|split].
  - intros Hr. split; [|split].
    + intros ->. apply Hr. apply mouseRepulsion_gated. left; reflexivity.
    + apply Qnot_le_lt. intros Hle. apply Hr. apply mouseRepulsion_gated.
      right; exact Hle.
    + apply Qnot_le_lt. intros Hle. apply Hr. unfold mouseRepulsion.
      apply Qltb_false_iff in Hle. rewrite Hle, andb_false_r. reflexivity.
  - intros Hshape Hmouse Hdist.
    assert (Hs0 : 0 <= Qmax 0 ((12 - Math_sqrt
                    ((px - fst interact) * (px - fst interact)
                     + (py - snd interact) * (py - snd interact))) / 12))
      by apply Q.le_max_l.
    assert (E : Qeq3 (mouseRepulsion shape mouse_x interact px py)
                  (Math_cos (Math_atan2 (py - snd interact) (px - fst interact))
                   * ((12 # 10) * Qmax 0 ((12 - Math_sqrt
                        ((px - fst interact) * (px - fst interact)
                         + (py - snd interact) * (py - snd interact))) / 12)),
                   Math_sin (Math_atan2 (py - snd interact) (px - fst interact))
                   * ((12 # 10) * Qmax 0 ((12 - Math_sqrt
                        ((px - fst interact) * (px - fst interact)
                         + (py - snd interact) * (py - snd interact))) / 12)),
                   0)).
    { unfold mouseRepulsion.
      destruct (String.eqb_spec shape "earth"); [contradiction|].
      apply Qltb_true_iff in Hmouse, Hdist. rewrite Hmouse, Hdist.
      cbn [negb andb].
      set (c := Math_cos _). set (sn := Math_sin _). set (rt := Math_sqrt _).
      destruct (Qltb 0 ((12 - rt) / 12)) eqn:Ef; unfold Qeq3; cbn [fst snd].
      - apply Qltb_true_iff in Ef.
        assert (Hm : Qmax 0 ((12 - rt) / 12) == (12 - rt) / 12)
          by (apply Q.max_r; lra).
        rewrite Hm. repeat split; reflexivity.
      - apply Qltb_false_iff in Ef.
        assert (Hm : Qmax 0 ((12 - rt) / 12) == 0) by (apply Q.max_l; exact Ef).
        rewrite Hm. repeat split; ring. }
    revert E Hs0.
    set (r := mouseRepulsion _ _ _ _ _). set (c := Math_cos _).
    set (sn := Math_sin _). set (m := Qmax _ _).
    unfold Qeq3. cbn [fst snd]. intros (Ex & Ey & Ez) Hs0.
    split; [auto|]. split.
    + rewrite Ex, Ey. ring.
    + intros k Hk Hc Hs. rewrite Ex, Ey, Hc, Hs. repeat split; try ring.
      apply Qmult_le_0_compat; [|exact Hk].
      apply Qmult_le_0_compat; [discriminate|exact Hs0].
  - intros Hshape Hmouse Hdist Hd Hd0 Hdd Hc Hs Hu.
    unfold mouseRepulsion.
    destruct (String.eqb_spec shape "earth"); [contradiction|].
    apply Qltb_true_iff in Hmouse, Hdist. rewrite Hmouse, Hdist. cbn [negb andb].
    set (c := Math_cos _) in *. set (sn := Math_sin _) in *.
    set (rt := Math_sqrt _) in *.
    destruct (Qltb 0 ((12 - rt) / 12)) eqn:Ef; cbn [fst snd].
    + apply Qltb_true_iff in Ef.
      assert (Hm : Qmax 0 ((12 - d) / 12) == (12 - rt) / 12).
      { rewrite <- Hd. apply Q.max_r. lra. }
      rewrite Hm. repeat split; nra.
    + apply Qltb_false_iff in Ef.
      assert (Hm : Qmax 0 ((12 - d) / 12) == 0).
      { apply Q.max_l. rewrite <- Hd. exact Ef. }
      rewrite Hm. repeat split; lra.
Qed.

End PointerForce.

(** A host that is right up to three decimals on the diagonal: square
    root 1.414 (of 2), cosine and sine 0.707 (of a quarter turn's half). *)
Definition diagonalMath : MathLib :=
  {| Math_PI := 355 # 113;
     Math_sqrt := fun _ => 1414 # 1000;
     Math_sin := fun _ => 707 # 1000;
     Math_cos := fun _ => 707 # 1000;
     Math_atan2 := fun _ _ => 785 # 1000;
     Math_acos := fun _ => Some 0;
     Math_random := fun _ => 1 # 2 |}.

(** The 3-4-5 triangle: a particle at (3, 4), the interaction point at the
    origin, distance 5, force 0.7 * (3/5, 4/5); and a particle at (1, 1),
    at the irrational distance sqrt 2, whose force is a positive multiple
    of its offset. *)
Lemma pointer_force_planar_witness :
  (let r := Physics.mouseRepulsion (M := exampleMath) "heart" 0 (0, 0) 3 4 in
   r = ((3 # 5) * ((12 # 10) * ((12 - 5) / 12)),
        (4 # 5) * ((12 # 10) * ((12 - 5) / 12)), 0)
   /\ fst (fst r) * fst (fst r) + snd (fst r) * snd (fst r)
      == ((12 # 10) * Qmax 0 ((12 - 5) / 12)) * ((12 # 10) * Qmax 0 ((12 - 5) / 12))
   /\ fst (fst r) * 5 == ((12 # 10) * Qmax 0 ((12 - 5) / 12)) * (3 - 0)
   /\ snd (fst r) * 5 == ((12 # 10) * Qmax 0 ((12 - 5) / 12)) * (4 - 0))
  /\ (let r := Physics.mouseRepulsion (M := diagonalMath) "heart" 0 (0, 0) 1 1 in
      let s0 := (12 # 10) * Qmax 0 ((12 - (1414 # 1000)) / 12) in
      0 <= s0 * (707 # 1000)
      /\ fst (fst r) == s0 * (707 # 1000) * (1 - 0)
      /\ snd (fst r) == s0 * (707 # 1000) * (1 - 0)).
Proof.
  split.
  - split; [reflexivity|].
    destruct (pointer_force_planar (M := exampleMath) "heart" 0 (0, 0) 3 4 5)
      as (_ & _ & _ & _ & H).
    apply H; try reflexivity; discriminate.
  - destruct (pointer_force_planar (M := diagonalMath) "heart" 0 (0, 0) 1 1 0)
      as (_ & _ & _ & H & _).
    destruct H as (_ & _ & H); try reflexivity; try discriminate.
    apply (H (707 # 1000)); try reflexivity; discriminate.
Defined.



(** ** Drag on the stored velocities *)

Section Stall.
Import IEEE.

(** The velocity a [Float32Array] slot holds after a frame in which the
    three contributions are zero. *)
Definition coastStored (v : spec_float) : spec_float :=
  fst (integrate v fzero fzero fzero fzero).

(** [m] times 2^-149, the spacing of the smallest single-precision
    numbers. *)
Definition quantum (m : Z) : spec_float := dyadic m (-149).

Definition feqb (x y : spec_float) : bool :=
  match x, y with
  | S754_zero a, S754_zero b => Bool.eqb a b
  | S754_infinity a, S754_infinity b => Bool.eqb a b
  | S754_nan, S754_nan => true
  | S754_finite a m e, S754_finite b m' e' =>
      Bool.eqb a b && (m =? m')%positive && (e =? e')%Z
  | _, _ => false
  end.

Lemma feqb_eq x y : feqb x y = true -> x = y.
Proof.
  destruct x as [a|a| |a m e], y as [b|b| |b m' e']; cbn; try discriminate;
    try reflexivity.
  - intros H. apply eqb_prop in H. congruence.
  - intros H. apply eqb_prop in H. congruence.
  - intros H. apply andb_prop in H as [H He]. apply andb_prop in H as [Hs Hm].
    apply eqb_prop in Hs. apply Pos.eqb_eq in Hm. apply Z.eqb_eq in He.
    congruence.
Qed.

(** What a frame does to a stored velocity of [m] quanta, of either
    sign: up to 6 quanta it is stored back unchanged, above it moves
    strictly towards zero without reaching or crossing it. *)
Definition stallCheck (m : Z) : bool :=
  let v := quantum m in
  let w := quantum (- m) in
  if (m <=? 6)%Z
  then feqb (coastStored v) v && feqb (coastStored w) w
  else flt (coastStored v) v && flt fzero (coastStored v)
       && flt w (coastStored w) && flt (coastStored w) fzero.

Lemma stallCheck_range :
  forallb stallCheck (map Z.of_nat (seq 1 4096)) = true.
Proof. vm_compute. reflexivity. Qed.

Lemma stallCheck_all m : (1 <= m <= 4096)%Z -> stallCheck m = true.
Proof.
  intros Hm. pose proof stallCheck_range as H.
  rewrite forallb_forall in H. apply H.
  apply in_map_iff. exists (Z.to_nat m). split; [lia|].
  apply in_seq. lia.
Qed.

Lemma integrate_velocity v p f r a :
  fst (integrate v p f r a) = fst (integrate v fzero f r a).
Proof. reflexivity. Qed.

Lemma stall_small (m : Z) (p : spec_float) :
  (1 <= m <= 4096)%Z ->
  (m <= 6)%Z ->
    fst (integrate (quantum m) p fzero fzero fzero) = quantum m
    /\ fst (integrate (quantum (- m)) p fzero fzero fzero) = quantum (- m).
Proof.
  intros Hm H6. pose proof (stallCheck_all m Hm) as H. unfold stallCheck in H.
  cbv zeta in H. destruct (Z.leb_spec m 6); [|lia].
  apply andb_prop in H as [H1 H2]. apply feqb_eq in H1, H2.
  rewrite !(integrate_velocity _ p). auto.
Qed.

Lemma shrink_large (m : Z) (p : spec_float) :
  (1 <= m <= 4096)%Z ->
  (6 < m)%Z ->
    let v' := fst (integrate (quantum m) p fzero fzero fzero) in
    let w' := fst (integrate (quantum (- m)) p fzero fzero fzero) in
    flt v' (quantum m) = true /\ flt fzero v' = true
    /\ flt (quantum (- m)) w' = true /\ flt w' fzero = true.
Proof.
  intros Hm H6. pose proof (stallCheck_all m Hm) as H. unfold stallCheck in H.
  cbv zeta in H. destruct (Z.leb_spec m 6); [lia|].
  repeat (apply andb_prop in H as [H ?]).
  cbv zeta. rewrite !(integrate_velocity _ p). auto.
Qed.

(** The claim C8 as stated fails on the stored values: a velocity of
    2^-149 on one axis, with zero contributions, has the same magnitude
    after the frame. *)
Lemma drag_stalls_at_subnormal :
  let v := S754_finite false 4503599627370496 (-201) in
  value v == 1 / 2 ^ 149
  /\ fround v = v
  /\ fadd v (fadd (fadd fzero fzero) fzero) = v
  /\ fst (integrate v fzero fzero fzero fzero) = v.
Proof. cbv zeta. split; [|split; [|split]]; vm_compute; reflexivity. Qed.

Lemma coast_run_300 :
  flt (Nat.iter 300 coastStored (ofZ 10)) (fdiv (ofZ 1) (ofZ 1000000)) = true.
Proof. vm_compute. reflexivity. Qed.

Lemma coast_run_stalls :
  Nat.iter 1243 coastStored (ofZ 10) = quantum 6
  /\ coastStored (quantum 6) = quantum 6.
Proof. split; vm_compute; reflexivity. Qed.

End Stall.

Section Damping.
Context {M : MathLib}.
Import Physics.

(** One frame of a particle's velocity under no force at all. *)
Definition coast (v : Q * Q * Q) : Q * Q * Q :=
  dampedVelocity3 v zero3 zero3 zero3.

Fixpoint qpow (q : Q) (n : nat) : Q :=
  match n with
  | O => 1
  | S n' => q * qpow q n'
  end.

Lemma dampedVelocity3_zero v f r a :
  Qeq3 f zero3 -> Qeq3 r zero3 -> Qeq3 a zero3 ->
  Qeq3 (dampedVelocity3 v f r a)
       (fst (fst v) * (92 # 100), snd (fst v) * (92 # 100), snd v * (92 # 100)).
Proof.
  destruct v as [[vx vy] vz], f as [[fx fy] fz], r as [[rx ry] rz],
    a as [[ax ay] az].
  unfold Qeq3, dampedVelocity3, dampedVelocity, zero3. cbn [fst snd].
  intros (?&?&?) (?&?&?) (?&?&?). repeat split; lra.
Qed.

Lemma normSq_coast v : normSq (coast v) == (8464 # 10000) * normSq v.
Proof.
  destruct v as [[vx vy] vz]. unfold coast, dampedVelocity3, dampedVelocity, zero3, normSq.
  ring.
Qed.

Lemma normSq_nonneg v : 0 <= normSq v.
Proof. destruct v as [[vx vy] vz]. unfold normSq. nra. Qed.

Lemma normSq_iter n v :
  normSq (Nat.iter n coast v) == qpow (8464 # 10000) n * normSq v.
Proof.
  induction n as [|n IH]; cbn [Nat.iter nat_rect qpow].
  - ring.
  - change (nat_rect _ v (fun _ => coast) n) with (Nat.iter n coast v).
    rewrite normSq_coast, IH. ring.
Qed.

(** The three contributions the loop body adds to the velocity of
    particle [i]: spring, pointer, audio. *)
Definition contributions (e : Env) (i : nat) (st : Loop)
  : (Q * Q * Q) * (Q * Q * Q) * (Q * Q * Q) :=
  let p := slot3 (pos st) i in
  let '(f, c1) := springForce e i p (calls st) in
  let r := mouseRepulsion (e_shape e) (e_mouse_x e) (e_interact e)
             (fst (fst p)) (snd (fst p)) in
  (f, r, fst (audioJitter e c1)).

Definition scaled (k : Q) (v : Q * Q * Q) : Q * Q * Q :=
  (fst (fst v) * k, snd (fst v) * k, snd v * k).

Lemma particleStep_velocity e i st :
  (i * 3 + 2 < length (vel st))%nat ->
  let '(f, r, a) := contributions e i st in
  slot3 (vel (particleStep e i st)) i = dampedVelocity3 (slot3 (vel st) i) f r a.
Proof.
  intros Hlen. unfold contributions, particleStep. cbv zeta.
  change (rd (pos st) (i * 3), rd (pos st) (i * 3 + 1), rd (pos st) (i * 3 + 2))
    with (slot3 (pos st) i).
  change (rd (vel st) (i * 3), rd (vel st) (i * 3 + 1), rd (vel st) (i * 3 + 2))
    with (slot3 (vel st) i).
  cbn [slot3 fst snd].
  destruct (springForce _ _ _ _) as [f c1].
  destruct (audioJitter _ _) as [a c2]. cbn [fst].
  destruct (dampedVelocity3 _ _ _ _) as [[vx vy] vz] eqn:E.
  cbn [vel]. apply slot3_written. exact Hlen.
Qed.

(** C8, amended.  When the spring, pointer and audio contributions of
    a frame are zero, the loop body multiplies the particle's velocity
    componentwise by 0.92 and stores the result in single precision.
    In exact arithmetic the squared magnitude of a nonzero velocity
    strictly decreases every frame, and from magnitude 10 (squared
    magnitude 100) it is below 1e-6 (squared: 1e-12) after 300 frames.
    In the stored values the decrease is not strict: a component of [m]
    quanta of 2^-149, of either sign, is stored back unchanged for
    m <= 6 and moves strictly towards zero, without reaching it, for
    6 < m <= 4096; a velocity of 10 on one axis is below 1e-6 after 300
    frames, is 6 quanta after 1243 frames and stays there. *)
Theorem drag_convergence (e : Env) (i : nat) (st : Loop) (v : Q * Q * Q)
    (m : Z) (p : spec_float) :
  ((i * 3 + 2 < length (vel st))%nat ->
   Qeq3 (fst (fst (contributions e i st))) zero3 ->
   Qeq3 (snd (fst (contributions e i st))) zero3 ->
   Qeq3 (snd (contributions e i st)) zero3 ->
   Qeq3 (slot3 (vel (particleStep e i st)) i)
        (scaled (92 # 100) (slot3 (vel st) i)))
  /\ Qeq3 (coast v) (scaled (92 # 100) v)
  /\ (0 < normSq v -> normSq (coast v) < normSq v)
  /\ (normSq v == 100 ->
      normSq (Nat.iter 300 coast v) < (1 # 1000000) * (1 # 1000000))
  /\ ((1 <= m <= 6)%Z ->
      fst (IEEE.integrate (quantum m) p IEEE.fzero IEEE.fzero IEEE.fzero)
      = quantum m
      /\ fst (IEEE.integrate (quantum (- m)) p IEEE.fzero IEEE.fzero IEEE.fzero)
         = quantum (- m))
  /\ ((6 < m <= 4096)%Z ->
      let v' := fst (IEEE.integrate (quantum m) p IEEE.fzero IEEE.fzero
                       IEEE.fzero) in
      let w' := fst (IEEE.integrate (quantum (- m)) p IEEE.fzero IEEE.fzero
                       IEEE.fzero) in
      IEEE.flt v' (quantum m) = true /\ IEEE.flt IEEE.fzero v' = true
      /\ IEEE.flt (quantum (- m)) w' = true /\ IEEE.flt w' IEEE.fzero = true)
  /\ IEEE.flt (Nat.iter 300 coastStored (IEEE.ofZ 10))
       (IEEE.fdiv (IEEE.ofZ 1) (IEEE.ofZ 1000000)) = true
  /\ Nat.iter 1243 coastStored (IEEE.ofZ 10) = quantum 6
  /\ coastStored (quantum 6) = quantum 6.
Proof.
  split; [|split; [|split; [|split; [|split; [|split]]]]].
  - intros Hlen Hf Hr Ha.
    pose proof (particleStep_velocity e i st Hlen) as Hv.
    destruct (contributions e i st) as [[f r] a]. cbn [fst snd] in *.
    rewrite Hv. apply dampedVelocity3_zero; assumption.
  - apply dampedVelocity3_zero; repeat split; reflexivity.
  - intros H. rewrite normSq_coast. lra.
  - intros H. rewrite normSq_iter, H. vm_compute. reflexivity.
  - intros Hm. apply stall_small; lia.
  - intros Hm. apply shrink_large; lia.
  - split; [exact coast_run_300|exact coast_run_stalls].
Qed.

(** A particle resting on its target with velocity (10, 0, 0), no
    pointer, no shockwave. *)
Definition restingEnv : Env :=
  {| e_shape := "heart"; e_effectiveScale := 1; e_time := 0;
     e_shockwave := 0; e_mouse_x := -9999; e_interact := (0, 0);
     e_targets := [1; 2; 3] |}.

Definition restingLoop : Loop :=
  {| pos := [1; 2; 3]; vel := [10; 0; 0];
     grid := {| Grid.gridHead := []; Grid.gridNext := [] |}; calls := O |}.

End Damping.

Lemma drag_convergence_witness :
  Qeq3 (slot3 (Physics.vel (Physics.particleStep (M := exampleMath)
                              restingEnv 0 restingLoop)) 0)
       (scaled (92 # 100) (10, 0, 0))
  /\ Physics.normSq (coast (10, 0, 0)) < Physics.normSq (10, 0, 0)
  /\ Physics.normSq (Nat.iter 300 coast (10, 0, 0))
     < (1 # 1000000) * (1 # 1000000)
  /\ fst (IEEE.integrate (quantum 3) IEEE.fzero IEEE.fzero IEEE.fzero
            IEEE.fzero) = quantum 3
  /\ IEEE.flt (fst (IEEE.integrate (quantum 100) IEEE.fzero IEEE.fzero
                      IEEE.fzero IEEE.fzero)) (quantum 100) = true.
Proof.
  destruct (drag_convergence (M := exampleMath) restingEnv 0 restingLoop
              (10, 0, 0) 3 IEEE.fzero) as (H1 & _ & H2 & H3 & H4 & _).
  destruct (drag_convergence (M := exampleMath) restingEnv 0 restingLoop
              (10, 0, 0) 100 IEEE.fzero) as (_ & _ & _ & _ & _ & H5 & _).
  split; [|split; [|split; [|split]]].
  - apply H1; [cbn; lia| | |]; repeat split; reflexivity.
  - apply H2. reflexivity.
  - apply H3. reflexivity.
  - apply H4. lia.
  - apply H5. lia.
Defined.

(** ** Shape field library *)

Section ShapeFields.
Import Shapes.

(** Two arrays of one length that agree on their first [k] slots. *)
Definition agree (k : nat) (a b : list Q) : Prop :=
  length a = length b /\ forall j, (j < k)%nat -> a !! j = b !! j.

Lemma length_put3 i3 p a : length (put3 i3 p a) = length a.
Proof. destruct p as [[x y] z]. unfold put3. rewrite !length_insert. reflexivity. Qed.

Lemma put3_agree i p a b :
  agree (i * 3) a b -> (i * 3 + 2 < length a)%nat ->
  agree (S i * 3) (put3 (i * 3) p a) (put3 (i * 3) p b).
Proof.
  intros [Hl Ha] Hi. split; [rewrite !length_put3; exact Hl|].
  intros j Hj. destruct p as [[x y] z]. unfold put3.
  destruct (decide (j = i * 3 + 2)%nat) as [->|N2].
  { rewrite !list_lookup_insert_eq by (rewrite !length_insert; lia). reflexivity. }
  rewrite !(list_lookup_insert_ne _ (i * 3 + 2)) by lia.
  destruct (decide (j = i * 3 + 1)%nat) as [->|N1].
  { rewrite !list_lookup_insert_eq by (rewrite !length_insert; lia). reflexivity. }
  rewrite !(list_lookup_insert_ne _ (i * 3 + 1)) by lia.
  destruct (decide (j = i * 3)%nat) as [->|N0].
  { rewrite !list_lookup_insert_eq by lia. reflexivity. }
  rewrite !(list_lookup_insert_ne _ (i * 3)) by lia.
  apply Ha. lia.
Qed.

Lemma agree_full a b : agree (length a) a b -> a = b.
Proof.
  intros [Hl Ha]. apply list_eq. intros j.
  destruct (Nat.lt_ge_cases j (length a)) as [H|H]; [apply Ha, H|].
  rewrite !lookup_ge_None_2 by lia. reflexivity.
Qed.

(** A filler writes the points [lo .. hi-1]: on arrays that agree below
    slot [lo * 3] it succeeds, draws the same numbers, keeps the length
    and leaves arrays that agree below slot [hi * 3]. *)
Definition fills (lo hi : nat) (F : list Q -> nat -> option (list Q * nat))
  : Prop :=
  forall a b c, agree (lo * 3) a b -> (hi * 3 <= length a)%nat ->
    exists a' b' c', F a c = Some (a', c') /\ F b c = Some (b', c')
      /\ agree (hi * 3) a' b' /\ length a' = length a.

Lemma fillLoop_nil lo hi sample a c :
  (hi <= lo)%nat -> fillLoop lo hi sample a c = Some (a, c).
Proof. intros H. unfold fillLoop. replace (hi - lo)%nat with O by lia. reflexivity. Qed.

Lemma fold_fillStep_None sample l : fold_left (fillStep sample) l None = None.
Proof. induction l; auto. Qed.

Lemma fillLoop_cons lo hi sample a c :
  (lo < hi)%nat ->
  fillLoop lo hi sample a c
  = match sample lo c with
    | Some (p, c') => fillLoop (S lo) hi sample (put3 (lo * 3) p a) c'
    | None => None
    end.
Proof.
  intros H. unfold fillLoop. replace (hi - lo)%nat with (S (hi - S lo)) by lia.
  cbn [seq fold_left fillStep]. destruct (sample lo c) as [[p c']|]; [reflexivity|].
  apply fold_fillStep_None.
Qed.

Definition total (lo hi : nat) (sample : Sampler) : Prop :=
  forall i c, (lo <= i < hi)%nat -> is_Some (sample i c).

Lemma fillLoop_fills lo hi sample :
  total lo hi sample -> fills lo hi (fillLoop lo hi sample).
Proof.
  intros Ht. remember (hi - lo)%nat as m eqn:Hm. revert lo Hm Ht.
  induction m as [|m IH]; intros lo Hm Ht a b c Hab Hlen.
  - rewrite !fillLoop_nil by lia. exists a, b, c. repeat split; try apply Hab.
    intros j Hj. apply Hab. lia.
  - rewrite !fillLoop_cons by lia.
    destruct (Ht lo c ltac:(lia)) as [[p c'] Hs]. rewrite Hs.
    destruct (IH (S lo) ltac:(lia) ltac:(intros i c0 Hi; apply Ht; lia)
                 (put3 (lo * 3) p a) (put3 (lo * 3) p b) c')
      as (a' & b' & c'' & Ha & Hb & Hag & Hl).
    + apply put3_agree; [exact Hab|lia].
    + rewrite length_put3. exact Hlen.
    + exists a', b', c''. rewrite length_put3 in Hl. auto.
Qed.

Lemma fills_seq lo mid hi F G :
  (mid <= hi)%nat -> fills lo mid F -> fills mid hi G ->
  fills lo hi (fun a c => match F a c with
                          | Some (a1, c1) => G a1 c1
                          | None => None
                          end).
Proof.
  intros Hmh HF HG a b c Hab Hlen.
  destruct (HF a b c Hab ltac:(lia)) as (a1 & b1 & c1 & Ha & Hb & Hag & Hl).
  rewrite Ha, Hb.
  destruct (HG a1 b1 c1 Hag ltac:(lia)) as (a2 & b2 & c2 & Ha2 & Hb2 & Hag2 & Hl2).
  exists a2, b2, c2. repeat split; try assumption; try apply Hag2. congruence.
Qed.


Lemma get3_put3 i3 p a :
  (i3 + 2 < length a)%nat -> get3 (put3 i3 p a) i3 = Some p.
Proof.
  intros H. destruct p as [[x y] z]. unfold get3, put3.
  rewrite (list_lookup_insert_ne _ (i3 + 2)) by lia.
  rewrite (list_lookup_insert_ne _ (i3 + 1)) by lia.
  rewrite list_lookup_insert_eq by lia.
  rewrite (list_lookup_insert_ne _ (i3 + 2)) by lia.
  rewrite list_lookup_insert_eq by (rewrite length_insert; lia).
  rewrite list_lookup_insert_eq by (rewrite !length_insert; lia).
  reflexivity.
Qed.

Lemma put3_below i3 p a j : (j < i3)%nat -> put3 i3 p a !! j = a !! j.
Proof.
  intros H. destruct p as [[x y] z]. unfold put3.
  rewrite !list_lookup_insert_ne by lia. reflexivity.
Qed.

(** A fill loop over [lo .. hi-1] keeps the length and every slot below
    [lo * 3]. *)
Lemma fillLoop_below lo hi sample : forall a c a' c',
  fillLoop lo hi sample a c = Some (a', c') ->
  length a' = length a /\ forall j, (j < lo * 3)%nat -> a' !! j = a !! j.
Proof.
  remember (hi - lo)%nat as m eqn:Hm. revert lo Hm.
  induction m as [|m IH]; intros lo Hm a c a' c' H.
  - rewrite fillLoop_nil in H by lia. injection H as <- <-. auto.
  - rewrite fillLoop_cons in H by lia.
    destruct (sample lo c) as [[p c1]|]; [|discriminate].
    destruct (IH (S lo) ltac:(lia) _ _ _ _ H) as [Hl Hb].
    rewrite length_put3 in Hl. split; [exact Hl|].
    intros j Hj. rewrite Hb by lia. apply put3_below. lia.
Qed.

(** Every point a fill loop has written is a value of its sampler: the
    three slots of particle [i] hold the point sampled for [i] at some
    draw count. *)
Lemma fillLoop_points lo hi sample : forall a c a' c',
  (hi * 3 <= length a)%nat ->
  fillLoop lo hi sample a c = Some (a', c') ->
  forall i, (lo <= i < hi)%nat ->
    exists ci p ci', sample i ci = Some (p, ci') /\ get3 a' (i * 3) = Some p.
Proof.
  remember (hi - lo)%nat as m eqn:Hm. revert lo Hm.
  induction m as [|m IH]; intros lo Hm a c a' c' Hlen H i Hi; [lia|].
  rewrite fillLoop_cons in H by lia.
  destruct (sample lo c) as [[p c1]|] eqn:Es; [|discriminate].
  destruct (decide (i = lo)) as [->|Hne].
  - exists c, p, c1. split; [exact Es|].
    destruct (fillLoop_below _ _ _ _ _ _ _ H) as [_ Hb].
    unfold get3. rewrite !Hb by lia.
    apply (get3_put3 (lo * 3) p a). lia.
  - assert (Hl : (hi * 3 <= length (put3 (lo * 3) p a))%nat)
      by (rewrite length_put3; lia).
    apply (IH (S lo) ltac:(lia) _ _ _ _ Hl H). lia.
Qed.

(** The particles [lo .. hi-1] of a buffer each hold a point that one of
    the loop bodies [ss] computes for that particle index. *)
Definition pointsIn (lo hi : nat) (ss : list Sampler) (arr : list Q) : Prop :=
  forall i, (lo <= i < hi)%nat ->
    exists sample c p c',
      In sample ss /\ sample i c = Some (p, c') /\ get3 arr (i * 3) = Some p.

Lemma fillLoop_pointsIn lo hi sample ss a c a' c' :
  In sample ss -> (lo <= hi)%nat -> (hi * 3 <= length a)%nat ->
  pointsIn 0 lo ss a ->
  fillLoop lo hi sample a c = Some (a', c') ->
  pointsIn 0 hi ss a' /\ length a' = length a.
Proof.
  intros Hin Hle Hlen Hlo H.
  destruct (fillLoop_below _ _ _ _ _ _ _ H) as [Hl Hb].
  split; [|exact Hl]. intros i Hi.
  destruct (Nat.lt_ge_cases i lo) as [Hlt|Hge].
  - destruct (Hlo i ltac:(lia)) as (s & ci & p & ci' & Hs & Es & Hg).
    exists s, ci, p, ci'. split; [exact Hs|]. split; [exact Es|].
    unfold get3 in *. rewrite !Hb by lia. exact Hg.
  - destruct (fillLoop_points lo hi sample a c a' c' Hlen H i ltac:(lia))
      as (ci & p & ci' & Es & Hg).
    exists sample, ci, p, ci'. auto.
Qed.

Section WithMath.
Context {M : MathLib}.
Hypothesis random_unit : forall k, 0 <= Math_random k /\ Math_random k < 1.
Hypothesis acos_domain : forall x, -1 <= x -> x <= 1 -> is_Some (Math_acos x).
Hypothesis sin_unit : forall x, -1 <= Math_sin x /\ Math_sin x <= 1.
Hypothesis cos_unit : forall x, -1 <= Math_cos x /\ Math_cos x <= 1.

Lemma acos_random c : is_Some (Math_acos (2 * rnd c - 1)).
Proof.
  unfold rnd. destruct (random_unit c). apply acos_domain; lra.
Qed.

Lemma Qn_nonneg i : 0 <= Qn i.
Proof. unfold Qn. change 0 with (inject_Z 0). rewrite <- Zle_Qle. lia. Qed.

Lemma Qn_lt i n : (i < n)%nat -> Qn i < Qn n.
Proof. intros H. unfold Qn. rewrite <- Zlt_Qlt. lia. Qed.

Lemma total_earth n : total 0 n (earthSample n).
Proof.
  intros i c [_ Hi]. unfold earthSample.
  pose proof (Qn_nonneg i) as H0. pose proof (Qn_lt i n Hi) as H1.
  assert (Hq : 0 <= 2 * Qn i / Qn n /\ 2 * Qn i / Qn n <= 2).
  { split.
    - apply Qle_shift_div_l; lra.
    - apply Qle_shift_div_r; lra. }
  destruct (acos_domain (-1 + 2 * Qn i / Qn n)) as [phi ->]; [lra|lra|].
  eexists; reflexivity.
Qed.

Lemma total_planet lo hi : total lo hi planetSample.
Proof.
  intros i c _. unfold planetSample. destruct (acos_random (S c)) as [phi ->].
  eexists; reflexivity.
Qed.

Lemma total_sphere cx cy cz r lo hi : total lo hi (sphereSample cx cy cz r).
Proof.
  intros i c _. unfold sphereSample. destruct (acos_random (S c)) as [phi ->].
  eexists; reflexivity.
Qed.

Lemma total_heart lo hi : total lo hi heartSample.
Proof. intros i c _. eexists; reflexivity. Qed.

Lemma total_flower lo hi : total lo hi flowerSample.
Proof. intros i c _. eexists; reflexivity. Qed.

Lemma total_ring lo hi : total lo hi ringSample.
Proof. intros i c _. eexists; reflexivity. Qed.

Lemma total_halo lo hi : total lo hi haloSample.
Proof. intros i c _. eexists; reflexivity. Qed.

Lemma total_galaxy lo hi : total lo hi galaxySample.
Proof. intros i c _. eexists; reflexivity. Qed.

Lemma total_dna lo hi : total lo hi dnaSample.
Proof.
  intros i c _. unfold dnaSample.
  destruct (Qltb (rnd c) (4 # 10)); [eexists; reflexivity|].
  destruct (Qltb (rnd c) (8 # 10)); eexists; reflexivity.
Qed.

Lemma total_cube lo hi : total lo hi cubeSample.
Proof. intros i c _. eexists; reflexivity. Qed.

Lemma total_mobius lo hi : total lo hi mobiusSample.
Proof. intros i c _. eexists; reflexivity. Qed.

Lemma planetParticles_le n : (planetParticles n <= n)%nat.
Proof.
  unfold planetParticles.
  assert (H : (Qfloor (Qn n * (4 # 10)) <= Z.of_nat n)%Z).
  { rewrite <- (Qfloor_Z (Z.of_nat n)). apply Qfloor_resp_le.
    pose proof (Qn_nonneg n). unfold Qn in *. lra. }
  lia.
Qed.

Lemma fold_addSphereStep_None n sample l :
  fold_left (addSphereStep n sample) l None = None.
Proof. induction l; auto. Qed.

Lemma addSphere_fill n sample l : forall arr c idx,
  (idx <= n)%nat ->
  fold_left (addSphereStep n sample) l (Some (arr, c, idx))
  = match fillLoop idx (Nat.min (idx + length l) n) sample arr c with
    | Some (a', c') => Some (a', c', Nat.min (idx + length l) n)
    | None => None
    end.
Proof.
  induction l as [|x l IH]; intros arr c idx Hidx.
  - cbn [length fold_left]. rewrite fillLoop_nil by lia.
    f_equal. f_equal. lia.
  - cbn [length fold_left addSphereStep].
    destruct (Nat.leb_spec n idx) as [Hge|Hlt].
    + rewrite IH by lia. replace (Nat.min (idx + length l) n) with idx by lia.
      replace (Nat.min (idx + S (length l)) n) with idx by lia. reflexivity.
    + rewrite (fillLoop_cons idx) by lia.
      destruct (sample idx c) as [[p c']|]; [|apply fold_addSphereStep_None].
      rewrite IH by lia.
      replace (Nat.min (S idx + length l) n) with (Nat.min (idx + S (length l)) n) by lia.
      reflexivity.
Qed.

(** A cursor filler: from a cursor [idx <= n] it writes the points from
    [idx] to the cursor it returns. *)
Definition cfills (n : nat)
    (F : option (list Q * nat * nat) -> option (list Q * nat * nat)) : Prop :=
  forall a b c idx, (idx <= n)%nat -> agree (idx * 3) a b ->
    (n * 3 <= length a)%nat ->
    exists a' b' c' idx',
      F (Some (a, c, idx)) = Some (a', c', idx')
      /\ F (Some (b, c, idx)) = Some (b', c', idx')
      /\ (idx' <= n)%nat /\ agree (idx' * 3) a' b' /\ length a' = length a.

Lemma addSphere_cfills n cx cy cz r count :
  cfills n (addSphere n cx cy cz r count).
Proof.
  intros a b c idx Hidx Hab Hlen. unfold addSphere.
  rewrite !addSphere_fill by exact Hidx.
  set (hi := Nat.min _ n).
  destruct (fillLoop_fills idx hi _ (total_sphere cx cy cz r idx hi) a b c Hab
              ltac:(lia)) as (a' & b' & c' & Ha & Hb & Hag & Hl).
  rewrite Ha, Hb. exists a', b', c', hi. repeat split; try assumption; try apply Hag.
  lia.
Qed.

Lemma fills_buddha n : fills 0 n (generateBuddha n).
Proof.
  intros a b c Hab Hlen. unfold generateBuddha. cbv zeta.
  destruct (addSphere_cfills n 0 (-6) 0 7 (Qn n * (35 # 100)) a b c O
              ltac:(lia) Hab Hlen) as (a1 & b1 & c1 & i1 & -> & -> & H1 & G1 & L1).
  destruct (addSphere_cfills n 0 2 0 (45 # 10) (Qn n * (25 # 100)) a1 b1 c1 i1
              H1 G1 ltac:(lia)) as (a2 & b2 & c2 & i2 & -> & -> & H2 & G2 & L2).
  destruct (addSphere_cfills n 0 (75 # 10) 0 3 (Qn n * (15 # 100)) a2 b2 c2 i2
              H2 G2 ltac:(lia)) as (a3 & b3 & c3 & i3 & -> & -> & H3 & G3 & L3).
  destruct (addSphere_cfills n (-45 # 10) 1 0 2 (Qn n * (5 # 100)) a3 b3 c3 i3
              H3 G3 ltac:(lia)) as (a4 & b4 & c4 & i4 & -> & -> & H4 & G4 & L4).
  destruct (addSphere_cfills n (45 # 10) 1 0 2 (Qn n * (5 # 100)) a4 b4 c4 i4
              H4 G4 ltac:(lia)) as (a5 & b5 & c5 & i5 & -> & -> & H5 & G5 & L5).
  destruct (fillLoop_fills i5 n _ (total_halo i5 n) a5 b5 c5 G5 ltac:(lia))
    as (a6 & b6 & c6 & Ha & Hb & Hag & Hl).
  exists a6, b6, c6. repeat split; try assumption; try apply Hag. lia.
Qed.

Lemma fills_saturn n : fills 0 n (generateSaturn n).
Proof.
  apply (fills_seq 0 (planetParticles n) n
           (fillLoop 0 (planetParticles n) planetSample)
           (fillLoop (planetParticles n) n ringSample)).
  - apply planetParticles_le.
  - apply fillLoop_fills, total_planet.
  - apply fillLoop_fills, total_ring.
Qed.

Lemma fills_generators n :
  Forall (fun g : string * Generator => fills 0 n (snd g n)) generators.
Proof.
  unfold generators. repeat constructor; cbn [snd].
  - apply fillLoop_fills, total_earth.
  - apply fillLoop_fills, total_heart.
  - apply fillLoop_fills, total_flower.
  - apply fills_saturn.
  - apply fills_buddha.
  - apply fillLoop_fills, total_galaxy.
  - apply fillLoop_fills, total_dna.
  - apply fillLoop_fills, total_cube.
  - apply fillLoop_fills, total_mobius.
Qed.


Lemma length_freshArray n : length (freshArray n) = (n * 3)%nat.
Proof. apply length_replicate. Qed.

(** What a complete field generator does for [n] particles: on the fresh
    array it succeeds (no NaN) with an array of [n * 3] slots, and it
    returns that same array from any other initial content: every slot
    is written. *)
Definition complete (n : nat) (g : Generator) : Prop :=
  forall c, exists arr c',
    g n (freshArray n) c = Some (arr, c')
    /\ length arr = (n * 3)%nat
    /\ forall a0, length a0 = (n * 3)%nat -> g n a0 c = Some (arr, c').

Lemma fills_complete n (g : Generator) : fills 0 n (g n) -> complete n g.
Proof.
  intros Hf c.
  destruct (Hf (freshArray n) (freshArray n) c) as (arr & b & c' & Ha & _ & _ & Hl).
  { split; [reflexivity|]. intros j Hj. lia. }
  { rewrite length_freshArray. lia. }
  rewrite length_freshArray in Hl.
  exists arr, c'. split; [exact Ha|]. split; [exact Hl|].
  intros a0 Hl0.
  destruct (Hf (freshArray n) a0 c) as (a' & b' & c'' & Ha' & Hb' & Hag & Hl').
  { split; [rewrite length_freshArray; auto|]. intros j Hj. lia. }
  { rewrite length_freshArray. lia. }
  rewrite Ha in Ha'. injection Ha' as <- <-.
  rewrite Hb'. f_equal. f_equal. symmetry. apply agree_full.
  rewrite Hl. exact Hag.
Qed.

Lemma generate_fold n gs :
  Forall (fun g : string * Generator => complete n (snd g)) gs ->
  forall t c, exists t' c',
    fold_left (generateStep n) gs (Some (t, c)) = Some (t', c')
    /\ (forall name, is_Some (t' !! name)
          <-> is_Some (t !! name) \/ In name (map fst gs))
    /\ (forall name arr, t' !! name = Some arr ->
          t !! name = Some arr \/ length arr = (n * 3)%nat).
Proof.
  induction 1 as [|[name0 g] gs Hg _ IH]; intros t c.
  - exists t, c. cbn. split; [reflexivity|]. split; [tauto|auto].
  - cbn [fold_left generateStep fst snd] in *.
    destruct (Hg c) as (arr & c' & -> & Hl & _).
    destruct (IH (<[ name0 := arr ]> t) c') as (t' & c'' & -> & Hdom & Hlen).
    exists t', c''. split; [reflexivity|]. split.
    + intros name. rewrite Hdom. cbn [map In fst].
      destruct (decide (name0 = name)) as [->|Hne].
      * rewrite lookup_insert_eq. split; [auto|]. intros _. left. eauto.
      * rewrite lookup_insert_ne by exact Hne. tauto.
    + intros name arr' H'. destruct (Hlen name arr' H') as [Hi|Hi]; [|auto].
      destruct (decide (name0 = name)) as [->|Hne].
      * rewrite lookup_insert_eq in Hi. right. congruence.
      * rewrite lookup_insert_ne in Hi by exact Hne. auto.
Qed.

(** *** What the fields hold *)

(** A point inside the box [-30, 30]^3. *)
Definition bounded (p : Q * Q * Q) : Prop :=
  Qabs (fst (fst p)) <= 30 /\ Qabs (snd (fst p)) <= 30 /\ Qabs (snd p) <= 30.

Definition boundedSampler (sample : Sampler) : Prop :=
  forall i c p c', sample i c = Some (p, c') -> bounded p.

Lemma bounded_intro x y z :
  -30 <= x -> x <= 30 -> -30 <= y -> y <= 30 -> -30 <= z -> z <= 30 ->
  bounded (x, y, z).
Proof.
  unfold bounded. cbn [fst snd]. intros.
  repeat split; apply Qabs_Qle_condition; split; assumption.
Qed.

Lemma mul_unit a b A :
  0 <= A -> - A <= a -> a <= A -> -1 <= b -> b <= 1 ->
  - A <= a * b /\ a * b <= A.
Proof. intros. split; nra. Qed.

Lemma rnd_centered c : - (1 # 2) <= rnd c - (1 # 2) /\ rnd c - (1 # 2) <= 1 # 2.
Proof. unfold rnd. destruct (random_unit c). split; lra. Qed.

Lemma bounded_earth n : boundedSampler (earthSample n).
Proof.
  intros i c p c'. unfold earthSample.
  destruct (Math_acos _) as [phi|]; [|discriminate]. cbv zeta.
  set (theta := Math_sqrt _ * phi).
  match goal with
  | |- context [if ?b then ?x else ?y] => set (r := if b then x else y)
  end.
  assert (Hr : 0 <= r /\ r <= 142 # 10)
    by (subst r;
        match goal with |- context [if ?b then _ else _] => destruct b end;
        split; lra).
  destruct (sin_unit phi), (cos_unit phi), (sin_unit theta), (cos_unit theta).
  set (sp := Math_sin phi) in *. set (cp := Math_cos phi) in *.
  set (st := Math_sin theta) in *. set (ct := Math_cos theta) in *.
  clearbody r sp cp st ct. destruct Hr.
  destruct (mul_unit r ct (142 # 10)) as [A1 A2]; try lra.
  destruct (mul_unit r st (142 # 10)) as [B1 B2]; try lra.
  destruct (mul_unit r cp (142 # 10)) as [C1 C2]; try lra.
  destruct (mul_unit (r * ct) sp (142 # 10)); try lra.
  destruct (mul_unit (r * st) sp (142 # 10)); try lra.
  intros [= <- _]. apply bounded_intro; lra.
Qed.

Lemma bounded_heart : boundedSampler heartSample.
Proof.
  intros i c p c'. unfold heartSample. cbv zeta.
  set (t := rnd c * Math_PI * 2).
  destruct (sin_unit t) as [S1 S2].
  destruct (cos_unit t), (cos_unit (2 * t)), (cos_unit (3 * t)),
    (cos_unit (4 * t)).
  set (s := Math_sin t) in *.
  set (y := 13 * Math_cos t - 5 * Math_cos (2 * t) - 2 * Math_cos (3 * t)
            - Math_cos (4 * t)).
  assert (Hy : -21 <= y /\ y <= 21) by (subst y; split; lra).
  assert (Hay : 0 <= Qabs y /\ Qabs y <= 21).
  { split; [apply Qabs_nonneg|]. apply Qabs_Qle_condition. exact Hy. }
  set (ay := Qabs y) in *. clearbody ay y. destruct Hy, Hay.
  destruct (mul_unit s s 1) as [P1 P2]; try lra.
  destruct (mul_unit (s * s) s 1) as [Q1 Q2]; try lra.
  destruct (rnd_centered (S c)) as [R1 R2].
  set (w := rnd (S c) - (1 # 2)) in *.
  set (k := 1 - ay / 25).
  assert (Ek : ay / 25 == ay * (1 # 25)) by field.
  assert (Hk : 0 <= k /\ k <= 1) by (subst k; rewrite Ek; split; lra).
  clearbody k w s. destruct Hk.
  destruct (mul_unit (w * 10) k 5) as [Z1 Z2]; try lra.
  intros [= <- _]. apply bounded_intro; lra.
Qed.

Lemma bounded_flower : boundedSampler flowerSample.
Proof.
  intros i c p c'. unfold flowerSample. cbv zeta.
  set (u := rnd c * Math_PI * 2). set (v := rnd (S c) * Math_PI).
  destruct (cos_unit (6 * u)), (sin_unit v), (cos_unit v), (sin_unit u),
    (cos_unit u), (rnd_centered (S (S c))).
  set (r := Math_cos (6 * u) * 10 + 6).
  assert (Hr : -16 <= r /\ r <= 16) by (subst r; split; lra).
  set (w := rnd (S (S c)) - (1 # 2)) in *.
  set (sv := Math_sin v) in *. set (cv := Math_cos v) in *.
  set (su := Math_sin u) in *. set (cu := Math_cos u) in *.
  clearbody r w sv cv su cu. destruct Hr.
  destruct (mul_unit r sv 16); try lra.
  destruct (mul_unit r cv 16); try lra.
  destruct (mul_unit (r * sv) cu 16); try lra.
  destruct (mul_unit (r * sv) su 16); try lra.
  intros [= <- _]. apply bounded_intro; lra.
Qed.

Lemma bounded_sphere cx cy cz r :
  0 <= r -> Qabs cx + r <= 30 -> Qabs cy + r <= 30 -> Qabs cz + r <= 30 ->
  boundedSampler (sphereSample cx cy cz r).
Proof.
  intros Hr Hx Hy Hz i c p c'. unfold sphereSample. cbv zeta.
  destruct (Math_acos _) as [phi|]; [|discriminate].
  set (theta := rnd c * Math_PI * 2).
  destruct (sin_unit phi), (cos_unit phi), (sin_unit theta), (cos_unit theta).
  set (sp := Math_sin phi) in *. set (cp := Math_cos phi) in *.
  set (st := Math_sin theta) in *. set (ct := Math_cos theta) in *.
  destruct (mul_unit r sp r) as [A1 A2]; try lra.
  destruct (mul_unit r cp r) as [B1 B2]; try lra.
  destruct (mul_unit (r * sp) ct r) as [C1 C2]; try lra.
  destruct (mul_unit (r * sp) st r) as [D1 D2]; try lra.
  pose proof (Qabs_Qle_condition cx (Qabs cx)) as [Ex _].
  pose proof (Qabs_Qle_condition cy (Qabs cy)) as [Ey _].
  pose proof (Qabs_Qle_condition cz (Qabs cz)) as [Ez _].
  destruct (Ex (Qle_refl _)), (Ey (Qle_refl _)), (Ez (Qle_refl _)).
  set (ax := Qabs cx) in *. set (ay := Qabs cy) in *. set (az := Qabs cz) in *.
  clearbody sp cp st ct ax ay az.
  intros [= <- _]. apply bounded_intro; lra.
Qed.

Lemma bounded_planet : boundedSampler planetSample.
Proof.
  intros i c p c'. unfold planetSample. cbv zeta.
  destruct (Math_acos _) as [phi|]; [|discriminate].
  set (theta := rnd c * Math_PI * 2).
  destruct (sin_unit phi), (cos_unit phi), (sin_unit theta), (cos_unit theta).
  set (sp := Math_sin phi) in *. set (cp := Math_cos phi) in *.
  set (st := Math_sin theta) in *. set (ct := Math_cos theta) in *.
  clearbody sp cp st ct.
  destruct (mul_unit 9 sp 9); try lra.
  destruct (mul_unit 9 cp 9); try lra.
  destruct (mul_unit (9 * sp) ct 9); try lra.
  destruct (mul_unit (9 * sp) st 9); try lra.
  intros [= <- _]. apply bounded_intro; lra.
Qed.

Lemma bounded_ring : boundedSampler ringSample.
Proof.
  intros i c p c'. unfold ringSample. cbv zeta.
  set (angle := rnd c * Math_PI * 2).
  destruct (random_unit (S c)) as [D1 D2]. fold (rnd (S c)) in D1, D2.
  destruct (rnd_centered (S (S c))).
  destruct (sin_unit angle), (cos_unit angle), (sin_unit (4 # 10)),
    (cos_unit (4 # 10)).
  set (dist := 14 + rnd (S c) * 15).
  assert (Hd : 0 <= dist /\ dist <= 29) by (subst dist; split; lra).
  set (rY := (rnd (S (S c)) - (1 # 2)) * (5 # 10)).
  assert (HY : - (1 # 4) <= rY /\ rY <= 1 # 4) by (subst rY; split; lra).
  set (sa := Math_sin angle) in *. set (ca := Math_cos angle) in *.
  set (s4 := Math_sin (4 # 10)) in *. set (c4 := Math_cos (4 # 10)) in *.
  clearbody dist rY sa ca s4 c4. destruct Hd, HY.
  destruct (mul_unit dist ca 29) as [A1 A2]; try lra.
  destruct (mul_unit dist sa 29) as [B1 B2]; try lra.
  assert (EA : ca * dist == dist * ca) by ring.
  assert (EB : sa * dist == dist * sa) by ring.
  destruct (mul_unit (ca * dist) c4 29); try lra.
  destruct (mul_unit (ca * dist) s4 29); try lra.
  destruct (mul_unit rY s4 (1 # 4)); try lra.
  destruct (mul_unit rY c4 (1 # 4)); try lra.
  intros [= <- _]. apply bounded_intro; lra.
Qed.

Lemma bounded_halo : boundedSampler haloSample.
Proof.
  intros i c p c'. unfold haloSample. cbv zeta.
  set (t := rnd c * Math_PI * 2).
  destruct (random_unit (S c)) as [D1 D2]. fold (rnd (S c)) in D1, D2.
  destruct (rnd_centered (S (S c))), (sin_unit t), (cos_unit t).
  set (r := 15 + rnd (S c) * 3).
  assert (Hr : 0 <= r /\ r <= 18) by (subst r; split; lra).
  set (w := rnd (S (S c)) - (1 # 2)) in *.
  set (sn := Math_sin t) in *. set (cs := Math_cos t) in *.
  clearbody r w sn cs. destruct Hr.
  destruct (mul_unit r cs 18); try lra.
  destruct (mul_unit r sn 18); try lra.
  intros [= <- _]. apply bounded_intro; lra.
Qed.

Lemma bounded_galaxy : boundedSampler galaxySample.
Proof.
  intros i c p c'. unfold galaxySample. cbv zeta.
  set (angle := rnd c * Math_PI * 2 * 3
                + Qn (i mod 5) * (Math_PI * 2 / Qn 5)).
  destruct (random_unit c) as [T1 T2]. fold (rnd c) in T1, T2.
  destruct (rnd_centered (S c)) as [U1 U2], (rnd_centered (S (S c))) as [V1 V2],
    (sin_unit angle), (cos_unit angle).
  set (sn := Math_sin angle) in *. set (cs := Math_cos angle) in *.
  set (t := rnd c) in *. set (u := rnd (S c) - (1 # 2)) in *.
  set (v := rnd (S (S c)) - (1 # 2)) in *. clearbody sn cs t u v.
  destruct (mul_unit (t * 20) cs 20); try lra.
  destruct (mul_unit (t * 20) sn 20); try lra.
  assert (EA : cs * (t * 20) == t * 20 * cs) by ring.
  assert (EB : sn * (t * 20) == t * 20 * sn) by ring.
  assert (Hs : - (5 # 2) <= u * (5 * t) /\ u * (5 * t) <= 5 # 2) by (split; nra).
  assert (Hy : -2 <= v * (3 * (1 - t) + (5 # 10))
               /\ v * (3 * (1 - t) + (5 # 10)) <= 2) by (split; nra).
  destruct Hs, Hy.
  intros [= <- _]. apply bounded_intro; lra.
Qed.

Lemma bounded_dna : boundedSampler dnaSample.
Proof.
  intros i c p c'. unfold dnaSample. cbv zeta.
  set (h := (rnd (S c) - (1 # 2)) * 45). set (t := h * (6 # 10)).
  destruct (rnd_centered (S c)), (rnd_centered (c + 2)), (rnd_centered (c + 3)).
  assert (Hh : -30 <= h /\ h <= 30) by (subst h; split; lra).
  destruct (random_unit (c + 2)) as [P1 P2]. fold (rnd (c + 2)) in P1, P2.
  destruct (sin_unit t), (cos_unit t), (sin_unit (t + Math_PI)),
    (cos_unit (t + Math_PI)).
  set (x1 := Math_cos t * 6). set (x2 := Math_cos (t + Math_PI) * 6).
  set (z1 := Math_sin t * 6). set (z2 := Math_sin (t + Math_PI) * 6).
  assert (-6 <= x1 /\ x1 <= 6 /\ -6 <= x2 /\ x2 <= 6
          /\ -6 <= z1 /\ z1 <= 6 /\ -6 <= z2 /\ z2 <= 6)
    as (?&?&?&?&?&?&?&?) by (subst x1 x2 z1 z2; repeat split; lra).
  set (q := rnd (c + 2)) in *. set (q3 := rnd (c + 3)) in *.
  assert (Hx : -6 <= x1 + (x2 - x1) * q /\ x1 + (x2 - x1) * q <= 6)
    by (clearbody x1 x2 q; split; nra).
  assert (Hz : -6 <= z1 + (z2 - z1) * q /\ z1 + (z2 - z1) * q <= 6)
    by (clearbody z1 z2 q; split; nra).
  clearbody x1 x2 z1 z2 q q3 h. destruct Hh, Hx, Hz.
  destruct (Qltb (rnd c) (4 # 10)); [|destruct (Qltb (rnd c) (8 # 10))];
    intros [= <- _]; apply bounded_intro; lra.
Qed.

Lemma bounded_cube : boundedSampler cubeSample.
Proof.
  intros i c p c'. unfold cubeSample. cbv zeta.
  set (size := if Qltb (rnd c) (2 # 10) then 3
               else if Qltb (rnd c) (5 # 10) then 7 else 12).
  assert (Hs : 0 <= size /\ size <= 12).
  { subst size. destruct (Qltb _ (2 # 10)); [split; lra|].
    destruct (Qltb _ (5 # 10)); split; lra. }
  set (dir := if Qltb (5 # 10) (rnd (c + 2)) then 1 else -1).
  assert (Hd : -1 <= dir /\ dir <= 1)
    by (clearbody size; subst dir; destruct (Qltb _ _); split; lra).
  destruct (rnd_centered (c + 3)), (rnd_centered (c + 4)),
    (rnd_centered (c + 5)).
  set (w3 := rnd (c + 3) - (1 # 2)) in *. set (w4 := rnd (c + 4) - (1 # 2)) in *.
  set (w5 := rnd (c + 5) - (1 # 2)) in *.
  clearbody size dir w3 w4 w5. destruct Hs, Hd.
  destruct (mul_unit size dir 12); try lra.
  destruct (mul_unit size (w3 * 2) 12); try lra.
  destruct (mul_unit size (w4 * 2) 12); try lra.
  destruct (mul_unit size (w5 * 2) 12); try lra.
  assert (E3 : w3 * 2 * size == size * (w3 * 2)) by ring.
  assert (E4 : w4 * 2 * size == size * (w4 * 2)) by ring.
  assert (E5 : w5 * 2 * size == size * (w5 * 2)) by ring.
  destruct (Qfloor _ =? 0)%Z; [|destruct (Qfloor _ =? 1)%Z];
    intros [= <- _]; apply bounded_intro; lra.
Qed.

Lemma bounded_mobius : boundedSampler mobiusSample.
Proof.
  intros i c p c'. unfold mobiusSample. cbv zeta.
  set (u := rnd c * Math_PI * 2).
  destruct (rnd_centered (S c)), (sin_unit u), (cos_unit u),
    (sin_unit (u / 2)), (cos_unit (u / 2)).
  set (h := (rnd (S c) - (1 # 2)) * 6 / 2).
  assert (Eh : h == (rnd (S c) - (1 # 2)) * 3) by (subst h; field).
  assert (Hh : - (3 # 2) <= h /\ h <= 3 # 2) by (rewrite Eh; split; lra).
  set (su := Math_sin u) in *. set (cu := Math_cos u) in *.
  set (s2 := Math_sin (u / 2)) in *. set (c2 := Math_cos (u / 2)) in *.
  clearbody h su cu s2 c2. destruct Hh.
  destruct (mul_unit h c2 (3 # 2)); try lra.
  destruct (mul_unit h s2 (3 # 2)); try lra.
  destruct (mul_unit (10 + h * c2) cu (23 # 2)); try lra.
  destruct (mul_unit (10 + h * c2) su (23 # 2)); try lra.
  intros [= <- _]. apply bounded_intro; lra.
Qed.

(** A generator whose result keeps the buffer's length and holds, for
    each of the [n] particles, a point of one of the loop bodies [ss]. *)
Definition generatedBy (n : nat) (g : Generator) (ss : list Sampler) : Prop :=
  forall a c arr c', (n * 3 <= length a)%nat -> g n a c = Some (arr, c') ->
    length arr = length a /\ pointsIn 0 n ss arr.

Lemma pointsIn_empty ss a : pointsIn 0 0 ss a.
Proof. intros i Hi. lia. Qed.

Lemma fill_generated n sample ss a c arr c' :
  In sample ss -> (n * 3 <= length a)%nat ->
  fillLoop 0 n sample a c = Some (arr, c') ->
  length arr = length a /\ pointsIn 0 n ss arr.
Proof.
  intros Hin Hlen H.
  destruct (fillLoop_pointsIn 0 n sample ss a c arr c' Hin) as [Hp Hl];
    [lia|exact Hlen|apply pointsIn_empty|exact H|].
  auto.
Qed.

Lemma generated_saturn n :
  generatedBy n generateSaturn [planetSample; ringSample].
Proof.
  intros a c arr c' Hlen H. unfold generateSaturn in H.
  pose proof (planetParticles_le n) as Hpp.
  destruct (fillLoop 0 (planetParticles n) planetSample a c) as [[a1 c1]|] eqn:E1;
    [|discriminate].
  destruct (fillLoop_pointsIn 0 (planetParticles n) planetSample
              [planetSample; ringSample] a c a1 c1) as [P1 L1];
    [left; reflexivity|lia|lia|apply pointsIn_empty|exact E1|].
  destruct (fillLoop_pointsIn (planetParticles n) n ringSample
              [planetSample; ringSample] a1 c1 arr c') as [P2 L2];
    [right; left; reflexivity|lia|lia|exact P1|exact H|].
  split; [congruence|exact P2].
Qed.

Lemma addSphere_None n cx cy cz r count :
  addSphere n cx cy cz r count None = None.
Proof. unfold addSphere. apply fold_addSphereStep_None. Qed.

Lemma addSphere_points n cx cy cz r count ss a c idx a' c' idx' :
  In (sphereSample cx cy cz r) ss -> (idx <= n)%nat ->
  (n * 3 <= length a)%nat -> pointsIn 0 idx ss a ->
  addSphere n cx cy cz r count (Some (a, c, idx)) = Some (a', c', idx') ->
  (idx' <= n)%nat /\ pointsIn 0 idx' ss a' /\ length a' = length a.
Proof.
  intros Hin Hidx Hlen Hp H. unfold addSphere in H.
  rewrite addSphere_fill in H by exact Hidx.
  set (hi := Nat.min _ n) in H.
  assert (Hhi : (idx <= hi <= n)%nat) by (subst hi; lia).
  destruct (fillLoop idx hi (sphereSample cx cy cz r) a c) as [[a1 c1]|] eqn:E;
    [|discriminate].
  injection H as <- <- <-.
  destruct (fillLoop_pointsIn idx hi _ ss a c a1 c1 Hin) as [P L];
    [lia|lia|exact Hp|exact E|].
  split; [lia|]. split; [exact P|exact L].
Qed.

(** The loop bodies of [generateBuddha]: its five spheres and the halo. *)
Definition buddhaBodies : list Sampler :=
  [ sphereSample 0 (-6) 0 7; sphereSample 0 2 0 (45 # 10);
    sphereSample 0 (75 # 10) 0 3; sphereSample (-45 # 10) 1 0 2;
    sphereSample (45 # 10) 1 0 2; haloSample ].

Lemma generated_buddha n : generatedBy n generateBuddha buddhaBodies.
Proof.
  intros a c arr c' Hlen H. unfold generateBuddha in H. cbv zeta in H.
  destruct (addSphere n 0 (-6) 0 7 _ (Some (a, c, O))) as [[[a1 c1] i1]|] eqn:E1;
    [|rewrite !addSphere_None in H; discriminate].
  apply (addSphere_points n _ _ _ _ _ buddhaBodies) in E1 as (I1 & P1 & L1);
    [|cbn; tauto|lia|exact Hlen|apply pointsIn_empty].
  destruct (addSphere n 0 2 0 (45 # 10) _ (Some (a1, c1, i1)))
    as [[[a2 c2] i2]|] eqn:E2;
    [|rewrite !addSphere_None in H; discriminate].
  apply (addSphere_points n _ _ _ _ _ buddhaBodies) in E2 as (I2 & P2 & L2);
    [|cbn; tauto|exact I1|lia|exact P1].
  destruct (addSphere n 0 (75 # 10) 0 3 _ (Some (a2, c2, i2)))
    as [[[a3 c3] i3]|] eqn:E3;
    [|rewrite !addSphere_None in H; discriminate].
  apply (addSphere_points n _ _ _ _ _ buddhaBodies) in E3 as (I3 & P3 & L3);
    [|cbn; tauto|exact I2|lia|exact P2].
  destruct (addSphere n (-45 # 10) 1 0 2 _ (Some (a3, c3, i3)))
    as [[[a4 c4] i4]|] eqn:E4;
    [|rewrite !addSphere_None in H; discriminate].
  apply (addSphere_points n _ _ _ _ _ buddhaBodies) in E4 as (I4 & P4 & L4);
    [|cbn; tauto|exact I3|lia|exact P3].
  destruct (addSphere n (45 # 10) 1 0 2 _ (Some (a4, c4, i4)))
    as [[[a5 c5] i5]|] eqn:E5; [|discriminate].
  apply (addSphere_points n _ _ _ _ _ buddhaBodies) in E5 as (I5 & P5 & L5);
    [|cbn; tauto|exact I4|lia|exact P4].
  destruct (fillLoop_pointsIn i5 n haloSample buddhaBodies a5 c5 arr c')
    as [P6 L6]; [cbn; tauto|exact I5|lia|exact P5|exact H|].
  split; [congruence|exact P6].
Qed.

Lemma fold_generateStep_None n gs :
  fold_left (generateStep n) gs None = None.
Proof. induction gs; auto. Qed.

(** What [generateShapes] stores under a generator's key is that
    generator's result on a fresh array. *)
Lemma generate_fold_fields n gs :
  NoDup (map fst gs) -> forall t c t' c',
  fold_left (generateStep n) gs (Some (t, c)) = Some (t', c') ->
  Forall (fun g : string * Generator =>
            exists arr c0 c1,
              t' !! fst g = Some arr
              /\ snd g n (freshArray n) c0 = Some (arr, c1)) gs
  /\ (forall name, ~ In name (map fst gs) -> t' !! name = t !! name).
Proof.
  induction gs as [|[name0 g] gs IH]; intros Hnd t c t' c' H.
  - cbn in H. injection H as <- <-. split; [constructor|auto].
  - cbn [map fst] in Hnd. inversion Hnd as [|? ? Hnotin Hnd']; subst.
    rewrite list_elem_of_In in Hnotin.
    cbn [fold_left generateStep fst snd] in H.
    destruct (g n (freshArray n) c) as [[arr c1]|] eqn:Eg;
      [|rewrite fold_generateStep_None in H; discriminate].
    destruct (IH Hnd' _ _ _ _ H) as [Hall Hout].
    split.
    + constructor; [|exact Hall]. exists arr, c, c1. cbn [fst snd].
      split; [|exact Eg]. rewrite Hout by exact Hnotin.
      apply lookup_insert_eq.
    + intros name Hn. cbn [map fst In] in Hn.
      rewrite Hout by tauto. apply lookup_insert_ne. tauto.
Qed.

(** Each generator with the key [generateShapes] stores it under and
    the bodies of its loops. *)
Definition library (n : nat) : list (string * Generator * list Sampler) :=
  [ ("earth"%string, generateEarth, [earthSample n]);
    ("heart"%string, generateHeart, [heartSample]);
    ("flower"%string, generateFlower, [flowerSample]);
    ("saturn"%string, generateSaturn, [planetSample; ringSample]);
    ("buddha"%string, generateBuddha, buddhaBodies);
    ("galaxy"%string, generateGalaxy, [galaxySample]);
    ("dna"%string, generateDNA, [dnaSample]);
    ("cube"%string, generateQuantumCube, [cubeSample]);
    ("mobius"%string, generateMobiusStrip, [mobiusSample]) ].

Lemma library_generated n :
  Forall (fun e : string * Generator * list Sampler =>
            generatedBy n (snd (fst e)) (snd e)
            /\ Forall boundedSampler (snd e)) (library n).
Proof.
  unfold library.
  apply Forall_cons_2; [cbn [fst snd]; split|].
  { intros a c arr c' Hl H.
    apply (fill_generated n (earthSample n) _ a c arr c');
      [left; reflexivity|exact Hl|exact H]. }
  { apply Forall_cons_2; [apply bounded_earth|apply Forall_nil_2]. }
  apply Forall_cons_2; [cbn [fst snd]; split|].
  { intros a c arr c' Hl H.
    apply (fill_generated n heartSample _ a c arr c');
      [left; reflexivity|exact Hl|exact H]. }
  { apply Forall_cons_2; [apply bounded_heart|apply Forall_nil_2]. }
  apply Forall_cons_2; [cbn [fst snd]; split|].
  { intros a c arr c' Hl H.
    apply (fill_generated n flowerSample _ a c arr c');
      [left; reflexivity|exact Hl|exact H]. }
  { apply Forall_cons_2; [apply bounded_flower|apply Forall_nil_2]. }
  apply Forall_cons_2; [cbn [fst snd]; split|].
  { apply generated_saturn. }
  { apply Forall_cons_2; [apply bounded_planet|].
    apply Forall_cons_2; [apply bounded_ring|apply Forall_nil_2]. }
  apply Forall_cons_2; [cbn [fst snd]; split|].
  { apply generated_buddha. }
  { unfold buddhaBodies.
    repeat (apply Forall_cons_2; [apply bounded_sphere; vm_compute; discriminate|]).
    apply Forall_cons_2; [apply bounded_halo|apply Forall_nil_2]. }
  apply Forall_cons_2; [cbn [fst snd]; split|].
  { intros a c arr c' Hl H.
    apply (fill_generated n galaxySample _ a c arr c');
      [left; reflexivity|exact Hl|exact H]. }
  { apply Forall_cons_2; [apply bounded_galaxy|apply Forall_nil_2]. }
  apply Forall_cons_2; [cbn [fst snd]; split|].
  { intros a c arr c' Hl H.
    apply (fill_generated n dnaSample _ a c arr c');
      [left; reflexivity|exact Hl|exact H]. }
  { apply Forall_cons_2; [apply bounded_dna|apply Forall_nil_2]. }
  apply Forall_cons_2; [cbn [fst snd]; split|].
  { intros a c arr c' Hl H.
    apply (fill_generated n cubeSample _ a c arr c');
      [left; reflexivity|exact Hl|exact H]. }
  { apply Forall_cons_2; [apply bounded_cube|apply Forall_nil_2]. }
  apply Forall_cons_2; [cbn [fst snd]; split|].
  { intros a c arr c' Hl H.
    apply (fill_generated n mobiusSample _ a c arr c');
      [left; reflexivity|exact Hl|exact H]. }
  { apply Forall_cons_2; [apply bounded_mobius|apply Forall_nil_2]. }
  apply Forall_nil_2.
Qed.

(** The shape library for [n] particles is generated: [generateShapes]
    succeeds, and under each generator's key it stores that generator's
    result on a fresh array: [n * 3] slots in which every particle's
    three slots hold a point computed by one of the generator's loop
    bodies, inside the box [-30, 30]^3. *)
Definition fieldsGenerated (n : nat) : Prop :=
  map fst (library n) = generators
  /\ forall c, exists targets c',
       generateShapes n c = Some (targets, c')
       /\ forall name g ss, In (name, g, ss) (library n) ->
            exists arr c0 c1,
              targets !! name = Some arr
              /\ g n (freshArray n) c0 = Some (arr, c1)
              /\ length arr = (n * 3)%nat
              /\ forall i, (i < n)%nat ->
                   exists sample ci p ci',
                     In sample ss /\ sample i ci = Some (p, ci')
                     /\ get3 arr (i * 3) = Some p /\ bounded p.

(** The shape library for [n] particles is complete. *)
Definition fieldsComplete (n : nat) : Prop :=
  (forall name g, In (name, g) generators -> complete n g)
  /\ (forall c, exists targets c',
        generateShapes n c = Some (targets, c')
        /\ (forall name, is_Some (targets !! name) <-> In name shapeNames)
        /\ (forall name arr, targets !! name = Some arr ->
              length arr = (n * 3)%nat)).

Lemma generators_NoDup : NoDup (map fst generators).
Proof.
  unfold generators. cbn [map fst].
  repeat (apply NoDup_cons_2;
          [rewrite list_elem_of_In; cbn; intuition discriminate|]).
  apply NoDup_nil_2.
Qed.

(** C9.  For a host whose [Math.random()] stays in [0, 1), whose
    [Math.acos] is defined on [-1, 1] and whose sine and cosine stay in
    [-1, 1], and for every particle count [n] and every sequence of
    random draws: [generateShapes] succeeds and stores exactly the nine
    fields (earth, heart, flower, saturn, buddha, galaxy, dna, cube,
    mobius); the field under each name is the result of that name's
    generator on a fresh array, of exactly [n * 3] slots, in which the
    three slots of every particle index hold a point computed by one of
    the generator's loop bodies (every slot written), with no NaN
    coordinate and every coordinate at most 30 in absolute value
    (finite); and each generator returns the same array from any initial
    content. *)
Theorem shape_fields_complete (n : nat) : fieldsComplete n /\ fieldsGenerated n.
Proof.
  assert (Hall : Forall (fun g : string * Generator => complete n (snd g))
                   generators).
  { eapply Forall_impl; [apply fills_generators|].
    intros [name g] H. apply fills_complete, H. }
  split; [split|split].
  - intros name g Hin. rewrite Forall_forall in Hall.
    apply (Hall (name, g)). apply list_elem_of_In. exact Hin.
  - intros c. unfold generateShapes.
    destruct (generate_fold n generators Hall ∅ c) as (t' & c' & -> & Hdom & Hlen).
    exists t', c'. split; [reflexivity|]. split.
    + intros name. rewrite Hdom, lookup_empty. split.
      * intros [[x Hx]|H]; [discriminate|exact H].
      * intros H. right. exact H.
    + intros name arr H. destruct (Hlen name arr H) as [He|Hl]; [|exact Hl].
      rewrite lookup_empty in He. discriminate.
  - reflexivity.
  - intros c. unfold generateShapes.
    destruct (generate_fold n generators Hall ∅ c) as (t' & c' & Hgen & _ & _).
    exists t', c'. split; [exact Hgen|].
    destruct (generate_fold_fields n generators generators_NoDup ∅ c t' c' Hgen)
      as [Hf _].
    intros name g ss Hin.
    pose proof (library_generated n) as Hlib. rewrite Forall_forall in Hlib.
    destruct (Hlib (name, g, ss)) as [Hg Hb];
      [apply list_elem_of_In; exact Hin|].
    rewrite Forall_forall in Hf.
    destruct (Hf (name, g)) as (arr & c0 & c1 & Ht & Hrun).
    { apply list_elem_of_In. change generators with (map fst (library n)).
      apply (in_map fst _ _ Hin). }
    cbn [fst snd] in *.
    destruct (Hg (freshArray n) c0 arr c1) as [Hlen Hpts];
      [rewrite length_freshArray; lia|exact Hrun|].
    exists arr, c0, c1. split; [exact Ht|]. split; [exact Hrun|].
    split; [rewrite Hlen; apply length_freshArray|].
    intros i Hi.
    destruct (Hpts i ltac:(lia)) as (sample & ci & p & ci' & Hs & Es & Hg3).
    exists sample, ci, p, ci'. split; [exact Hs|]. split; [exact Es|].
    split; [exact Hg3|].
    rewrite Forall_forall in Hb.
    apply (Hb sample (proj2 (list_elem_of_In _ _) Hs) i ci p ci' Es).
Qed.

End WithMath.
End ShapeFields.

Lemma exampleMath_random k :
  0 <= Math_random (MathLib := exampleMath) k
  /\ Math_random (MathLib := exampleMath) k < 1.
Proof. cbn. split; lra. Qed.

Lemma exampleMath_acos x :
  -1 <= x -> x <= 1 -> is_Some (Math_acos (MathLib := exampleMath) x).
Proof.
  intros H1 H2. cbn. apply Qle_bool_iff in H1, H2. rewrite H1, H2.
  eexists; reflexivity.
Qed.

Lemma exampleMath_sin x :
  -1 <= Math_sin (MathLib := exampleMath) x
  /\ Math_sin (MathLib := exampleMath) x <= 1.
Proof. cbn. split; lra. Qed.

Lemma exampleMath_cos x :
  -1 <= Math_cos (MathLib := exampleMath) x
  /\ Math_cos (MathLib := exampleMath) x <= 1.
Proof. cbn. split; lra. Qed.

Lemma shape_fields_complete_witness :
  fieldsComplete (M := exampleMath) Config.PARTICLE_COUNT
  /\ fieldsGenerated (M := exampleMath) Config.PARTICLE_COUNT.
Proof.
  exact (shape_fields_complete (M := exampleMath) exampleMath_random
           exampleMath_acos exampleMath_sin exampleMath_cos
           Config.PARTICLE_COUNT).
Defined.

(** ** Worked instances *)

(** Two particles, one inside the grid's domain and one outside it. *)
Definition calmEnv : Physics.Env :=
  {| Physics.e_shape := "heart"; Physics.e_effectiveScale := 1;
     Physics.e_time := 0; Physics.e_shockwave := 0;
     Physics.e_mouse_x := -9999; Physics.e_interact := (0, 0);
     Physics.e_targets := [0; 0; 0; 100; 0; 0] |}.

Definition twoParticles : Physics.Loop :=
  {| Physics.pos := [0; 0; 0; 100; 0; 0];
     Physics.vel := [0; 0; 0; 0; 0; 0];
     Physics.grid := {| Grid.gridHead := replicate (Z.to_nat gridCells) 0%Z;
                        Grid.gridNext := [0; 0]%Z |};
     Physics.calls := O |}.

Lemma grid_rebuild_partition_witness :
  length (Grid.gridHead (Physics.grid twoParticles)) = Z.to_nat gridCells
  /\ (2 <= length (Grid.gridNext (Physics.grid twoParticles)))%nat
  /\ partitioned 2 (Physics.physicsLoop (M := exampleMath) 2 calmEnv twoParticles).
Proof.
  assert (H1 : length (Grid.gridHead (Physics.grid twoParticles))
               = Z.to_nat gridCells) by apply length_replicate.
  assert (H2 : (2 <= length (Grid.gridNext (Physics.grid twoParticles)))%nat)
    by (cbn; lia).
  exact (conj H1 (conj H2
           (grid_rebuild_partition (M := exampleMath) calmEnv 2 twoParticles
              H1 H2))).
Defined.

(** Two particles one unit apart. *)
Lemma separated_unit_apart : separated [0; 0; 0; 1; 0; 0].
Proof.
  intros i j p q Hne Hp Hq.
  destruct i as [|[|i]], j as [|[|j]]; try congruence; cbn in Hp, Hq;
    try discriminate; injection Hp as <-; injection Hq as <-;
    vm_compute; discriminate.
Qed.

Lemma no_overlap_pass_identity_witness :
  separated [0; 0; 0; 1; 0; 0]
  /\ Physics.resolveCollisions (M := exampleMath) 2
       (Physics.grid (Physics.physicsLoop (M := exampleMath) 2 calmEnv
                        twoParticles))
       [0; 0; 0; 1; 0; 0]
     = [0; 0; 0; 1; 0; 0].
Proof.
  split; [exact separated_unit_apart|].
  exact (no_overlap_pass_identity (M := exampleMath) 2 _ _ separated_unit_apart).
Defined.

(** ** Degenerate geometry *)

Section Degenerate.
Import IEEE.


Definition nonfinite (x : spec_float) : Prop :=
  match x with
  | S754_infinity _ | S754_nan => True
  | _ => False
  end.

Definition posinf_or_nan (x : spec_float) : Prop :=
  x = S754_infinity false \/ x = S754_nan.

Definition is_zero (x : spec_float) : Prop :=
  match x with
  | S754_zero _ => True
  | _ => False
  end.

Lemma fdiv_zero_nonfinite x z : is_zero z -> nonfinite (fdiv x z).
Proof. destruct z; [|contradiction..]. intros _. destruct x; exact I. Qed.

Lemma fmul_nonfinite x t : nonfinite t -> nonfinite (fmul x t).
Proof. destruct t; try contradiction; intros _; destruct x; exact I. Qed.

Lemma fmul_zero_nonfinite z t : is_zero z -> nonfinite t -> fmul z t = S754_nan.
Proof. destruct z; try contradiction. destruct t; try contradiction; reflexivity. Qed.

Lemma fadd_nonfinite x t : nonfinite t -> nonfinite (fadd x t).
Proof.
  destruct t as [| s | |]; try contradiction; intros _.
  - destruct x as [| [] | |], s; exact I.
  - destruct x; exact I.
Qed.

Lemma fsub_nonfinite x t : nonfinite t -> nonfinite (fsub x t).
Proof.
  destruct t as [| s | |]; try contradiction; intros _.
  - destruct x as [| [] | |], s; exact I.
  - destruct x; exact I.
Qed.

Lemma fmul_square_nonfinite x : nonfinite x -> posinf_or_nan (fmul x x).
Proof.
  destruct x as [| s | |]; try contradiction; intros _.
  - left. destruct s; reflexivity.
  - right. reflexivity.
Qed.

Lemma fadd_posinf_or_nan x y :
  posinf_or_nan x -> posinf_or_nan y -> posinf_or_nan (fadd x y).
Proof.
  intros [->| ->] [->| ->]; [left|right|right|right]; reflexivity.
Qed.

Lemma flt_posinf_or_nan x y : posinf_or_nan x -> flt x y = false.
Proof. intros [->| ->]; destruct y as [| [] | |]; reflexivity. Qed.


Lemma fsub_nan_l y : fsub S754_nan y = S754_nan.
Proof. reflexivity. Qed.

Lemma fmul_nan_l y : fmul S754_nan y = S754_nan.
Proof. reflexivity. Qed.

Lemma fmul_nan_r x : fmul x S754_nan = S754_nan.
Proof. destruct x; reflexivity. Qed.

Lemma fadd_nan_r x : fadd x S754_nan = S754_nan.
Proof. destruct x; reflexivity. Qed.

Lemma flt_nan_r x : flt x S754_nan = false.
Proof. destruct x; reflexivity. Qed.

Section WithFloatMath.
Context {FM : FloatMath}.

Lemma interaction_degenerate origin direction :
  is_zero (vz direction) ->
  nonfinite (vx (fst (interaction origin direction)))
  /\ nonfinite (vy (fst (interaction origin direction)))
  /\ vz (snd (interaction origin direction)) = S754_nan.
Proof.
  intros Hz. unfold interaction. cbn [fst snd addV multiplyScalar vx vy vz].
  pose proof (fdiv_zero_nonfinite (fsub fzero (vz origin)) _ Hz) as Ht.
  fold (distanceToPlane origin direction) in Ht.
  repeat split.
  - apply fadd_nonfinite, fmul_nonfinite, Ht.
  - apply fadd_nonfinite, fmul_nonfinite, Ht.
  - apply fmul_zero_nonfinite; assumption.
Qed.

Lemma mouseRepulsion_nonfinite shape mouse_x p px py :
  nonfinite (vx p) -> nonfinite (vy p) ->
  mouseRepulsion shape mouse_x p px py = (fzero, fzero, fzero).
Proof.
  intros Hx Hy. unfold mouseRepulsion.
  rewrite (flt_posinf_or_nan (fadd _ _)).
  - rewrite andb_false_r. reflexivity.
  - apply fadd_posinf_or_nan; apply fmul_square_nonfinite, fsub_nonfinite;
      assumption.
Qed.

Lemma sphereHit_nan_direction scale origin dir :
  vz dir = S754_nan -> sphereHit scale origin dir = false.
Proof.
  intros Hz. unfold sphereHit. cbv zeta. rewrite Hz.
  rewrite fmul_nan_l, fadd_nan_r, !fmul_nan_r, ?fmul_nan_l, fsub_nan_l.
  apply flt_nan_r.
Qed.

End WithFloatMath.

(** Numerically equal stored values. *)
Definition same (x y : spec_float) : Prop := SFeqb x y = true.

Definition zero_or_nan (x : spec_float) : Prop := is_zero x \/ x = S754_nan.

Lemma fsub_same x y : same x y -> zero_or_nan (fsub x y).
Proof.
  unfold same, SFeqb.
  destruct x as [[]|[]| |[] mx ex], y as [[]|[]| |[] my ey]; cbn;
    try discriminate; try (intros _; left; exact I);
    try (intros _; right; reflexivity).
  - destruct (Z.compare_spec ex ey); try discriminate.
    destruct (Pos.compare_cont Eq mx my) eqn:Ec; try discriminate.
    change (Pos.compare mx my = Eq) in Ec. apply Pos.compare_eq in Ec.
    subst. intros _. left.
    unfold fsub, SFsub. rewrite Z.sub_diag. exact I.
  - destruct (Z.compare_spec ex ey); try discriminate.
    destruct (Pos.compare_cont Eq mx my) eqn:Ec; try discriminate.
    change (Pos.compare mx my = Eq) in Ec. apply Pos.compare_eq in Ec.
    subst. intros _. left.
    unfold fsub, SFsub. rewrite Z.sub_diag. exact I.
Qed.

Lemma fmul_square_zero_or_nan x :
  zero_or_nan x -> fmul x x = fzero \/ fmul x x = S754_nan.
Proof.
  intros [H| ->]; [|right; reflexivity].
  destruct x as [s| | |]; try contradiction. left. destruct s; reflexivity.
Qed.

Lemma fadd_zero_or_nan x y :
  x = fzero \/ x = S754_nan -> y = fzero \/ y = S754_nan ->
  fadd x y = fzero \/ fadd x y = S754_nan.
Proof. intros [->| ->] [->| ->]; auto. Qed.

Lemma flt_zero_or_nan x : x = fzero \/ x = S754_nan -> flt fzero x = false.
Proof. intros [->| ->]; reflexivity. Qed.

Lemma separate_coincident i3 n3 px py pz nx ny nz pos :
  get3 pos n3 = Some (nx, ny, nz) ->
  same px nx -> same py ny -> same pz nz ->
  separate i3 n3 (px, py, pz) pos = pos.
Proof.
  intros Hq Hx Hy Hz. unfold separate. rewrite Hq.
  rewrite (flt_zero_or_nan (fadd _ _)); [reflexivity|].
  repeat apply fadd_zero_or_nan; apply fmul_square_zero_or_nan, fsub_same;
    assumption.
Qed.

(** C10.  Degenerate geometry is skipped.  For a ray whose direction has
    a zero z-component (of either sign), whatever the other inputs: the
    pointer force on every particle is (0, 0, 0), so the velocity and
    position the integrator stores are those of a frame with no pointer
    force; and the ray/sphere test reports no hit.  For a pair of
    particles whose stored coordinates are numerically equal the pair
    correction writes nothing: the position buffer is returned as it
    was.  No NaN or infinity produced by these inputs reaches a
    position slot. *)
Theorem degenerate_geometry_skipped {FM : FloatMath}
    (origin direction : vec3) (zsign : bool) :
  let ray := {| vx := vx direction; vy := vy direction;
                vz := S754_zero zsign |} in
  (forall shape mouse_x px py,
     mouseRepulsion shape mouse_x (fst (interaction origin ray)) px py
     = (fzero, fzero, fzero))
  /\ (forall shape mouse_x px py v p f a,
        integrate v p f
          (fst (fst (mouseRepulsion shape mouse_x
                       (fst (interaction origin ray)) px py))) a
        = integrate v p f fzero a)
  /\ (forall effectiveScale, rayHit effectiveScale origin ray = false)
  /\ (forall i3 n3 px py pz nx ny nz pos,
        get3 pos n3 = Some (nx, ny, nz) ->
        same px nx -> same py ny -> same pz nz ->
        separate i3 n3 (px, py, pz) pos = pos).
Proof.
  cbv zeta. set (ray := {| vx := _; vy := _; vz := _ |}).
  destruct (interaction_degenerate origin ray I) as (Hx & Hy & Hz).
  assert (Hr : forall shape mouse_x px py,
            mouseRepulsion shape mouse_x (fst (interaction origin ray)) px py
            = (fzero, fzero, fzero)).
  { intros. apply mouseRepulsion_nonfinite; assumption. }
  split; [exact Hr|]. split; [|split].
  - intros. rewrite Hr. reflexivity.
  - intros s. unfold rayHit. apply sphereHit_nan_direction. exact Hz.
  - intros. eapply separate_coincident; eassumption.
Qed.

End Degenerate.

(** The same paths on regular inputs: a ray straight down the z axis
    from the camera meets the plane at the origin and hits the unit-scale
    sphere; two particles 0.125 apart are moved by the pair correction. *)
Example regular_ray_hits :
  let origin := IEEE.mkVec3 IEEE.fzero IEEE.fzero (IEEE.ofZ 45) in
  let ray := IEEE.mkVec3 IEEE.fzero IEEE.fzero (IEEE.ofZ (-1)) in
  fst (IEEE.interaction origin ray)
  = IEEE.mkVec3 IEEE.fzero IEEE.fzero IEEE.fzero
  /\ IEEE.rayHit (IEEE.ofZ 1) origin ray = true.
Proof. vm_compute. split; reflexivity. Qed.

Example overlapping_pair_separated :
  let eighth := IEEE.fdiv (IEEE.ofZ 1) (IEEE.ofZ 8) in
  let z := IEEE.fzero in
  IEEE.separate 0 3 (z, z, z) [z; z; z; eighth; z; z]
  = [IEEE.fround (IEEE.fdiv (IEEE.ofZ (-1)) (IEEE.ofZ 80)); z; z;
     IEEE.fround (IEEE.fdiv (IEEE.ofZ 11) (IEEE.ofZ 80)); z; z].
Proof. vm_compute. reflexivity. Qed.

(** A camera at (0, 0, 45) with a ray along the x axis, parallel to the
    interaction plane, and two particles stored at one position. *)
Definition exampleFloatMath : IEEE.FloatMath :=
  {| IEEE.F_atan2 := fun y _ => y; IEEE.F_cos := fun x => x;
     IEEE.F_sin := fun x => x |}.

Lemma degenerate_geometry_skipped_witness :
  let origin := IEEE.mkVec3 IEEE.fzero IEEE.fzero (IEEE.ofZ 45) in
  let ray := IEEE.mkVec3 (IEEE.ofZ 1) IEEE.fzero (S754_zero true) in
  let one := IEEE.ofZ 1 in
  IEEE.mouseRepulsion (FM := exampleFloatMath) "heart" IEEE.fzero
    (fst (IEEE.interaction origin ray)) one one
  = (IEEE.fzero, IEEE.fzero, IEEE.fzero)
  /\ IEEE.rayHit one origin ray = false
  /\ IEEE.separate 0 3 (one, one, one) [one; one; one; one; one; one]
     = [one; one; one; one; one; one].
Proof.
  cbv zeta.
  destruct (degenerate_geometry_skipped (FM := exampleFloatMath)
              (IEEE.mkVec3 IEEE.fzero IEEE.fzero (IEEE.ofZ 45))
              (IEEE.mkVec3 (IEEE.ofZ 1) IEEE.fzero IEEE.fzero) true)
    as (H1 & _ & H2 & H3).
  split; [apply H1|]. split; [apply H2|].
  apply (H3 O 3%nat _ _ _ (IEEE.ofZ 1) (IEEE.ofZ 1) (IEEE.ofZ 1));
    reflexivity.
Defined.


(** ** The collision pass on the stored values *)

Section FloatPass.
Import IEEE.

Lemma separate_calm i3 n3 p pos :
  (forall q, get3 pos n3 = Some q -> overlapping p q = false) ->
  separate i3 n3 p pos = pos.
Proof.
  intros H. unfold separate. destruct p as [[px py] pz].
  destruct (get3 pos n3) as [[[nx ny] nz]|]; [|reflexivity].
  specialize (H _ eq_refl). unfold overlapping, d2 in H. rewrite H.
  reflexivity.
Qed.

(** No pair of distinct particles passes the guard of line 966: the
    squared distance the pass computes for it is not in (0, minSq). *)
Definition noComputedOverlap (pos : list spec_float) : Prop :=
  forall i j p q, i <> j -> get3 pos (i * 3) = Some p ->
    get3 pos (j * 3) = Some q -> overlapping p q = false.

Lemma visit_calm i p neighbor pos :
  noComputedOverlap pos -> get3 pos (i * 3) = Some p ->
  visit i p neighbor pos = pos.
Proof.
  intros Hsep Hp. unfold visit. destruct neighbor as [z|]; [|reflexivity].
  destruct (Z.eqb_spec z (Z.of_nat i)); [reflexivity|].
  destruct (Z.leb_spec 0 z); [|reflexivity].
  apply separate_calm. intros q Hq. apply (Hsep i (Z.to_nat z)); auto. lia.
Qed.

Lemma neighborWalk_calm i p next neighbor checks pos :
  noComputedOverlap pos -> get3 pos (i * 3) = Some p ->
  fst (neighborWalk i p next neighbor checks pos) = pos.
Proof.
  intros Hsep Hp.
  funelim (neighborWalk i p next neighbor checks pos); cbn [fst]; auto.
  rewrite (visit_calm _ _ _ _ Hsep Hp) in *. auto.
Qed.

Lemma resolveParticle_calm g i pos :
  noComputedOverlap pos -> fst (resolveParticle g i pos) = pos.
Proof.
  intros Hsep. unfold resolveParticle.
  destruct (get3 pos (i * 3)) as [[[px py] pz]|] eqn:Hp; [|reflexivity].
  destruct (cellOf px py pz); [|reflexivity].
  apply neighborWalk_calm; assumption.
Qed.

(** Two stored single-precision positions in one cell: the exact
    distance between them is above 0.15, the squared distance the pass
    computes is 0.022499999999999992, below minSq = 0.0225. *)
Definition closePair : list spec_float :=
  [ dyadic 629129 (-22); dyadic 9360099 (-33); dyadic 16051143 (-45);
    dyadic 11516995 (-56); fzero; fzero ].

(** The grid the particle loop builds for them: both in the cell of
    coordinates (30, 30, 30). *)
Definition closePairGrid : Grid.Arrays :=
  {| Grid.gridHead := <[ Z.to_nat 109830 := 1%Z ]> (replicate (Z.to_nat 216000) (-1)%Z);
     Grid.gridNext := [-1; 0]%Z |}.

(** The claim C7 as stated fails on the stored values: every pairwise
    distance is at least COLLISION_RADIUS, and the pass moves the second
    particle (its y slot goes from 0 to about -1.0e-19). *)
Lemma no_overlap_pass_moves_pair :
  Forall (fun x => fround x = x) closePair
  /\ separated (map value closePair)
  /\ cellOf (dyadic 629129 (-22)) (dyadic 9360099 (-33)) (dyadic 16051143 (-45))
     = Some 109830%Z
  /\ d2 (dyadic 629129 (-22), dyadic 9360099 (-33), dyadic 16051143 (-45))
        (dyadic 11516995 (-56), fzero, fzero)
     = dyadic 810647932926689 (-55)
  /\ minSq = dyadic 3242591731706757 (-57)
  /\ closePair !! 4%nat = Some fzero
  /\ resolveCollisions 2 closePairGrid closePair !! 4%nat
     = Some (S754_finite true 8375274810900480 (-116))
  /\ resolveCollisions 2 closePairGrid closePair <> closePair.
Proof.
  split; [repeat constructor|].
  split.
  { intros i j p q Hne Hp Hq.
    destruct i as [|[|i]], j as [|[|j]]; try congruence; cbn in Hp, Hq;
      try discriminate; injection Hp as <-; injection Hq as <-;
      vm_compute; discriminate. }
  split; [vm_compute; reflexivity|].
  split; [vm_compute; reflexivity|].
  split; [vm_compute; reflexivity|].
  split; [reflexivity|].
  split; [vm_compute; reflexivity|].
  intros H. apply (f_equal (fun l => l !! 4%nat)) in H.
  vm_compute in H. discriminate H.
Qed.

(** C7, amended.  If for every two distinct particles the squared
    distance the pass computes (in double arithmetic, on the values the
    buffer holds) is not in the open interval (0, minSq), then one
    collision pass over [n] particles and any grid returns the buffer as
    it was. *)
Theorem no_computed_overlap_pass_identity (n : nat) (g : Grid.Arrays)
    (pos : list spec_float) :
  noComputedOverlap pos -> resolveCollisions n g pos = pos.
Proof.
  intros Hsep. unfold resolveCollisions. apply forLoop_fixed.
  intros i _. apply resolveParticle_calm, Hsep.
Qed.

End FloatPass.

(** Two particles one unit apart, in different cells and in one. *)
Definition unitPair : list spec_float :=
  [ IEEE.fzero; IEEE.fzero; IEEE.fzero; IEEE.ofZ 1; IEEE.fzero; IEEE.fzero ].

Lemma unitPair_calm : noComputedOverlap unitPair.
Proof.
  intros i j p q Hne Hp Hq.
  destruct i as [|[|i]], j as [|[|j]]; try congruence; cbn in Hp, Hq;
    try discriminate; injection Hp as <-; injection Hq as <-;
    vm_compute; reflexivity.
Qed.

Lemma no_computed_overlap_pass_identity_witness :
  noComputedOverlap unitPair
  /\ IEEE.resolveCollisions 2 closePairGrid unitPair = unitPair.
Proof.
  split; [exact unitPair_calm|].
  exact (no_computed_overlap_pass_identity 2 closePairGrid unitPair
           unitPair_calm).
Defined.
(** ** Scalars of a frame *)

Section FrameScalars.
Import Sim.

Lemma sumFirst_bounds n data :
  Forall (fun b => (0 <= b <= 255)%Z) data ->
  (0 <= sumFirst n data <= 255 * Z.of_nat n)%Z.
Proof.
  intros H. unfold sumFirst. revert n.
  induction H as [|b data Hb _ IH]; intros n.
  - rewrite take_nil. cbn. lia.
  - destruct n as [|n]; cbn [take foldr]; [lia|].
    specialize (IH n). lia.
Qed.

Lemma lerp_between x y t :
  0 <= t -> t <= 1 -> 0 <= x -> x <= 1 -> 0 <= y -> y <= 1 ->
  0 <= lerp x y t /\ lerp x y t <= 1.
Proof. intros. unfold lerp. split; nra. Qed.

Lemma updateAudio_range audio s :
  match audio with
  | Some data => Forall (fun b => (0 <= b <= 255)%Z) data
  | None => True
  end ->
  0 <= bassFactor s -> bassFactor s <= 1 ->
  0 <= shockwave s -> shockwave s <= 2 ->
  let s' := updateAudioAnalysis audio s in
  0 <= bassFactor s' /\ bassFactor s' <= 1
  /\ 0 <= shockwave s' /\ shockwave s' <= 2
  /\ time s' = time s.
Proof.
  intros Hd Hb0 Hb1 Hs0 Hs2. destruct audio as [data|];
    unfold updateAudioAnalysis; cbv zeta.
  - set (lowCount := Qfloor (inject_Z (Z.of_nat (length data)) * (1 # 10))).
    set (lowAvg := if (0 <? lowCount)%Z
                   then inject_Z (sumFirst (Z.to_nat lowCount) data)
                        / inject_Z lowCount
                   else 0).
    change (bassFactor (set_bassFactor ?v s)) with v.
    assert (Havg : 0 <= lowAvg / 255 /\ lowAvg / 255 <= 1).
    { assert (H : 0 <= lowAvg /\ lowAvg <= 255).
      { subst lowAvg. destruct (Z.ltb_spec 0 lowCount) as [Hpos|]; [|lra].
        pose proof (sumFirst_bounds (Z.to_nat lowCount) data Hd) as [L U].
        rewrite Z2Nat.id in U by lia.
        assert (Hc : 0 < inject_Z lowCount)
          by (change 0 with (inject_Z 0); rewrite <- Zlt_Qlt; exact Hpos).
        split.
        - apply Qle_shift_div_l; [exact Hc|]. rewrite Qmult_0_l.
          change 0 with (inject_Z 0). rewrite <- Zle_Qle. exact L.
        - apply Qle_shift_div_r; [exact Hc|].
          change 255 with (inject_Z 255). rewrite <- inject_Z_mult, <- Zle_Qle.
          exact U. }
      destruct H. split; [apply Qle_shift_div_l|apply Qle_shift_div_r]; lra. }
    destruct Havg as [A0 A1].
    destruct (lerp_between (bassFactor s) (lowAvg / 255) (3 # 10)) as [B0 B1];
      try lra.
    cbn [bassFactor set_bassFactor].
    destruct (Qltb (8 # 10) (lerp (bassFactor s) (lowAvg / 255) (3 # 10)));
      cbn [bassFactor shockwave time set_bassFactor set_shockwave];
      repeat split; try assumption.
    + apply Q.min_glb; lra.
    + apply Q.le_min_r.
  - cbn [bassFactor shockwave time set_bassFactor]. repeat split; try assumption; lra.
Qed.

(** The ranges of the audio scalars, and well-formed analyser data. *)
Definition scalarsInRange (s : State) : Prop :=
  0 <= bassFactor s /\ bassFactor s <= 1
  /\ 0 <= shockwave s /\ shockwave s <= 2.

Definition byteData (audio : option (list Z)) : Prop :=
  match audio with
  | Some data => Forall (fun b => (0 <= b <= 255)%Z) data
  | None => True
  end.

(** X1.  A frame keeps bassFactor in [0, 1] and shockwave in [0, 2],
    whatever the audio bytes, the hand and the pinch do, and advances the
    clock by 0.01. *)
Theorem frame_scalars_in_range {M : MathLib} (i : FrameInput) (s : State) :
  byteData (in_audio i) -> scalarsInRange s ->
  scalarsInRange (fst (fst (animateScalars i s)))
  /\ time (fst (fst (animateScalars i s))) == time s + (1 # 100).
Proof.
  intros Hd (Hb0 & Hb1 & Hs0 & Hs2). unfold animateScalars, scalarsInRange.
  set (s2 := set_shockwave _ (set_time _ s)).
  destruct (updateAudio_range (in_audio i) s2 Hd) as (B0 & B1 & S0 & S2 & T);
    try assumption; try (cbn; lra).
  set (s3 := updateAudioAnalysis (in_audio i) s2) in *.
  set (s4 := if negb (isHandDetected s3) then _ else _).
  assert (H4 : bassFactor s4 = bassFactor s3 /\ shockwave s4 = shockwave s3
               /\ time s4 = time s3).
  { subst s4. destruct (negb (isHandDetected s3)); repeat split. }
  destruct H4 as (H4b & H4s & H4t).
  assert (Ht : time s3 = time s + (1 # 100)) by (rewrite T; reflexivity).
  clearbody s2 s3 s4. unfold pinchDetection, pinchBlock.
  destruct (hittable s4), (in_hit i), (isPinching s4), (pinchTriggered s4);
    cbn; rewrite ?H4b, ?H4s, ?H4t, ?Ht; repeat split; try assumption;
    try lra; reflexivity.
Qed.

End FrameScalars.

(** Full-scale bass under a hit. *)
Definition loudHit : Sim.FrameInput :=
  {| Sim.in_audio := Some [255; 255; 255; 255; 255; 255; 255; 255; 255;
                           255]%Z;
     Sim.in_hit := true; Sim.in_interact := (0, 0) |}.

Lemma frame_scalars_in_range_witness :
  byteData (Sim.in_audio loudHit) /\ scalarsInRange pinchingEarth
  /\ scalarsInRange (fst (fst (Sim.animateScalars (M := exampleMath) loudHit
                                 pinchingEarth)))
  /\ Sim.time (fst (fst (Sim.animateScalars (M := exampleMath) loudHit
                           pinchingEarth)))
     == Sim.time pinchingEarth + (1 # 100).
Proof.
  assert (H1 : byteData (Sim.in_audio loudHit)) by (repeat constructor; lia).
  assert (H2 : scalarsInRange pinchingEarth) by (cbv; intuition discriminate).
  split; [exact H1|]. split; [exact H2|].
  exact (frame_scalars_in_range (M := exampleMath) loudHit pinchingEarth H1 H2).
Defined.
(** ** The integrator on one particle *)

Section Integrator.
Context {M : MathLib}.
Import Physics.

Lemma particleStep_slots e i st :
  (i * 3 + 2 < length (vel st))%nat -> (i * 3 + 2 < length (pos st))%nat ->
  let '(f, r, a) := contributions e i st in
  let v' := dampedVelocity3 (slot3 (vel st) i) f r a in
  slot3 (vel (particleStep e i st)) i = v'
  /\ slot3 (pos (particleStep e i st)) i
     = (fst (fst (slot3 (pos st) i)) + fst (fst v'),
        snd (fst (slot3 (pos st) i)) + snd (fst v'),
        snd (slot3 (pos st) i) + snd v').
Proof.
  intros Hv Hp. unfold contributions, particleStep. cbv zeta.
  change (rd (pos st) (i * 3), rd (pos st) (i * 3 + 1), rd (pos st) (i * 3 + 2))
    with (slot3 (pos st) i).
  change (rd (vel st) (i * 3), rd (vel st) (i * 3 + 1), rd (vel st) (i * 3 + 2))
    with (slot3 (vel st) i).
  cbn [slot3 fst snd].
  destruct (springForce _ _ _ _) as [f c1].
  destruct (audioJitter _ _) as [a c2]. cbn [fst].
  destruct (dampedVelocity3 _ _ _ _) as [[vx vy] vz] eqn:E.
  cbn [vel pos].
  pose proof (slot3_written (vel st) i vx vy vz Hv) as Hw.
  split; [exact Hw|].
  unfold slot3 in Hw. injection Hw as -> -> ->.
  apply slot3_written. exact Hp.
Qed.

(** The energy of one axis of a particle: a positive definite form of
    its velocity and of its offset from the scaled target. *)
Definition springEnergy (v err : Q) : Q :=
  (92 # 100) * v * v + (524 # 10000) * v * err + (276 # 10000) * err * err.

Definition scaledTarget (e : Env) (i : nat) : Q * Q * Q :=
  (rd (e_targets e) (i * 3) * e_effectiveScale e,
   rd (e_targets e) (i * 3 + 1) * e_effectiveScale e,
   rd (e_targets e) (i * 3 + 2) * e_effectiveScale e).

Definition energy3 (e : Env) (st : Loop) (i : nat) : Q * Q * Q :=
  let '(vx, vy, vz) := slot3 (vel st) i in
  let '(px, py, pz) := slot3 (pos st) i in
  let '(tx, ty, tz) := scaledTarget e i in
  (springEnergy vx (px - tx), springEnergy vy (py - ty),
   springEnergy vz (pz - tz)).

Lemma springEnergy_step v p t :
  springEnergy (dampedVelocity v ((t - p) * (3 # 100)) 0 0)
    (p + dampedVelocity v ((t - p) * (3 # 100)) 0 0 - t)
  == springEnergy v (p - t) * (92 # 100).
Proof. unfold springEnergy, dampedVelocity. ring. Qed.

Lemma Qsq_nonneg x : 0 <= x * x.
Proof.
  destruct (Qlt_le_dec x 0) as [H|H].
  - assert (E : x * x == (- x) * (- x)) by ring. rewrite E.
    apply Qmult_le_0_compat; lra.
  - apply Qmult_le_0_compat; assumption.
Qed.

Lemma Qsq_zero x : x * x == 0 -> x == 0.
Proof. intros H. destruct (Qmult_integral _ _ H); assumption. Qed.

Lemma springEnergy_definite v err :
  0 <= springEnergy v err
  /\ (springEnergy v err == 0 -> v == 0 /\ err == 0).
Proof.
  unfold springEnergy.
  set (y := v + (131 # 4600) * err).
  assert (H : (92 # 100) * v * v + (524 # 10000) * v * err
              + (276 # 10000) * err * err
              == (92 # 100) * (y * y) + (617639 # 23000000) * (err * err))
    by (subst y; ring).
  pose proof (Qsq_nonneg y) as S1. pose proof (Qsq_nonneg err) as S2.
  rewrite H. split; [lra|].
  intros H0.
  assert (E : err == 0) by (apply Qsq_zero; lra).
  assert (Y : y == 0) by (apply Qsq_zero; lra).
  split; [|exact E]. subst y. rewrite E in Y. lra.
Qed.

(** X2.  With no pointer force, no audio jitter and no scan line (a
    shape other than the earth, an inactive pointer, shockwave at most
    0.1), one loop body multiplies the spring energy of each axis of the
    particle by exactly 0.92; the energy is a positive definite form of
    the velocity and the offset from the scaled target, so the particle
    spirals in onto its target at a geometric rate. *)
Theorem spring_energy_decay (e : Env) (i : nat) (st : Loop) :
  e_shape e <> "earth"%string -> e_mouse_x e <= -100 ->
  e_shockwave e <= 1 # 10 ->
  (i * 3 + 2 < length (vel st))%nat -> (i * 3 + 2 < length (pos st))%nat ->
  Qeq3 (energy3 e (particleStep e i st) i)
       (scaled (92 # 100) (energy3 e st i))
  /\ (forall v err,
        0 <= springEnergy v err
        /\ (springEnergy v err == 0 -> v == 0 /\ err == 0)).
Proof.
  intros Hshape Hmouse Hshock Hv Hp. split; [|apply springEnergy_definite].
  pose proof (particleStep_slots e i st Hv Hp) as Hs.
  unfold contributions in Hs.
  assert (Hf : springForce e i (slot3 (pos st) i) (calls st)
               = ((fst (fst (scaledTarget e i)) - fst (fst (slot3 (pos st) i))) * (3 # 100),
                  (snd (fst (scaledTarget e i)) - snd (fst (slot3 (pos st) i))) * (3 # 100),
                  (snd (scaledTarget e i) - snd (slot3 (pos st) i)) * (3 # 100),
                  calls st)).
  { unfold springForce, slot3, scaledTarget. cbn [fst snd].
    destruct (String.eqb_spec (e_shape e) "earth"); [contradiction|].
    reflexivity. }
  rewrite Hf in Hs.
  rewrite mouseRepulsion_gated in Hs by (right; exact Hmouse).
  assert (Ha : audioJitter e (calls st) = (0, 0, 0, calls st)).
  { unfold audioJitter. apply Qltb_false_iff in Hshock. rewrite Hshock. reflexivity. }
  rewrite Ha in Hs. cbn [fst] in Hs. destruct Hs as [Hvel Hpos].
  unfold energy3. rewrite Hvel, Hpos.
  destruct (slot3 (vel st) i) as [[vx vy] vz].
  destruct (slot3 (pos st) i) as [[px py] pz].
  destruct (scaledTarget e i) as [[tx ty] tz].
  cbn [fst snd dampedVelocity3 scaled]. unfold Qeq3. cbn [fst snd].
  repeat split; apply springEnergy_step.
Qed.

Lemma slot3_insert_ne a k v j :
  (k < j * 3 \/ j * 3 + 2 < k)%nat -> slot3 (<[ k := v ]> a) j = slot3 a j.
Proof. intros H. unfold slot3. rewrite !rd_insert_ne by lia. reflexivity. Qed.

(** X3.  The loop body of particle [i] writes only that particle's
    slots: the position and velocity of every other particle are left as
    they were, and the buffers keep their lengths. *)
Theorem particleStep_local (e : Env) (i j : nat) (st : Loop) :
  j <> i ->
  slot3 (pos (particleStep e i st)) j = slot3 (pos st) j
  /\ slot3 (vel (particleStep e i st)) j = slot3 (vel st) j
  /\ length (pos (particleStep e i st)) = length (pos st)
  /\ length (vel (particleStep e i st)) = length (vel st).
Proof.
  intros Hne. unfold particleStep. cbv zeta.
  destruct (springForce _ _ _ _) as [f c1].
  destruct (audioJitter _ _) as [a c2].
  destruct (dampedVelocity3 _ _ _ _) as [[vx vy] vz].
  cbn [pos vel]. rewrite !length_insert.
  rewrite !slot3_insert_ne by lia. auto.
Qed.

End Integrator.

(** A second particle beside the resting one. *)
Definition pairLoop : Physics.Loop :=
  {| Physics.pos := [1; 2; 3; 4; 5; 6]; Physics.vel := [10; 0; 0; 0; 1; 0];
     Physics.grid := {| Grid.gridHead := []; Grid.gridNext := [] |};
     Physics.calls := O |}.

Lemma spring_energy_decay_witness :
  Qeq3 (energy3 restingEnv
          (Physics.particleStep (M := exampleMath) restingEnv 0 pairLoop) 0)
       (scaled (92 # 100) (energy3 restingEnv pairLoop 0)).
Proof.
  apply (spring_energy_decay (M := exampleMath) restingEnv 0 pairLoop);
    cbn; try lia; try discriminate.
Defined.

Lemma particleStep_local_witness :
  slot3 (Physics.pos (Physics.particleStep (M := exampleMath) restingEnv 0
                        pairLoop)) 1
  = slot3 (Physics.pos pairLoop) 1.
Proof.
  apply (particleStep_local (M := exampleMath) restingEnv 0 1 pairLoop).
  discriminate.
Defined.
(** ** Cell lists and the neighbour walk *)

Section CellWalk.
Context {M : MathLib}.
Import Physics.

Lemma neighborWalk_step i p next neighbor checks pos :
  neighborWalk i p next neighbor checks pos
  = if notSentinel neighbor && (checks <? 8)%nat
    then neighborWalk i p next (readInt32 next neighbor) (S checks)
           (visit i p neighbor pos)
    else (pos, checks).
Proof.
  funelim (neighborWalk i p next neighbor checks pos).
  - rewrite Heq0. destruct (Nat.ltb_spec checks 8); [reflexivity|lia].
  - rewrite Heq0. destruct (Nat.ltb_spec checks 8); [lia|reflexivity].
  - rewrite Heq. reflexivity.
Qed.

Lemma neighborWalk_chain i pt next : forall fuel p l k pos',
  Grid.chain next fuel p = Some l -> (k <= 8)%nat ->
  snd (neighborWalk i pt next (Some p) k pos') = Nat.min 8 (k + length l).
Proof.
  induction fuel as [|fuel IH]; intros p l k pos' Hc Hk;
    rewrite (neighborWalk_step i pt next (Some p) k pos');
    cbn [Grid.chain notSentinel] in *.
  - destruct (Z.eqb_spec p (-1)); [|discriminate].
    injection Hc as <-. cbn [negb andb snd length]. lia.
  - destruct (Z.eqb_spec p (-1)).
    + injection Hc as <-. cbn [negb andb snd length]. lia.
    + cbn [negb andb]. destruct (Z.leb_spec 0 p); [|discriminate].
      destruct (next !! Z.to_nat p) as [q|] eqn:Hq; [|discriminate].
      destruct (Grid.chain next fuel q) as [l'|] eqn:Hl'; [|discriminate].
      injection Hc as <-.
      destruct (Nat.ltb_spec k 8) as [Hlt|Hge].
      * assert (Hr : readInt32 next (Some p) = Some q).
        { unfold readInt32. destruct (Z.leb_spec 0 p); [exact Hq|lia]. }
        rewrite Hr. rewrite (IH q l' (S k)) by (auto; lia). cbn [length]. lia.
      * cbn [snd length]. lia.
Qed.

(** X5.  When the cell of a particle has a well-formed list, the turn
    of that particle visits min(8, length of the list) entries: every
    entry of a list of at most 8, the first 8 of a longer one. *)
Theorem walk_visits_min (g : Grid.Arrays) (i : nat) (pos : list Q)
    (p : Q * Q * Q) (c : Z) (l : list nat) :
  get3 pos (i * 3) = Some p ->
  Grid.cellOf (fst (fst p)) (snd (fst p)) (snd p) = Some c ->
  Grid.cellList g c = Some l ->
  snd (resolveParticle g i pos) = Nat.min 8 (length l).
Proof.
  intros Hp Hc Hl. unfold resolveParticle. rewrite Hp.
  destruct p as [[px py] pz]. cbn [fst snd] in Hc. rewrite Hc.
  unfold Grid.cellList in Hl.
  destruct (Grid.gridHead g !! Z.to_nat c) as [h|]; [|discriminate].
  rewrite (neighborWalk_chain i (px, py, pz) _ _ h l 0 pos Hl) by lia.
  reflexivity.
Qed.

(** A list in strictly decreasing order. *)
Definition descending (l : list nat) : Prop :=
  forall i j a b, (i < j)%nat -> l !! i = Some a -> l !! j = Some b ->
    (b < a)%nat.

Lemma members_descending cf c k : descending (members cf c k).
Proof.
  induction k as [|k IH]; cbn; [intros i j a b _ H; discriminate|].
  destruct (decide (cf k = Some c)); [|exact IH].
  intros i j a b Hij Ha Hb. destruct j as [|j]; [lia|]. cbn in Hb.
  destruct i as [|i]; cbn in Ha.
  - injection Ha as <-.
    assert (Hin : b ∈ members cf c k) by (eapply list_elem_of_lookup_2; eauto).
    apply elem_of_members in Hin. lia.
  - apply (IH i j); auto. lia.
Qed.

(** X6.  After the rebuild every cell list is in strictly decreasing
    particle order: the latest inserted particle comes first. *)
Theorem cell_lists_descending (e : Env) (n : nat) (st : Loop) (c : Z) :
  length (Grid.gridHead (grid st)) = Z.to_nat gridCells ->
  (n <= length (Grid.gridNext (grid st)))%nat ->
  (0 <= c < gridCells)%Z ->
  exists l, Grid.cellList (grid (physicsLoop n e st)) c = Some l
    /\ descending l.
Proof.
  intros Hh Hn Hc.
  destruct (physicsLoop_built e st n Hh Hn) as (Hb & Hlh & Hln).
  eexists. split; [|apply members_descending].
  apply cellList_built; [exact Hb|rewrite Hln; exact Hn|lia|rewrite Hlh; lia].
Qed.

End CellWalk.

Lemma walk_visits_min_witness :
  get3 (replicate 9 (-30)) (0 * 3) = Some (-30, -30, -30)
  /\ Grid.cellOf (-30) (-30) (-30) = Some 0%Z
  /\ Grid.cellList (crowd 3) 0 = Some [2; 1; 0]%nat
  /\ snd (Physics.resolveParticle (M := exampleMath) (crowd 3) 0
            (replicate 9 (-30))) = Nat.min 8 3.
Proof.
  assert (H1 : get3 (replicate 9 (-30)) (0 * 3) = Some (-30, -30, -30))
    by reflexivity.
  assert (H2 : Grid.cellOf (-30) (-30) (-30) = Some 0%Z) by reflexivity.
  assert (H3 : Grid.cellList (crowd 3) 0 = Some [2; 1; 0]%nat)
    by (vm_compute; reflexivity).
  split; [exact H1|]. split; [exact H2|]. split; [exact H3|].
  exact (walk_visits_min (M := exampleMath) (crowd 3) 0 (replicate 9 (-30))
           (-30, -30, -30) 0 [2; 1; 0]%nat H1 H2 H3).
Defined.

Lemma cell_lists_descending_witness :
  exists l,
    Grid.cellList (Physics.grid (Physics.physicsLoop (M := exampleMath) 2
                                   calmEnv twoParticles)) 109830 = Some l
    /\ descending l.
Proof.
  apply (cell_lists_descending (M := exampleMath) calmEnv 2 twoParticles 109830).
  - apply length_replicate.
  - cbn. lia.
  - unfold gridCells, Config.GRID_DIM. lia.
Defined.

(** ** The pair correction *)

Section PairCorrection.
Context {M : MathLib}.
Import Physics.

Lemma get3_Some {A : Type} (a : list A) k x y z :
  get3 a k = Some (x, y, z)
  <-> a !! k = Some x /\ a !! (k + 1)%nat = Some y /\ a !! (k + 2)%nat = Some z.
Proof.
  unfold get3. destruct (a !! k), (a !! (k + 1)%nat), (a !! (k + 2)%nat);
    split; try discriminate; try (intros (?&?&?); discriminate).
  - intros [= -> -> ->]. auto.
  - intros ([= ->] & [= ->] & [= ->]). reflexivity.
Qed.

(** The sum of two vectors. *)
Definition add3 (a b : Q * Q * Q) : Q * Q * Q :=
  (fst (fst a) + fst (fst b), snd (fst a) + snd (fst b), snd a + snd b).

(** X4.  The correction of an overlapping pair, when the particle's
    slots still hold the position read at the start of its turn and the
    square root is exact at the pair's squared distance: both slots are
    rewritten, the sum of the two positions (their midpoint) is kept,
    the pair ends exactly COLLISION_RADIUS apart, and no other slot of
    the buffer changes. *)
Theorem pair_correction_resolves (i3 n3 : nat) (p q : Q * Q * Q)
    (pos : list Q) (d : Q) :
  (i3 + 2 < n3 \/ n3 + 2 < i3)%nat ->
  get3 pos i3 = Some p -> get3 pos n3 = Some q ->
  0 < distSq p q -> distSq p q < minSq ->
  Math_sqrt (distSq p q) == d -> 0 < d -> d * d == distSq p q ->
  exists p' q',
    get3 (separate i3 n3 p pos) i3 = Some p'
    /\ get3 (separate i3 n3 p pos) n3 = Some q'
    /\ Qeq3 (add3 p' q') (add3 p q)
    /\ distSq p' q' == Config.COLLISION_RADIUS * Config.COLLISION_RADIUS
    /\ (forall k, (k < i3 \/ i3 + 2 < k)%nat -> (k < n3 \/ n3 + 2 < k)%nat ->
          separate i3 n3 p pos !! k = pos !! k).
Proof.
  intros Hdis Hp Hq H0 Hlt Hs Hd Hdd.
  destruct p as [[px py] pz], q as [[nx ny] nz].
  unfold separate. rewrite Hq.
  apply get3_Some in Hp as (Hp0 & Hp1 & Hp2).
  apply get3_Some in Hq as (Hq0 & Hq1 & Hq2).
  cbn [distSq] in *.
  apply Qltb_true_iff in H0, Hlt. rewrite H0, Hlt. cbn [andb].
  set (rt := Math_sqrt _) in *.
  set (sx := (px - nx) / rt * (Config.COLLISION_RADIUS - rt) * (5 # 10)).
  set (sy := (py - ny) / rt * (Config.COLLISION_RADIUS - rt) * (5 # 10)).
  set (sz := (pz - nz) / rt * (Config.COLLISION_RADIUS - rt) * (5 # 10)).
  exists (px + sx, py + sy, pz + sz), (nx - sx, ny - sy, nz - sz).
  assert (Hrt : ~ rt == 0) by lra.
  split; [|split; [|split; [|split]]].
  - apply get3_Some. repeat split;
      rewrite ?list_lookup_alter_ne by lia;
      rewrite list_lookup_alter_eq;
      rewrite ?list_lookup_alter_ne by lia;
      rewrite ?Hp0, ?Hp1, ?Hp2; reflexivity.
  - apply get3_Some. repeat split;
      rewrite ?list_lookup_alter_ne by lia;
      rewrite list_lookup_alter_eq;
      rewrite ?list_lookup_alter_ne by lia;
      rewrite ?Hq0, ?Hq1, ?Hq2; reflexivity.
  - unfold Qeq3, add3. cbn [fst snd]. repeat split; ring.
  - cbn [distSq].
    assert (Ex : px + sx - (nx - sx) == (px - nx) * (Config.COLLISION_RADIUS / rt))
      by (subst sx; field; exact Hrt).
    assert (Ey : py + sy - (ny - sy) == (py - ny) * (Config.COLLISION_RADIUS / rt))
      by (subst sy; field; exact Hrt).
    assert (Ez : pz + sz - (nz - sz) == (pz - nz) * (Config.COLLISION_RADIUS / rt))
      by (subst sz; field; exact Hrt).
    rewrite Ex, Ey, Ez.
    assert (Hrr : rt * rt
                  == (px - nx) * (px - nx) + (py - ny) * (py - ny)
                     + (pz - nz) * (pz - nz)) by (rewrite Hs; exact Hdd).
    transitivity ((Config.COLLISION_RADIUS / rt) * (Config.COLLISION_RADIUS / rt)
                  * ((px - nx) * (px - nx) + (py - ny) * (py - ny)
                     + (pz - nz) * (pz - nz))); [ring|].
    rewrite <- Hrr. field. exact Hrt.
  - intros k Hk1 Hk2. rewrite !list_lookup_alter_ne by lia. reflexivity.
Qed.

End PairCorrection.

(** Two particles 0.05 apart on the x axis; the host's square root is
    right at their squared distance. *)
Definition twentiethMath : MathLib :=
  {| Math_PI := 355 # 113;
     Math_sqrt := fun _ => 1 # 20;
     Math_sin := fun _ => 0;
     Math_cos := fun _ => 1;
     Math_atan2 := fun _ _ => 0;
     Math_acos := fun _ => Some 0;
     Math_random := fun _ => 1 # 2 |}.

Lemma pair_correction_resolves_witness :
  exists p' q',
    get3 (Physics.separate (M := twentiethMath) 0 3 (0, 0, 0)
            [0; 0; 0; 1 # 20; 0; 0]) 0 = Some p'
    /\ get3 (Physics.separate (M := twentiethMath) 0 3 (0, 0, 0)
               [0; 0; 0; 1 # 20; 0; 0]) 3 = Some q'
    /\ Qeq3 (add3 p' q') (add3 (0, 0, 0) (1 # 20, 0, 0))
    /\ distSq p' q' == Config.COLLISION_RADIUS * Config.COLLISION_RADIUS
    /\ (forall k, (k < 0 \/ 0 + 2 < k)%nat -> (k < 3 \/ 3 + 2 < k)%nat ->
          Physics.separate (M := twentiethMath) 0 3 (0, 0, 0)
            [0; 0; 0; 1 # 20; 0; 0] !! k
          = [0; 0; 0; 1 # 20; 0; 0] !! k).
Proof.
  apply (pair_correction_resolves (M := twentiethMath) 0 3 (0, 0, 0)
           (1 # 20, 0, 0) [0; 0; 0; 1 # 20; 0; 0] (1 # 20));
    try reflexivity; lia.
Defined.
(** ** Grid geometry *)

Section GridGeometry.
Import Grid.

Lemma cellCoord_nonneg p : (0 <= cellCoord p)%Z <-> -30 <= p.
Proof.
  unfold cellCoord, Config.GRID_OFFSET, Config.CELL_SIZE.
  assert (E : (p + 30) / 1 == p + 30) by (field).
  rewrite (Qfloor_comp _ _ E). split.
  - intros H. pose proof (Qfloor_le (p + 30)) as Hf.
    assert (0 <= inject_Z (Qfloor (p + 30)))
      by (change 0 with (inject_Z 0); rewrite <- Zle_Qle; exact H).
    lra.
  - intros H. change 0%Z with (Qfloor 0). apply Qfloor_resp_le. lra.
Qed.

Lemma cellCoord_below p : (cellCoord p < 60)%Z <-> p < 30.
Proof.
  unfold cellCoord, Config.GRID_OFFSET, Config.CELL_SIZE.
  assert (E : (p + 30) / 1 == p + 30) by (field).
  rewrite (Qfloor_comp _ _ E). split.
  - intros H. pose proof (Qlt_floor (p + 30)) as Hf.
    assert (inject_Z (Qfloor (p + 30) + 1) <= 60)
      by (change 60 with (inject_Z 60); rewrite <- Zle_Qle; lia).
    lra.
  - intros H. pose proof (Qfloor_le (p + 30)) as Hf.
    assert (inject_Z (Qfloor (p + 30)) < inject_Z 60)
      by (change (inject_Z 60) with 60; lra).
    rewrite <- Zlt_Qlt in H0. exact H0.
Qed.

Definition inDomain (p : Q) : Prop := -30 <= p /\ p < 30.

Lemma inRange_inDomain p : inRange (cellCoord p) = true <-> inDomain p.
Proof.
  unfold inRange, inDomain, Config.GRID_DIM.
  rewrite andb_true_iff, Z.leb_le, Z.ltb_lt, cellCoord_nonneg, cellCoord_below.
  reflexivity.
Qed.

(** X7.  A position is in the grid exactly when each coordinate lies in
    [-30, 30): the lower face belongs to the domain, the upper face does
    not. *)
Theorem cellOf_domain (x y z : Q) :
  is_Some (cellOf x y z) <-> inDomain x /\ inDomain y /\ inDomain z.
Proof.
  unfold cellOf. cbv zeta.
  rewrite <- !inRange_inDomain.
  destruct (inRange (cellCoord x)), (inRange (cellCoord y)),
    (inRange (cellCoord z)); cbn; split;
    try (intros [c Hc]; discriminate); try (intros (?&?&?); discriminate);
    eauto.
Qed.

(** X8.  Inside the grid the cell index determines the three cell
    coordinates: two positions share a cell index only when they fall in
    the same cell on every axis, and the coordinates are recovered from
    the index by division. *)
Theorem cellIndex_decodes (x y z : Q) (c : Z) :
  cellOf x y z = Some c ->
  cellCoord x = (c mod 60)%Z
  /\ cellCoord y = ((c / 60) mod 60)%Z
  /\ cellCoord z = (c / 3600)%Z
  /\ (forall x' y' z', cellOf x' y' z' = Some c ->
        cellCoord x' = cellCoord x /\ cellCoord y' = cellCoord y
        /\ cellCoord z' = cellCoord z).
Proof.
  assert (D : forall x y z c, cellOf x y z = Some c ->
            cellCoord x = (c mod 60)%Z /\ cellCoord y = ((c / 60) mod 60)%Z
            /\ cellCoord z = (c / 3600)%Z).
  { clear. intros x y z c. unfold cellOf, inRange, cellIndex, Config.GRID_DIM.
    cbv zeta. destruct (_ && _) eqn:E; [|discriminate]. intros [= <-].
    repeat (apply andb_prop in E; destruct E as [E ?]).
    set (gx := cellCoord x) in *. set (gy := cellCoord y) in *.
    set (gz := cellCoord z) in *.
    assert (0 <= gx < 60 /\ 0 <= gy < 60 /\ 0 <= gz < 60)%Z by lia.
    clearbody gx gy gz.
    repeat split.
    - replace (gx + gy * 60 + gz * 60 * 60)%Z with (gx + (gy + gz * 60) * 60)%Z by ring.
      rewrite Z_mod_plus_full. symmetry. apply Z.mod_small. lia.
    - replace (gx + gy * 60 + gz * 60 * 60)%Z with (gx + (gy + gz * 60) * 60)%Z by ring.
      rewrite Z_div_plus_full by lia. rewrite (Z.div_small gx) by lia.
      rewrite Z.add_0_l, Z_mod_plus_full. symmetry. apply Z.mod_small. lia.
    - replace (gx + gy * 60 + gz * 60 * 60)%Z with ((gx + gy * 60) + gz * 3600)%Z by ring.
      rewrite Z_div_plus_full by lia. rewrite (Z.div_small (gx + gy * 60)) by lia.
      lia. }
  intros H. destruct (D x y z c H) as (Hx & Hy & Hz).
  repeat split; try assumption;
    destruct (D x' y' z' c H0) as (Hx' & Hy' & Hz'); congruence.
Qed.

End GridGeometry.

Lemma cellIndex_decodes_witness :
  Grid.cellOf 0 (-30) (2999 # 100) = Some 212430%Z
  /\ Grid.cellCoord 0 = (212430 mod 60)%Z
  /\ Grid.cellCoord (-30) = ((212430 / 60) mod 60)%Z
  /\ Grid.cellCoord (2999 # 100) = (212430 / 3600)%Z.
Proof.
  assert (H : Grid.cellOf 0 (-30) (2999 # 100) = Some 212430%Z) by reflexivity.
  split; [exact H|].
  destruct (cellIndex_decodes 0 (-30) (2999 # 100) 212430 H) as (A & B & C & _).
  auto.
Defined.

(** ** Pointer, hand tracking and the data card *)

Section Pointer.
Context {M : MathLib}.
Import Sim Host.

Lemma unit_fraction a w : 0 < w -> 0 <= a -> a <= w -> 0 <= a / w /\ a / w <= 1.
Proof.
  intros Hw H0 H1. split.
  - apply Qle_shift_div_l; lra.
  - apply Qle_shift_div_r; lra.
Qed.

(** X9.  A mouse move inside the window, while no hand is tracked,
    stores normalized coordinates in [-1, 1] x [-1, 1] (so the pointer
    is active for the force gate); while a hand is tracked the move is
    ignored. *)
Theorem mouse_normalized (clientX clientY innerWidth innerHeight : Q)
    (s : State) :
  0 < innerWidth -> 0 < innerHeight ->
  0 <= clientX -> clientX <= innerWidth ->
  0 <= clientY -> clientY <= innerHeight ->
  let s' := onMouseMove clientX clientY innerWidth innerHeight s in
  (isHandDetected s = true -> s' = s)
  /\ (isHandDetected s = false ->
      -1 <= fst (mouse s') /\ fst (mouse s') <= 1
      /\ -1 <= snd (mouse s') /\ snd (mouse s') <= 1
      /\ -100 < fst (mouse s')).
Proof.
  intros Hw Hh Hx0 Hx1 Hy0 Hy1. unfold onMouseMove. split; intros Hd; rewrite Hd.
  - reflexivity.
  - cbn [negb mouse set_mouse fst snd].
    destruct (unit_fraction clientX innerWidth Hw Hx0 Hx1).
    destruct (unit_fraction clientY innerHeight Hh Hy0 Hy1).
    repeat split; lra.
Qed.

(** X11.  Whenever the tracking callback has reported a hand, no
    particle receives a pointer force: over the earth the force is gated
    by the shape, elsewhere the callback parks the pointer at (-999,
    -999), below the activity threshold. *)
Theorem tracked_hand_no_pointer_force (hand : list (Q * Q))
    (others : list (list (Q * Q))) (s s' : State) (interact : Q * Q)
    (px py : Q) :
  onResults (hand :: others) s = Some s' ->
  isHandDetected s' = true
  /\ Physics.mouseRepulsion (currentShape s') (fst (mouse s')) interact px py
     = (0, 0, 0).
Proof.
  unfold onResults. cbn [length].
  set (s1 := set_isHandDetected true s).
  destruct (String.eqb_spec (currentShape s1) "earth") as [He|Hne].
  - destruct (earthMode hand s1) as [s2|] eqn:E2; [|discriminate].
    assert (H2 : currentShape s2 = "earth"%string /\ isHandDetected s2 = true).
    { unfold earthMode in E2.
      destruct (hand !! 8%nat), (hand !! 4%nat); try discriminate.
      injection E2 as <-. cbn. auto. }
    destruct H2 as [Hs Hd]. unfold twoHandZoom.
    intros Hz.
    assert (H' : currentShape s' = "earth"%string /\ isHandDetected s' = true).
    { destruct (length (hand :: others) =? 2)%nat; [|injection Hz as <-; auto].
      destruct ((hand :: others) !! 0%nat), ((hand :: others) !! 1%nat);
        try discriminate.
      destruct (l !! 8%nat), (l0 !! 8%nat); try discriminate.
      injection Hz as <-. cbn. auto. }
    destruct H' as [Hs' Hd']. split; [exact Hd'|].
    apply mouseRepulsion_gated. left. exact Hs'.
  - destruct (classicMode hand s1) as [s2|] eqn:E2; [|discriminate].
    assert (H2 : mouse s2 = (-999, -999) /\ isHandDetected s2 = true).
    { unfold classicMode in E2. destruct (hand !! 9%nat); try discriminate.
      injection E2 as <-. cbn. auto. }
    destruct H2 as [Hm Hd]. unfold twoHandZoom. intros Hz.
    assert (H' : mouse s' = (-999, -999) /\ isHandDetected s' = true).
    { destruct (length (hand :: others) =? 2)%nat; [|injection Hz as <-; auto].
      destruct ((hand :: others) !! 0%nat), ((hand :: others) !! 1%nat);
        try discriminate.
      destruct (l !! 8%nat), (l0 !! 8%nat); try discriminate.
      injection Hz as <-. cbn. auto. }
    destruct H' as [Hm' Hd']. split; [exact Hd'|].
    apply mouseRepulsion_gated. right. rewrite Hm'. cbn. lra.
Qed.

(** X12.  With exactly two hands tracked the zoom target is five times
    the distance between the two index fingertips (the linear map from
    [0.1, 0.8] onto [0.5, 4.0] passes through the origin), so it is
    never negative when the square root is not; with any other number of
    hands the target scale is left alone. *)
Theorem two_hand_zoom_linear (hands : list (list (Q * Q))) (s s' : State) :
  twoHandZoom hands s = Some s' ->
  (length hands <> 2%nat -> s' = s)
  /\ (forall hand0 hand1 h1 h2,
        hands = [hand0; hand1] ->
        hand0 !! 8%nat = Some h1 -> hand1 !! 8%nat = Some h2 ->
        let distance :=
          Math_sqrt ((fst h1 - fst h2) * (fst h1 - fst h2)
                     + (snd h1 - snd h2) * (snd h1 - snd h2)) in
        targetScale s' == 5 * distance
        /\ (0 <= distance -> 0 <= targetScale s')).
Proof.
  unfold twoHandZoom. intros H. split.
  - intros Hn. destruct (Nat.eqb_spec (length hands) 2); [contradiction|].
    injection H as <-. reflexivity.
  - intros hand0 hand1 h1 h2 -> H1 H2. cbn in H. rewrite H1, H2 in H.
    injection H as <-. cbn [targetScale set_targetScale].
    set (distance := Math_sqrt _).
    assert (E : mapLinear distance (1 # 10) (8 # 10) (5 # 10) 4 == 5 * distance)
      by (unfold mapLinear; field).
    split; [exact E|]. intros Hd. rewrite E. lra.
Qed.

End Pointer.
Section Acquisition.
Context {M : MathLib}.
Import Sim Host.

(** X10.  From the fingertip to the card: in earth mode the callback
    stores the mirrored fingertip as the pointer, an acquisition carries
    that pointer, and the card for it is placed 20 pixels to the right
    of and 20 pixels above the pixel of the mirrored fingertip. *)
Theorem card_at_fingertip (hand : list (Q * Q)) (tip : Q * Q)
    (s s1 s2 : State) (hit : bool) (x y innerWidth innerHeight : Q)
    (c : nat) (card : Card) :
  hand !! 8%nat = Some tip ->
  earthMode hand s = Some s1 ->
  pinchBlock hit s1 = (s2, [TargetAcquired x y]) ->
  showHackerData true x y innerWidth innerHeight c = Some card ->
  x == 1 - 2 * fst tip /\ y == 1 - 2 * snd tip
  /\ card_left card == (1 - fst tip) * innerWidth + 20
  /\ card_top card == snd tip * innerHeight - 20.
Proof.
  intros Ht He Hp Hc. unfold earthMode in He. rewrite Ht in He.
  destruct (hand !! 4%nat) as [thumb|]; [|discriminate].
  injection He as <-. unfold pinchBlock in Hp.
  cbn [isPinching pinchTriggered mouse set_isPinching set_mouse
       set_pinchTriggered set_shockwave fst snd] in Hp.
  destruct hit; [|discriminate].
  destruct (Qltb _ (5 # 100)); [|discriminate].
  destruct (negb (pinchTriggered s)); [|discriminate].
  injection Hp as _ <- <-.
  cbn in Hc. injection Hc as <-. cbn [card_left card_top].
  repeat split; ring.
Qed.

(** X17.  The numbers drawn for a card are in range when the random
    numbers are in [0, 1): latitude in [-90, 90), longitude in
    [-180, 180), both address components in 0..254 (255 is never
    drawn), population in 0..9999999.  Without an overlay element no
    card is made. *)
Theorem card_data_ranges (x y innerWidth innerHeight : Q) (c : nat) :
  (forall k, 0 <= Math_random k /\ Math_random k < 1) ->
  showHackerData false x y innerWidth innerHeight c = None
  /\ exists card,
       showHackerData true x y innerWidth innerHeight c = Some card
       /\ -90 <= card_lat card /\ card_lat card < 90
       /\ -180 <= card_lon card /\ card_lon card < 180
       /\ (0 <= card_ip3 card <= 254)%Z /\ (0 <= card_ip4 card <= 254)%Z
       /\ (0 <= card_pop card <= 9999999)%Z.
Proof.
  intros Hr. split; [reflexivity|]. eexists. split; [reflexivity|].
  cbn [card_lat card_lon card_ip3 card_ip4 card_pop].
  assert (F : forall r n, 0 <= r -> r < 1 -> (0 < n)%Z ->
            (0 <= Qfloor (r * inject_Z n) <= n - 1)%Z).
  { intros r n H0 H1 Hn.
    assert (Hq : 0 < inject_Z n)
      by (change 0 with (inject_Z 0); rewrite <- Zlt_Qlt; exact Hn).
    split.
    - change 0%Z with (Qfloor 0). apply Qfloor_resp_le. nra.
    - pose proof (Qfloor_le (r * inject_Z n)) as Hf.
      assert (Hlt : inject_Z (Qfloor (r * inject_Z n)) < inject_Z n) by nra.
      rewrite <- Zlt_Qlt in Hlt. lia. }
  destruct (Hr c), (Hr (c + 1)%nat), (Hr (c + 2)%nat), (Hr (c + 3)%nat),
    (Hr (c + 4)%nat).
  repeat split; try lra.
  - apply (F _ 255%Z); auto; lia.
  - apply (F _ 255%Z); auto; lia.
  - apply (F _ 255%Z); auto; lia.
  - apply (F _ 255%Z); auto; lia.
  - apply (F _ 10000000%Z); auto; lia.
  - apply (F _ 10000000%Z); auto; lia.
Qed.

(** X13.  The latch outlives a lost hand.  When the hand disappears
    while the latch is set over the earth, the frames without a hand
    neither emit nor release; so the first frame after the hand is back
    emits no acquisition, whatever it sees, even a pinch on a hit. *)
Theorem latch_survives_hand_loss (s sLost sBack : State)
    (hands : list (list (Q * Q))) (hit1 hit2 : bool) :
  currentShape s = "earth"%string -> pinchTriggered s = true ->
  onResults [] s = Some sLost ->
  onResults hands (fst (pinchDetection hit1 sLost)) = Some sBack ->
  pinchDetection hit1 sLost = (sLost, [])
  /\ isPinching sLost = false
  /\ snd (pinchDetection hit2 sBack) = [].
Proof.
  intros Hshape Hlatch HL HB. cbn in HL. injection HL as <-.
  set (sLost := set_isPinching false _) in *.
  assert (Hn : pinchDetection hit1 sLost = (sLost, [])).
  { unfold pinchDetection, hittable. cbn. rewrite andb_false_r. reflexivity. }
  rewrite Hn in HB. cbn [fst] in HB.
  split; [exact Hn|]. split; [reflexivity|].
  assert (Hb : pinchTriggered sBack = true).
  { unfold onResults in HB. destruct hands as [|hand others].
    - injection HB as <-. exact Hlatch.
    - set (s1 := set_isHandDetected true sLost) in *.
      assert (H1 : pinchTriggered s1 = true) by exact Hlatch.
      assert (H2 : forall s2,
                (if String.eqb (currentShape s1) "earth"
                 then earthMode hand s1 else classicMode hand s1) = Some s2 ->
                pinchTriggered s2 = true).
      { intros s2. unfold earthMode, classicMode.
        destruct (String.eqb (currentShape s1) "earth").
        - destruct (hand !! 8%nat), (hand !! 4%nat); try discriminate.
          intros [= <-]. exact H1.
        - destruct (hand !! 9%nat); try discriminate. intros [= <-]. exact H1. }
      destruct (if String.eqb (currentShape s1) "earth" then _ else _) as [s2|];
        [|discriminate].
      specialize (H2 s2 eq_refl). unfold twoHandZoom in HB.
      destruct (length (hand :: others) =? 2)%nat; [|injection HB as <-; auto].
      destruct ((hand :: others) !! 0%nat), ((hand :: others) !! 1%nat);
        try discriminate.
      destruct (l !! 8%nat), (l0 !! 8%nat); try discriminate.
      injection HB as <-. exact H2. }
  unfold pinchDetection, pinchBlock.
  destruct (hittable sBack), hit2, (isPinching sBack); rewrite ?Hb; reflexivity.
Qed.

Lemma updateStarfield_lookup n bass shock starPos k :
  updateStarfield n bass shock starPos !! k
  = if bool_decide ((k mod 3 = 2)%nat /\ (k / 3 < n)%nat)
    then moveStar (starSpeed bass shock) <$> starPos !! k
    else starPos !! k.
Proof.
  unfold updateStarfield. induction n as [|n IH].
  - cbn. destruct (bool_decide _) eqn:E; [|reflexivity].
    apply bool_decide_eq_true in E. lia.
  - rewrite forLoop_S.
    destruct (decide (k = n * 3 + 2)%nat) as [->|Hne].
    + rewrite list_lookup_alter_eq, IH.
      assert (H1 : ((n * 3 + 2) mod 3 = 2)%nat).
      { replace (n * 3 + 2)%nat with (2 + n * 3)%nat by lia.
        rewrite Nat.Div0.mod_add. reflexivity. }
      assert (H2 : ((n * 3 + 2) / 3 = n)%nat).
      { replace (n * 3 + 2)%nat with (2 + n * 3)%nat by lia.
        rewrite Nat.div_add by lia. reflexivity. }
      rewrite bool_decide_eq_false_2 by lia.
      rewrite bool_decide_eq_true_2 by lia. reflexivity.
    + rewrite list_lookup_alter_ne by lia. rewrite IH.
      assert (Hk : (k mod 3 = 2 /\ k / 3 < S n <-> k mod 3 = 2 /\ k / 3 < n)%nat).
      { split; intros [A B]; (split; [exact A|]); [|lia].
        destruct (decide (k / 3 = n)%nat) as [E|]; [|lia].
        exfalso. apply Hne. pose proof (Nat.div_mod_eq k 3). lia. }
      destruct (bool_decide (k mod 3 = 2 /\ k / 3 < n)%nat) eqn:E.
      * apply bool_decide_eq_true in E. rewrite bool_decide_eq_true_2 by tauto.
        reflexivity.
      * apply bool_decide_eq_false in E. rewrite bool_decide_eq_false_2 by tauto.
        reflexivity.
Qed.

Lemma moveStar_bound speed z :
  moveStar speed z <= 50
  /\ (moveStar speed z = z + speed \/ (moveStar speed z = -750 /\ 50 < z + speed)).
Proof.
  unfold moveStar. cbv zeta. destruct (Qltb 50 (z + speed)) eqn:E.
  - apply Qltb_true_iff in E. split; [lra|]. right. auto.
  - apply Qltb_false_iff in E. split; [exact E|]. left. reflexivity.
Qed.

(** X14.  One starfield update leaves every star's depth at most 50:
    each of the first [n] stars is either advanced by the speed or, when
    that would pass 50, sent back to -750; the other coordinates and the
    length of the buffer are kept; and the speed is at least 0.8 for
    non-negative audio scalars. *)
Theorem starfield_stays_behind (n : nat) (bass shock : Q) (starPos : list Q) :
  let starPos' := updateStarfield n bass shock starPos in
  length starPos' = length starPos
  /\ (forall i z, (i < n)%nat -> starPos !! (i * 3 + 2)%nat = Some z ->
        exists z', starPos' !! (i * 3 + 2)%nat = Some z' /\ z' <= 50
          /\ (z' = z + starSpeed bass shock
              \/ (z' = -750 /\ 50 < z + starSpeed bass shock)))
  /\ (forall k, (k mod 3 <> 2)%nat -> starPos' !! k = starPos !! k)
  /\ (0 <= bass -> 0 <= shock -> 8 # 10 <= starSpeed bass shock).
Proof.
  cbv zeta. split; [|split; [|split]].
  - unfold updateStarfield. induction n as [|n IH]; [reflexivity|].
    rewrite forLoop_S, length_alter. exact IH.
  - intros i z Hi Hz. rewrite updateStarfield_lookup.
    assert (H1 : ((i * 3 + 2) mod 3 = 2)%nat).
    { replace (i * 3 + 2)%nat with (2 + i * 3)%nat by lia.
      rewrite Nat.Div0.mod_add. reflexivity. }
    assert (H2 : ((i * 3 + 2) / 3 = i)%nat).
    { replace (i * 3 + 2)%nat with (2 + i * 3)%nat by lia.
      rewrite Nat.div_add by lia. reflexivity. }
    rewrite bool_decide_eq_true_2 by lia. rewrite Hz. cbn.
    eexists. split; [reflexivity|]. apply moveStar_bound.
  - intros k Hk. rewrite updateStarfield_lookup.
    rewrite bool_decide_eq_false_2 by tauto. reflexivity.
  - intros Hb Hs. unfold starSpeed. lra.
Qed.

(** X15.  The camera shake is bounded by half the shockwave on each
    axis, and absent at a shockwave of 0.5 or less. *)
Theorem camera_shake_bounded (shockwave : Q) (c : nat) :
  (forall k, 0 <= Math_random k /\ Math_random k < 1) ->
  0 <= shockwave ->
  Qabs (fst (cameraShake shockwave c)) <= shockwave / 2
  /\ Qabs (snd (cameraShake shockwave c)) <= shockwave / 2
  /\ (shockwave <= 5 # 10 -> cameraShake shockwave c = (0, 0)).
Proof.
  intros Hr Hs. unfold cameraShake.
  destruct (Qltb (5 # 10) shockwave) eqn:E.
  - apply Qltb_true_iff in E. destruct (Hr c), (Hr (S c)). cbn [fst snd].
    assert (Hh : shockwave / 2 == shockwave * (1 # 2)) by field.
    rewrite Hh.
    repeat split; try (apply Qabs_Qle_condition; split; nra). lra.
  - cbn [fst snd]. assert (Hh : shockwave / 2 == shockwave * (1 # 2)) by field.
    rewrite Hh.
    repeat split; try (apply Qabs_Qle_condition; split; nra).
Qed.

End Acquisition.

(** A host whose square root is the constant [r]. *)
Definition rootMath (r : Q) : MathLib :=
  {| Math_PI := 355 # 113;
     Math_sqrt := fun _ => r;
     Math_sin := fun _ => 0;
     Math_cos := fun _ => 1;
     Math_atan2 := fun _ _ => 0;
     Math_acos := fun _ => Some 0;
     Math_random := fun _ => 1 # 2 |}.

(** A hand whose index fingertip (landmark 8) is at (1/4, 3/4) and
    touches the thumb. *)
Definition pinchingHand : list (Q * Q) :=
  replicate 8 (1 # 4, 3 # 4) ++ [(1 # 4, 3 # 4)] ++ replicate 12 (1 # 2, 1 # 2).

Definition latchedEarth : Sim.State :=
  Sim.set_pinchTriggered true trackedEarth.

Lemma mouse_normalized_witness :
  let s' := Host.onMouseMove 200 150 800 600 Sim.initialState in
  -1 <= fst (Sim.mouse s') /\ fst (Sim.mouse s') <= 1
  /\ -1 <= snd (Sim.mouse s') /\ snd (Sim.mouse s') <= 1
  /\ -100 < fst (Sim.mouse s').
Proof.
  apply (mouse_normalized 200 150 800 600 Sim.initialState); try reflexivity;
    discriminate.
Defined.

Lemma tracked_hand_no_pointer_force_witness :
  Host.onResults (M := rootMath 0) [pinchingHand] Sim.initialState
  = Some (Sim.set_isPinching true
            (Host.set_mouse ((1 - (1 # 4)) * 2 - 1, - (3 # 4) * 2 + 1)
               (Host.set_isHandDetected true Sim.initialState)))
  /\ Physics.mouseRepulsion (M := rootMath 0) "earth"
       ((1 - (1 # 4)) * 2 - 1) (0, 0) 3 4 = (0, 0, 0).
Proof.
  assert (H : Host.onResults (M := rootMath 0) [pinchingHand] Sim.initialState
              = Some (Sim.set_isPinching true
                        (Host.set_mouse ((1 - (1 # 4)) * 2 - 1, - (3 # 4) * 2 + 1)
                           (Host.set_isHandDetected true Sim.initialState))))
    by reflexivity.
  split; [exact H|].
  exact (proj2 (tracked_hand_no_pointer_force (M := rootMath 0) pinchingHand []
                  Sim.initialState _ (0, 0) 3 4 H)).
Defined.

Definition zoomed : Sim.State :=
  Host.set_targetScale (Host.mapLinear (1 # 2) (1 # 10) (8 # 10) (5 # 10) 4)
    trackedEarth.

Lemma two_hand_zoom_linear_witness :
  Host.twoHandZoom (M := rootMath (1 # 2)) [pinchingHand; pinchingHand]
    trackedEarth = Some zoomed
  /\ Sim.targetScale zoomed == 5 * (1 # 2).
Proof.
  assert (H : Host.twoHandZoom (M := rootMath (1 # 2))
                [pinchingHand; pinchingHand] trackedEarth = Some zoomed)
    by reflexivity.
  split; [exact H|].
  destruct (two_hand_zoom_linear (M := rootMath (1 # 2))
              [pinchingHand; pinchingHand] trackedEarth zoomed H) as [_ Hz].
  exact (proj1 (Hz pinchingHand pinchingHand (1 # 4, 3 # 4) (1 # 4, 3 # 4)
                  eq_refl eq_refl eq_refl)).
Defined.

(** The state after the callback saw [pinchingHand] over the earth, the
    acquisition frame that follows, and its card on an 800 x 600 page. *)
Definition pointed : Sim.State :=
  Sim.set_isPinching true
    (Host.set_mouse ((1 - (1 # 4)) * 2 - 1, - (3 # 4) * 2 + 1) trackedEarth).

Definition fingertipCard : Host.Card :=
  {| Host.card_left :=
       (((1 - (1 # 4)) * 2 - 1) * (5 # 10) + (5 # 10)) * 800 + 20;
     Host.card_top :=
       - ((- (3 # 4) * 2 + 1) * (5 # 10) - (5 # 10)) * 600 - 20;
     Host.card_lat := (1 # 2) * 180 - 90;
     Host.card_lon := (1 # 2) * 360 - 180;
     Host.card_ip3 := Qfloor ((1 # 2) * 255);
     Host.card_ip4 := Qfloor ((1 # 2) * 255);
     Host.card_pop := Qfloor ((1 # 2) * 10000000) |}.

Lemma card_at_fingertip_witness :
  Host.earthMode (M := rootMath 0) pinchingHand trackedEarth = Some pointed
  /\ Host.showHackerData (M := rootMath 0) true ((1 - (1 # 4)) * 2 - 1)
       (- (3 # 4) * 2 + 1) 800 600 0 = Some fingertipCard
  /\ Host.card_left fingertipCard == (1 - (1 # 4)) * 800 + 20
  /\ Host.card_top fingertipCard == (3 # 4) * 600 - 20.
Proof.
  assert (H1 : Host.earthMode (M := rootMath 0) pinchingHand trackedEarth
               = Some pointed) by reflexivity.
  assert (H2 : Host.showHackerData (M := rootMath 0) true
                 ((1 - (1 # 4)) * 2 - 1) (- (3 # 4) * 2 + 1) 800 600 0
               = Some fingertipCard) by reflexivity.
  split; [exact H1|]. split; [exact H2|].
  destruct (card_at_fingertip (M := rootMath 0) pinchingHand (1 # 4, 3 # 4)
              trackedEarth pointed
              (Sim.set_shockwave (5 # 10) (Sim.set_pinchTriggered true pointed))
              true _ _ 800 600 0 fingertipCard eq_refl H1 eq_refl H2)
    as (_ & _ & A & B).
  split; [exact A|exact B].
Defined.

Lemma card_data_ranges_witness :
  exists card,
    Host.showHackerData (M := rootMath 0) true 0 0 800 600 0 = Some card
    /\ -90 <= Host.card_lat card /\ Host.card_lat card < 90
    /\ -180 <= Host.card_lon card /\ Host.card_lon card < 180
    /\ (0 <= Host.card_ip3 card <= 254)%Z
    /\ (0 <= Host.card_ip4 card <= 254)%Z
    /\ (0 <= Host.card_pop card <= 9999999)%Z.
Proof.
  apply (card_data_ranges (M := rootMath 0) 0 0 800 600 0).
  intros k. cbn. split; lra.
Defined.

Lemma latch_survives_hand_loss_witness :
  let sLost := Sim.set_isPinching false
                 (Host.set_targetRotation (0, 0)
                    (Host.set_isHandDetected false latchedEarth)) in
  let sBack := Sim.set_isPinching true
                 (Host.set_mouse ((1 - (1 # 4)) * 2 - 1, - (3 # 4) * 2 + 1)
                    (Host.set_isHandDetected true sLost)) in
  Host.onResults (M := rootMath 0) [pinchingHand] sLost = Some sBack
  /\ Sim.isPinching sBack = true
  /\ snd (Sim.pinchDetection true sBack) = [].
Proof.
  cbv zeta.
  split; [reflexivity|]. split; [reflexivity|].
  refine (proj2 (proj2 (latch_survives_hand_loss (M := rootMath 0) latchedEarth
                          _ _ [pinchingHand] false true eq_refl eq_refl
                          eq_refl _))).
  reflexivity.
Defined.

Lemma camera_shake_bounded_witness :
  Qabs (fst (Host.cameraShake (M := rootMath 0) 2 0)) <= 2 / 2
  /\ Qabs (snd (Host.cameraShake (M := rootMath 0) 2 0)) <= 2 / 2.
Proof.
  destruct (camera_shake_bounded (M := rootMath 0) 2 0) as (A & B & _).
  - intros k. cbn. split; lra.
  - discriminate.
  - split; [exact A|exact B].
Defined.

(** ** The points of a generated field *)

Section FieldPoints.
Import Shapes.

Section WithMath.
Context {M : MathLib}.

(** [p] lies on the surface of the axis-aligned cube of half-size
    [size] centred at the origin. *)
Definition onCubeSurface (size : Q) (p : Q * Q * Q) : Prop :=
  let '(x, y, z) := p in
  Qabs x <= size /\ Qabs y <= size /\ Qabs z <= size
  /\ (Qabs x == size \/ Qabs y == size \/ Qabs z == size).

Lemma cubeSample_surface i c :
  (forall k, 0 <= Math_random k /\ Math_random k < 1) ->
  exists p size, cubeSample i c = Some (p, (c + 6)%nat)
    /\ (size = 3 \/ size = 7 \/ size = 12) /\ onCubeSurface size p.
Proof.
  intros Hr. unfold cubeSample, rnd. cbv zeta.
  set (size := if Qltb (Math_random c) (2 # 10) then 3
               else if Qltb (Math_random c) (5 # 10) then 7 else 12).
  assert (Hs : size = 3 \/ size = 7 \/ size = 12).
  { subst size. destruct (Qltb _ (2 # 10)); auto. destruct (Qltb _ (5 # 10)); auto. }
  assert (Hp : 0 < size) by (destruct Hs as [->|[->| ->]]; reflexivity).
  set (dir := if Qltb (5 # 10) (Math_random (c + 2)) then 1 else -1).
  assert (Hd : Qabs (size * dir) == size).
  { clearbody size. subst dir. destruct (Qltb _ _).
    - assert (E : size * 1 == size) by ring. rewrite E.
      apply Qabs_pos. lra.
    - assert (E : size * -1 == - size) by ring. rewrite E, Qabs_opp.
      apply Qabs_pos. lra. }
  assert (Hc : forall k, Qabs ((Math_random k - (1 # 2)) * 2 * size) <= size).
  { clearbody size dir. intros k. destruct (Hr k). apply Qabs_Qle_condition. split; nra. }
  eexists _, size. split; [reflexivity|]. split; [exact Hs|].
  assert (Hd' : Qabs (size * dir) <= size) by (rewrite Hd; apply Qle_refl).
  destruct (Qfloor _ =? 0)%Z; [|destruct (Qfloor _ =? 1)%Z];
    unfold onCubeSurface; (split; [|split; [|split]]);
    try exact Hd'; try apply Hc.
  - left. exact Hd.
  - right. left. exact Hd.
  - right. right. exact Hd.
Qed.

(** X16.  With random numbers in [0, 1) the cube generator fills a
    buffer of [n] particles drawing six numbers per particle, and every
    particle it writes lies on the surface of one of three nested cubes,
    of half-size 3, 7 or 12. *)
Theorem cube_points_on_surfaces (n : nat) (arr : list Q) (c : nat) :
  (forall k, 0 <= Math_random k /\ Math_random k < 1) ->
  (n * 3 <= length arr)%nat ->
  exists arr',
    generateQuantumCube n arr c = Some (arr', (c + 6 * n)%nat)
    /\ length arr' = length arr
    /\ forall i, (i < n)%nat ->
         exists p size, get3 arr' (i * 3) = Some p
           /\ (size = 3 \/ size = 7 \/ size = 12) /\ onCubeSurface size p.
Proof.
  intros Hr Hlen. unfold generateQuantumCube.
  assert (Hrun : forall m lo a c0, (m = n - lo)%nat ->
            exists a', fillLoop lo n cubeSample a c0
                       = Some (a', (c0 + 6 * m)%nat)).
  { induction m as [|m IH]; intros lo a c0 Hm.
    - rewrite fillLoop_nil by lia. exists a. do 2 f_equal. lia.
    - rewrite fillLoop_cons by lia.
      destruct (cubeSample_surface lo c0 Hr) as (p & size & Es & _).
      rewrite Es. destruct (IH (S lo) (put3 (lo * 3) p a) (c0 + 6)%nat
                              ltac:(lia)) as [a' Ha'].
      exists a'. rewrite Ha'. do 2 f_equal. lia. }
  destruct (Hrun n O arr c ltac:(lia)) as [arr' Ha]. exists arr'.
  split; [exact Ha|].
  split; [exact (proj1 (fillLoop_below _ _ _ _ _ _ _ Ha))|].
  intros i Hi.
  destruct (fillLoop_points 0 n cubeSample arr c arr' _ Hlen Ha i ltac:(lia))
    as (ci & p & ci' & Es & Hg).
  destruct (cubeSample_surface i ci Hr) as (p' & size & Es' & Hsz & Hon).
  rewrite Es in Es'. injection Es' as <- _.
  exists p, size. auto.
Qed.

End WithMath.
End FieldPoints.

Lemma cube_points_on_surfaces_witness :
  exists arr',
    Shapes.generateQuantumCube (M := exampleMath) 2 (Shapes.freshArray 2) 0
      = Some (arr', (0 + 6 * 2)%nat)
    /\ length arr' = length (Shapes.freshArray 2)
    /\ forall i, (i < 2)%nat ->
         exists p size, get3 arr' (i * 3) = Some p
           /\ (size = 3 \/ size = 7 \/ size = 12)
           /\ onCubeSurface size p.
Proof.
  apply (cube_points_on_surfaces (M := exampleMath) 2 (Shapes.freshArray 2) 0).
  - exact exampleMath_random.
  - cbn. lia.
Defined.
